(** * A shallow embedding of the reactor core of the TCP server

  The development follows the C++ sources file by file:
  - [SizeT]      : [size_t] arithmetic (64-bit, wrapping);
  - [Buffer]     : include/Buffer.h and src/Buffer.cpp;
  - [Channel]    : include/Channel.h and src/Channel.cpp;
  - [Poller]     : src/Poller.cpp and src/EPollPoller.cpp;
  - [Pool]       : src/EventLoopThreadPool.cpp and the dispatch made by
                   [TcpServer::new_connection];
  - [Conn]       : src/TcpConnection.cpp together with the pending-task
                   queue of src/EventLoop.cpp.
  - [Fifo]       : the byte queue that [Buffer] implements;
  - [Reactor]    : the channels of one loop with its EPollPoller
                   (src/EPollPoller.cpp, [poll] included) and the kernel's
                   epoll interest list;
  - [Server]     : the connection table of src/TcpServer.cpp;
  - [Life]       : observations on the runs of [Conn];
  - [Acceptor]   : src/Acceptor.cpp with [Socket::accept] and
                   [sockets::accept];
  - [Timestamp]  : src/Timestamp.cpp.

  System calls are modelled by their results, which the functions take as
  arguments or read from a script, and by the events they leave in a
  trace. *)

From Stdlib Require Import ZArith Lia.
From Stdlib.Strings Require Import Byte.
From stdpp Require Import base tactics option list gmap.

Local Open Scope Z_scope.

(** ** [size_t] *)

Module SizeT.

Definition modulus : Z := 2 ^ 64.

(** Reduction of a mathematical integer to the value a [size_t] holds. *)
Definition wrap (z : Z) : Z := z mod modulus.

Definition add (a b : Z) : Z := wrap (a + b).
Definition sub (a b : Z) : Z := wrap (a - b).

(** The values a [size_t] variable can hold. *)
Definition in_range (z : Z) : Prop := 0 <= z < modulus.

End SizeT.

(** ** Buffer *)

Module Buffer.

Import SizeT.

Definition kCheapPrepend : Z := 8.
Definition kInitialSize : Z := 1024.

(** [std::vector<char> buffer_] with the two cursors. *)
Record t : Type := mk {
  buffer_ : list byte;
  readerIndex_ : Z;
  writerIndex_ : Z
}.

(** [buffer_.size()] *)
Definition size (b : t) : Z := Z.of_nat (length (buffer_ b)).

(** [std::vector<char> v(n)]: [n] value-initialised chars. *)
Definition vector_make (n : Z) : list byte := replicate (Z.to_nat n) x00.

(** [v.resize(n)]: truncates, or pads with value-initialised chars. *)
Definition vector_resize (n : Z) (v : list byte) : list byte :=
  take (Z.to_nat n) v ++ replicate (Z.to_nat n - length v)%nat x00.

(** [std::copy(src, src + |src|, v.data() + pos)].  The source only calls
    it with the destination range inside the vector; the model leaves the
    vector's length alone in any case. *)
Definition copy_into (pos : Z) (src : list byte) (v : list byte) : list byte :=
  take (length v)
       (take (Z.to_nat pos) v ++ src ++ drop (Z.to_nat pos + length src)%nat v).

(** [Buffer(size_t initialSize = kInitialSize)] *)
Definition make (initialSize : Z) : t :=
  {| buffer_ := vector_make (add kCheapPrepend initialSize);
     readerIndex_ := kCheapPrepend;
     writerIndex_ := kCheapPrepend |}.

Definition readable_bytes (b : t) : Z := sub (writerIndex_ b) (readerIndex_ b).
Definition writable_bytes (b : t) : Z := sub (size b) (writerIndex_ b).
Definition prependable_bytes (b : t) : Z := readerIndex_ b.

(** [peek()] points at the first readable byte: the memory from there on. *)
Definition peek (b : t) : list byte := drop (Z.to_nat (readerIndex_ b)) (buffer_ b).

(** The readable region [peek(), peek() + readable_bytes()). *)
Definition readable (b : t) : list byte :=
  take (Z.to_nat (readable_bytes b)) (peek b).

Definition retrieve_all (b : t) : t :=
  {| buffer_ := buffer_ b;
     readerIndex_ := kCheapPrepend;
     writerIndex_ := kCheapPrepend |}.

Definition retrieve (len : Z) (b : t) : t :=
  if len <? readable_bytes b
  then {| buffer_ := buffer_ b;
          readerIndex_ := add (readerIndex_ b) len;
          writerIndex_ := writerIndex_ b |}
  else retrieve_all b.

Definition retrieve_as_string (len : Z) (b : t) : list byte * t :=
  let len := Z.min len (readable_bytes b) in
  let result := take (Z.to_nat len) (peek b) in
  (result, retrieve len b).

Definition retrieve_all_as_string (b : t) : list byte * t :=
  retrieve_as_string (readable_bytes b) b.

Definition make_space (len : Z) (b : t) : t :=
  if add (writable_bytes b) (prependable_bytes b) <? add len kCheapPrepend
  then {| buffer_ := vector_resize (add (writerIndex_ b) len) (buffer_ b);
          readerIndex_ := readerIndex_ b;
          writerIndex_ := writerIndex_ b |}
  else
    let readable := readable_bytes b in
    let src := take (Z.to_nat (sub (writerIndex_ b) (readerIndex_ b)))
                    (drop (Z.to_nat (readerIndex_ b)) (buffer_ b)) in
    {| buffer_ := copy_into kCheapPrepend src (buffer_ b);
       readerIndex_ := kCheapPrepend;
       writerIndex_ := add kCheapPrepend readable |}.

Definition ensure_writable_bytes (len : Z) (b : t) : t :=
  if writable_bytes b <? len then make_space len b else b.

(** [append(const char *data, size_t len)]: [data] is the [len] bytes the
    pointer designates. *)
Definition append (data : list byte) (b : t) : t :=
  let len := Z.of_nat (length data) in
  let b1 := ensure_writable_bytes len b in
  {| buffer_ := copy_into (writerIndex_ b1) data (buffer_ b1);
     readerIndex_ := readerIndex_ b1;
     writerIndex_ := add (writerIndex_ b1) len |}.

(** Result of [::readv]: an error with its [errno], or the bytes the
    socket had available for this call. *)
Inductive readv_result : Type :=
| ReadvErr (errno : Z)
| ReadvOk (avail : list byte).

Definition extrabuf_size : Z := 65536.

(** The buffer after the kernel has filled the whole writable region and
    [read_fd] has set [writerIndex_ = buffer_.size()]. *)
Definition filled_up (data : list byte) (b : t) : t :=
  let filled := copy_into (writerIndex_ b)
                  (take (Z.to_nat (writable_bytes b)) data) (buffer_ b) in
  {| buffer_ := filled;
     readerIndex_ := readerIndex_ b;
     writerIndex_ := Z.of_nat (length filled) |}.

(** [read_fd(fd, saveErrno)]: returns [n], the errno saved (if any) and
    the buffer.  The kernel fills the writable region first and then
    [extrabuf], and never delivers more than the two can hold. *)
Definition read_fd (r : readv_result) (b : t) : Z * option Z * t :=
  let writable := writable_bytes b in
  let iovcnt := if writable <? extrabuf_size then 2 else 1 in
  let room := if iovcnt =? 2 then writable + extrabuf_size else writable in
  match r with
  | ReadvErr e => (-1, Some e, b)
  | ReadvOk avail =>
      let data := take (Z.to_nat room) avail in
      let n := Z.of_nat (length data) in
      let filled := copy_into (writerIndex_ b) (take (Z.to_nat writable) data) (buffer_ b) in
      if n <=? writable
      then (n, None,
            {| buffer_ := filled;
               readerIndex_ := readerIndex_ b;
               writerIndex_ := add (writerIndex_ b) n |})
      else
        let extrabuf := drop (Z.to_nat writable) data in
        (n, None,
         append extrabuf
                {| buffer_ := filled;
                   readerIndex_ := readerIndex_ b;
                   writerIndex_ := Z.of_nat (length filled) |})
  end.

(** *** Operation sequences *)

Inductive op : Type :=
| OpAppend (data : list byte)
| OpRetrieve (len : N)
| OpRetrieveAll
| OpRetrieveAsString (len : N)
| OpRetrieveAllAsString
| OpEnsureWritable (len : N)
| OpReadFd (r : readv_result).

Definition run_op (o : op) (b : t) : t :=
  match o with
  | OpAppend data => append data b
  | OpRetrieve len => retrieve (Z.of_N len) b
  | OpRetrieveAll => retrieve_all b
  | OpRetrieveAsString len => snd (retrieve_as_string (Z.of_N len) b)
  | OpRetrieveAllAsString => snd (retrieve_all_as_string b)
  | OpEnsureWritable len => ensure_writable_bytes (Z.of_N len) b
  | OpReadFd r => snd (read_fd r b)
  end.

Fixpoint run (ops : list op) (b : t) : t :=
  match ops with
  | [] => b
  | o :: ops => run ops (run_op o b)
  end.

(** The writable amount an operation asks [ensure_writable_bytes] for,
    with the buffer as it is at that call; [None] when the operation
    does not call it. *)
Definition demand (o : op) (b : t) : option (Z * t) :=
  match o with
  | OpAppend data => Some (Z.of_nat (length data), b)
  | OpEnsureWritable len => Some (Z.of_N len, b)
  | OpReadFd (ReadvOk avail) =>
      let writable := writable_bytes b in
      let room := if writable <? extrabuf_size then writable + extrabuf_size else writable in
      let n := Z.of_nat (length (take (Z.to_nat room) avail)) in
      if n <=? writable then None
      else Some (n - writable,
                 {| buffer_ := buffer_ b;
                    readerIndex_ := readerIndex_ b;
                    writerIndex_ := size b |})
  | _ => None
  end.

(** The sum [writerIndex_ + len] that [make_space] and [append] compute for
    the operation is representable in a [size_t]. *)
Definition fits (o : op) (b : t) : Prop :=
  match demand o b with
  | Some (len, b') => writerIndex_ b' + len < modulus
  | None => True
  end.

Fixpoint all_fit (ops : list op) (b : t) : Prop :=
  match ops with
  | [] => True
  | o :: ops => fits o b /\ all_fit ops (run_op o b)
  end.

(** The demand of the operation can be met from the space the buffer
    already has: required <= writable + prependable - kCheapPrepend. *)
Definition within (o : op) (b : t) : Prop :=
  match demand o b with
  | Some (len, b') => len <= writable_bytes b' + prependable_bytes b' - kCheapPrepend
  | None => True
  end.

Fixpoint all_within (ops : list op) (b : t) : Prop :=
  match ops with
  | [] => True
  | o :: ops => within o b /\ all_within ops (run_op o b)
  end.

(** What [ensure_writable_bytes] needs to work on mathematical integers:
    either the request is met by compaction, or the new size is
    representable. *)
Definition feasible (len : Z) (b : t) : Prop :=
  len + kCheapPrepend <= writable_bytes b + prependable_bytes b \/
  writerIndex_ b + len < modulus.

(** [feasible] for the demand of an operation. *)
Definition feasible_op (o : op) (b : t) : Prop :=
  match demand o b with
  | Some (len, b') => feasible len b'
  | None => True
  end.

(** The layout the header's diagram draws, with the prepend area kept. *)
Record wf (b : t) : Prop := {
  wf_prepend : kCheapPrepend <= readerIndex_ b;
  wf_reader : readerIndex_ b <= writerIndex_ b;
  wf_writer : writerIndex_ b <= size b;
  wf_size : size b < modulus
}.

(** The balance of the three regions and the order of the cursors. *)
Definition balanced (b : t) : Prop :=
  readable_bytes b + prependable_bytes b + writable_bytes b = size b /\
  readerIndex_ b <= writerIndex_ b <= size b.

End Buffer.

(** ** Channel *)

Module Channel.

(** Event bits of <sys/epoll.h> (Linux). *)
Definition EPOLLIN : Z := 1.
Definition EPOLLPRI : Z := 2.
Definition EPOLLOUT : Z := 4.
Definition EPOLLERR : Z := 8.
Definition EPOLLHUP : Z := 16.

Definition KNoneEvent : Z := 0.
Definition KReadEvent : Z := Z.lor EPOLLIN EPOLLPRI.
Definition KWriteEvent : Z := EPOLLOUT.

(** A [Channel] object.  A [std::function] member is represented by
    whether it holds a target; [tie_alive] says whether [tie_.lock()]
    yields an owner. *)
Record t : Type := mk {
  fd_ : Z;
  events_ : Z;
  revents_ : Z;
  index_ : Z;
  tied_ : bool;
  tie_alive : bool;
  readCallBack_ : bool;
  writeCallback_ : bool;
  closeCallback_ : bool;
  errorCallback_ : bool
}.

(** [Channel(loop, fd)] *)
Definition make (fd : Z) : t :=
  {| fd_ := fd; events_ := 0; revents_ := 0; index_ := -1;
     tied_ := false; tie_alive := false;
     readCallBack_ := false; writeCallback_ := false;
     closeCallback_ := false; errorCallback_ := false |}.

Definition set_events (e : Z) (c : t) : t :=
  {| fd_ := fd_ c; events_ := e; revents_ := revents_ c; index_ := index_ c;
     tied_ := tied_ c; tie_alive := tie_alive c;
     readCallBack_ := readCallBack_ c; writeCallback_ := writeCallback_ c;
     closeCallback_ := closeCallback_ c; errorCallback_ := errorCallback_ c |}.

Definition set_revents (r : Z) (c : t) : t :=
  {| fd_ := fd_ c; events_ := events_ c; revents_ := r; index_ := index_ c;
     tied_ := tied_ c; tie_alive := tie_alive c;
     readCallBack_ := readCallBack_ c; writeCallback_ := writeCallback_ c;
     closeCallback_ := closeCallback_ c; errorCallback_ := errorCallback_ c |}.

Definition set_index (i : Z) (c : t) : t :=
  {| fd_ := fd_ c; events_ := events_ c; revents_ := revents_ c; index_ := i;
     tied_ := tied_ c; tie_alive := tie_alive c;
     readCallBack_ := readCallBack_ c; writeCallback_ := writeCallback_ c;
     closeCallback_ := closeCallback_ c; errorCallback_ := errorCallback_ c |}.

(** [tie(obj)]: the owner is alive while it ties the channel. *)
Definition tie (c : t) : t :=
  {| fd_ := fd_ c; events_ := events_ c; revents_ := revents_ c; index_ := index_ c;
     tied_ := true; tie_alive := true;
     readCallBack_ := readCallBack_ c; writeCallback_ := writeCallback_ c;
     closeCallback_ := closeCallback_ c; errorCallback_ := errorCallback_ c |}.

(** Conversion of an [int] to [bool]. *)
Definition truthy (z : Z) : bool := negb (z =? 0).

(** The assignments to [events_] that [enable_reading] ... [disable_all]
    make.  In the source each of the five then calls [update()], which
    hands the channel to the poller of its loop: the whole member function
    is this assignment followed by [Poller.update_channel] (which may change
    [index_]), and is composed that way in [Reactor.call] and
    [Conn.channel_update]. *)
Definition enable_reading (c : t) : t := set_events (Z.lor (events_ c) KReadEvent) c.
Definition disable_reading (c : t) : t := set_events (Z.land (events_ c) (Z.lnot KReadEvent)) c.
Definition enable_writing (c : t) : t := set_events (Z.lor (events_ c) KWriteEvent) c.
Definition disable_writing (c : t) : t := set_events (Z.land (events_ c) (Z.lnot KWriteEvent)) c.
Definition disable_all (c : t) : t := set_events KNoneEvent c.

Definition is_none_event (c : t) : bool := events_ c =? KNoneEvent.
Definition is_writing_event (c : t) : bool := truthy (Z.land (events_ c) KWriteEvent).
Definition is_reading_event (c : t) : bool := truthy (Z.land (events_ c) KReadEvent).

(** A callback invocation made by the dispatch. *)
Inductive call : Type :=
| CallClose
| CallError
| CallRead (recvTime : Z)
| CallWrite.

(** [handle_event_with_guard(recvTime)]: the invocations it makes, in
    order.  The callbacks of this repository leave [revents_] and the four
    callback slots of the channel alone, so each test reads the values the
    dispatch started with. *)
Definition handle_event_with_guard (recvTime : Z) (c : t) : list call :=
  (if truthy (Z.land (revents_ c) EPOLLHUP) && negb (truthy (Z.land (revents_ c) EPOLLIN))
   then (if closeCallback_ c then [CallClose] else [])
   else [])
  ++
  (if truthy (Z.land (revents_ c) EPOLLERR)
   then (if errorCallback_ c then [CallError] else [])
   else [])
  ++
  (if truthy (Z.land (revents_ c) (Z.lor EPOLLIN EPOLLPRI))
   then (if readCallBack_ c then [CallRead recvTime] else [])
   else [])
  ++
  (if truthy (Z.land (revents_ c) EPOLLOUT)
   then (if writeCallback_ c then [CallWrite] else [])
   else []).

Definition handle_event (recvTime : Z) (c : t) : list call :=
  if tied_ c
  then (if tie_alive c then handle_event_with_guard recvTime c else [])
  else handle_event_with_guard recvTime c.

(** The condition under which the dispatch is to make a call, in terms of
    the bits of the ready mask. *)
Definition due (c : t) (k : call) : bool :=
  match k with
  | CallClose => Z.testbit (revents_ c) 4 && negb (Z.testbit (revents_ c) 0) && closeCallback_ c
  | CallError => Z.testbit (revents_ c) 3 && errorCallback_ c
  | CallRead _ => (Z.testbit (revents_ c) 0 || Z.testbit (revents_ c) 1) && readCallBack_ c
  | CallWrite => Z.testbit (revents_ c) 2 && writeCallback_ c
  end.

End Channel.

(** ** Poller *)

Module Poller.

(** Addresses of [Channel] objects. *)
Abbreviation ptr := positive (only parsing).

Definition kNew : Z := -1.
Definition kAdded : Z := 1.
Definition kDeleted : Z := 2.

Inductive ctl_op : Type := EPOLL_CTL_ADD | EPOLL_CTL_DEL | EPOLL_CTL_MOD.

(** One [::epoll_ctl(epollfd_, operation, fd, &event)] call, with
    [event.events] and [event.data.ptr]. *)
Record ctl : Type := mk_ctl {
  ctl_operation : ctl_op;
  ctl_fd : Z;
  ctl_events : Z;
  ctl_data : ptr
}.

(** [channels_] and the calls made to the kernel so far. *)
Record t : Type := mk {
  channels_ : gmap Z ptr;
  calls : list ctl
}.

Definition make : t := {| channels_ := ∅; calls := [] |}.

(** [EPollPoller::update(operation, channel)]; a failing [epoll_ctl] is
    logged and nothing else. *)
Definition update (operation : ctl_op) (a : ptr) (c : Channel.t) (p : t) : t :=
  {| channels_ := channels_ p;
     calls := calls p ++ [mk_ctl operation (Channel.fd_ c) (Channel.events_ c) a] |}.

Definition set_channels (m : gmap Z ptr) (p : t) : t :=
  {| channels_ := m; calls := calls p |}.

(** [update_channel(channel)], with [channel] the object [c] at address
    [a]; returns the object as the poller leaves it. *)
Definition update_channel (a : ptr) (c : Channel.t) (p : t) : Channel.t * t :=
  let index := Channel.index_ c in
  if (index =? kNew) || (index =? kDeleted)
  then
    let p1 := if index =? kNew
              then set_channels (<[Channel.fd_ c := a]> (channels_ p)) p
              else p in
    let c1 := Channel.set_index kAdded c in
    (c1, update EPOLL_CTL_ADD a c1 p1)
  else
    if Channel.is_none_event c
    then (Channel.set_index kDeleted c, update EPOLL_CTL_DEL a c p)
    else (c, update EPOLL_CTL_MOD a c p).

(** [remove_channel(channel)] *)
Definition remove_channel (a : ptr) (c : Channel.t) (p : t) : Channel.t * t :=
  let fd := Channel.fd_ c in
  match channels_ p !! fd with
  | Some _ =>
      let p1 := set_channels (delete fd (channels_ p)) p in
      let p2 := if Channel.index_ c =? kAdded then update EPOLL_CTL_DEL a c p1 else p1 in
      (Channel.set_index kNew c, p2)
  | None => (c, p)
  end.

(** [Poller::has_channel(channel)] *)
Definition has_channel (a : ptr) (c : Channel.t) (p : t) : bool :=
  match channels_ p !! Channel.fd_ c with
  | Some a' => bool_decide (a' = a)
  | None => false
  end.

(** The tag of a channel agrees with the map: a channel that is not [kNew]
    is the one the map holds for its descriptor. *)
Definition registered (a : ptr) (c : Channel.t) (p : t) : Prop :=
  Channel.index_ c <> kNew -> channels_ p !! Channel.fd_ c = Some a.

(** What a channel and a poller go through when the channel is the only
    one that uses its descriptor: the channel starts new, its masks change,
    it is updated and removed, and the poller serves channels on other
    descriptors in between. *)
Inductive served (a : ptr) : Channel.t -> t -> Prop :=
| served_new fd p : served a (Channel.make fd) p
| served_events e c p : served a c p -> served a (Channel.set_events e c) p
| served_revents r c p : served a c p -> served a (Channel.set_revents r c) p
| served_update c p :
    served a c p -> served a (update_channel a c p).1 (update_channel a c p).2
| served_remove c p :
    served a c p -> served a (remove_channel a c p).1 (remove_channel a c p).2
| served_other_update a' c' c p :
    Channel.fd_ c' <> Channel.fd_ c ->
    served a c p -> served a c (update_channel a' c' p).2
| served_other_remove a' c' c p :
    Channel.fd_ c' <> Channel.fd_ c ->
    served a c p -> served a c (remove_channel a' c' p).2.

End Poller.

(** ** EventLoopThreadPool and the accept path of TcpServer *)

Module Pool.

(** Addresses of [EventLoop] objects. *)
Abbreviation loop := positive (only parsing).

Record t : Type := mk {
  baseLoop_ : loop;
  loops_ : list loop;
  next_ : Z
}.

(** The pool once [start] has collected the loops of its worker threads. *)
Definition started (base : loop) (workers : list loop) : t :=
  {| baseLoop_ := base; loops_ := workers; next_ := 0 |}.

(** [get_next_loop()].  [next_] is an [int] that stays below
    [loops_.size()], so [loops_[next_]] is in range and [++next_] does not
    overflow. *)
Definition get_next_loop (p : t) : loop * t :=
  match loops_ p with
  | [] => (baseLoop_ p, p)
  | _ :: _ =>
      let l := nth (Z.to_nat (next_ p)) (loops_ p) (baseLoop_ p) in
      let next := next_ p + 1 in
      let next := if next >=? Z.of_nat (length (loops_ p)) then 0 else next in
      (l, {| baseLoop_ := baseLoop_ p; loops_ := loops_ p; next_ := next |})
  end.

(** The part of [TcpServer] that [new_connection] touches: the pool, the
    connection counter and the table, which maps the name made from the
    counter to the connection, here the loop the connection was given. *)
Record server : Type := mk_server {
  threadPool_ : t;
  nextConnId_ : Z;
  connections_ : list (Z * loop)
}.

(** [TcpServer::new_connection(connfd, peerAddr)] *)
Definition new_connection (s : server) : server :=
  let '(ioLoop, pool) := get_next_loop (threadPool_ s) in
  let id := nextConnId_ s + 1 in
  {| threadPool_ := pool;
     nextConnId_ := id;
     connections_ := (id, ioLoop) :: connections_ s |}.

Fixpoint accepts (m : nat) (s : server) : server :=
  match m with
  | O => s
  | S m => accepts m (new_connection s)
  end.

(** How many connections of the table run on loop [l]. *)
Definition owned (l : loop) (s : server) : Z :=
  Z.of_nat (length (filter (fun c => c.2 = l) (connections_ s))).

End Pool.

(** ** TcpConnection on its EventLoop *)

Module Conn.

(** Addresses of the [std::string] objects callers pass to [send]. *)
Abbreviation ptr := positive (only parsing).

Inductive StateE : Type :=
| kDisconnected
| kConnecting
| kConnected
| kDisconnecting.

(** [errno] values of <errno.h> (Linux). *)
Definition EWOULDBLOCK : Z := 11.
Definition EPIPE : Z := 32.
Definition ECONNRESET : Z := 104.

(** What the kernel does with the next [::write] on the socket: take up to
    [room] bytes, or fail with an [errno]. *)
Inductive write_result : Type :=
| WriteOk (room : Z)
| WriteErr (errno : Z).

(** The closures [std::bind] makes for the loop's task queue, with the
    arguments they capture. *)
Inductive Functor : Type :=
| FSendInLoop (data : ptr) (len : Z)
| FShutDownInLoop
| FWriteCompleteCallback
| FHighWaterMarkCallback (len : Z).

(** User callbacks. *)
Inductive callback : Type :=
| CbConnection
| CbMessage (recvTime : Z)
| CbWriteComplete
| CbHighWaterMark (len : Z)
| CbClose.

(** What a run leaves to be observed, in order. *)
Inductive event : Type :=
| EvWrite (data : list byte) (n : Z)  (* ::write offered [data], returned [n] *)
| EvShutdownWrite                     (* socket_->shutdown_write() *)
| EvUpdateChannel (events : Z)        (* Channel::update() with the interest mask *)
| EvRemoveChannel                     (* Channel::remove() *)
| EvQueueInLoop (f : Functor)         (* pendingFuntors_.emplace_back(f) *)
| EvWakeup                            (* EventLoop::wakeup() *)
| EvCall (cb : callback)              (* a user callback runs *)
| EvLogError
| EvBadFunctionCall                   (* an empty std::function was called *)
| EvInvalidRead (data : ptr).         (* a pointer was read that designates no live bytes *)

(** The connection, the task queue of its loop, and the environment: the
    strings callers own, and the results the kernel will give to the
    coming [::write] calls. *)
Record t : Type := mk {
  state_ : StateE;
  connChannel_ : Channel.t;
  inputBuffer_ : Buffer.t;
  outputBuffer_ : Buffer.t;
  highWaterMark_ : Z;
  connectionCallback_ : bool;
  messageCallback_ : bool;
  writeCompleteCallback_ : bool;
  highWaterMarkCallback_ : bool;
  closeCallback_ : bool;
  pendingFunctors_ : list Functor;
  callingPendingFunctors_ : bool;
  heap : gmap ptr (list byte);
  kernel : list write_result;
  trace : list event
}.

Definition set_state (s : StateE) (w : t) : t :=
  {| state_ := s;
     connChannel_ := connChannel_ w;
     inputBuffer_ := inputBuffer_ w;
     outputBuffer_ := outputBuffer_ w;
     highWaterMark_ := highWaterMark_ w;
     connectionCallback_ := connectionCallback_ w;
     messageCallback_ := messageCallback_ w;
     writeCompleteCallback_ := writeCompleteCallback_ w;
     highWaterMarkCallback_ := highWaterMarkCallback_ w;
     closeCallback_ := closeCallback_ w;
     pendingFunctors_ := pendingFunctors_ w;
     callingPendingFunctors_ := callingPendingFunctors_ w;
     heap := heap w;
     kernel := kernel w;
     trace := trace w |}.

Definition set_channel (c : Channel.t) (w : t) : t :=
  {| state_ := state_ w;
     connChannel_ := c;
     inputBuffer_ := inputBuffer_ w;
     outputBuffer_ := outputBuffer_ w;
     highWaterMark_ := highWaterMark_ w;
     connectionCallback_ := connectionCallback_ w;
     messageCallback_ := messageCallback_ w;
     writeCompleteCallback_ := writeCompleteCallback_ w;
     highWaterMarkCallback_ := highWaterMarkCallback_ w;
     closeCallback_ := closeCallback_ w;
     pendingFunctors_ := pendingFunctors_ w;
     callingPendingFunctors_ := callingPendingFunctors_ w;
     heap := heap w;
     kernel := kernel w;
     trace := trace w |}.

Definition set_input (b : Buffer.t) (w : t) : t :=
  {| state_ := state_ w;
     connChannel_ := connChannel_ w;
     inputBuffer_ := b;
     outputBuffer_ := outputBuffer_ w;
     highWaterMark_ := highWaterMark_ w;
     connectionCallback_ := connectionCallback_ w;
     messageCallback_ := messageCallback_ w;
     writeCompleteCallback_ := writeCompleteCallback_ w;
     highWaterMarkCallback_ := highWaterMarkCallback_ w;
     closeCallback_ := closeCallback_ w;
     pendingFunctors_ := pendingFunctors_ w;
     callingPendingFunctors_ := callingPendingFunctors_ w;
     heap := heap w;
     kernel := kernel w;
     trace := trace w |}.

Definition set_output (b : Buffer.t) (w : t) : t :=
  {| state_ := state_ w;
     connChannel_ := connChannel_ w;
     inputBuffer_ := inputBuffer_ w;
     outputBuffer_ := b;
     highWaterMark_ := highWaterMark_ w;
     connectionCallback_ := connectionCallback_ w;
     messageCallback_ := messageCallback_ w;
     writeCompleteCallback_ := writeCompleteCallback_ w;
     highWaterMarkCallback_ := highWaterMarkCallback_ w;
     closeCallback_ := closeCallback_ w;
     pendingFunctors_ := pendingFunctors_ w;
     callingPendingFunctors_ := callingPendingFunctors_ w;
     heap := heap w;
     kernel := kernel w;
     trace := trace w |}.

Definition set_connection_callback (cb : bool) (w : t) : t :=
  {| state_ := state_ w;
     connChannel_ := connChannel_ w;
     inputBuffer_ := inputBuffer_ w;
     outputBuffer_ := outputBuffer_ w;
     highWaterMark_ := highWaterMark_ w;
     connectionCallback_ := cb;
     messageCallback_ := messageCallback_ w;
     writeCompleteCallback_ := writeCompleteCallback_ w;
     highWaterMarkCallback_ := highWaterMarkCallback_ w;
     closeCallback_ := closeCallback_ w;
     pendingFunctors_ := pendingFunctors_ w;
     callingPendingFunctors_ := callingPendingFunctors_ w;
     heap := heap w;
     kernel := kernel w;
     trace := trace w |}.

Definition set_message_callback (cb : bool) (w : t) : t :=
  {| state_ := state_ w;
     connChannel_ := connChannel_ w;
     inputBuffer_ := inputBuffer_ w;
     outputBuffer_ := outputBuffer_ w;
     highWaterMark_ := highWaterMark_ w;
     connectionCallback_ := connectionCallback_ w;
     messageCallback_ := cb;
     writeCompleteCallback_ := writeCompleteCallback_ w;
     highWaterMarkCallback_ := highWaterMarkCallback_ w;
     closeCallback_ := closeCallback_ w;
     pendingFunctors_ := pendingFunctors_ w;
     callingPendingFunctors_ := callingPendingFunctors_ w;
     heap := heap w;
     kernel := kernel w;
     trace := trace w |}.

Definition set_write_complete_callback (cb : bool) (w : t) : t :=
  {| state_ := state_ w;
     connChannel_ := connChannel_ w;
     inputBuffer_ := inputBuffer_ w;
     outputBuffer_ := outputBuffer_ w;
     highWaterMark_ := highWaterMark_ w;
     connectionCallback_ := connectionCallback_ w;
     messageCallback_ := messageCallback_ w;
     writeCompleteCallback_ := cb;
     highWaterMarkCallback_ := highWaterMarkCallback_ w;
     closeCallback_ := closeCallback_ w;
     pendingFunctors_ := pendingFunctors_ w;
     callingPendingFunctors_ := callingPendingFunctors_ w;
     heap := heap w;
     kernel := kernel w;
     trace := trace w |}.

Definition set_high_water_mark_callback (cb : bool) (w : t) : t :=
  {| state_ := state_ w;
     connChannel_ := connChannel_ w;
     inputBuffer_ := inputBuffer_ w;
     outputBuffer_ := outputBuffer_ w;
     highWaterMark_ := highWaterMark_ w;
     connectionCallback_ := connectionCallback_ w;
     messageCallback_ := messageCallback_ w;
     writeCompleteCallback_ := writeCompleteCallback_ w;
     highWaterMarkCallback_ := cb;
     closeCallback_ := closeCallback_ w;
     pendingFunctors_ := pendingFunctors_ w;
     callingPendingFunctors_ := callingPendingFunctors_ w;
     heap := heap w;
     kernel := kernel w;
     trace := trace w |}.

Definition set_close_callback (cb : bool) (w : t) : t :=
  {| state_ := state_ w;
     connChannel_ := connChannel_ w;
     inputBuffer_ := inputBuffer_ w;
     outputBuffer_ := outputBuffer_ w;
     highWaterMark_ := highWaterMark_ w;
     connectionCallback_ := connectionCallback_ w;
     messageCallback_ := messageCallback_ w;
     writeCompleteCallback_ := writeCompleteCallback_ w;
     highWaterMarkCallback_ := highWaterMarkCallback_ w;
     closeCallback_ := cb;
     pendingFunctors_ := pendingFunctors_ w;
     callingPendingFunctors_ := callingPendingFunctors_ w;
     heap := heap w;
     kernel := kernel w;
     trace := trace w |}.

Definition set_pending (fs : list Functor) (w : t) : t :=
  {| state_ := state_ w;
     connChannel_ := connChannel_ w;
     inputBuffer_ := inputBuffer_ w;
     outputBuffer_ := outputBuffer_ w;
     highWaterMark_ := highWaterMark_ w;
     connectionCallback_ := connectionCallback_ w;
     messageCallback_ := messageCallback_ w;
     writeCompleteCallback_ := writeCompleteCallback_ w;
     highWaterMarkCallback_ := highWaterMarkCallback_ w;
     closeCallback_ := closeCallback_ w;
     pendingFunctors_ := fs;
     callingPendingFunctors_ := callingPendingFunctors_ w;
     heap := heap w;
     kernel := kernel w;
     trace := trace w |}.

Definition set_calling (f : bool) (w : t) : t :=
  {| state_ := state_ w;
     connChannel_ := connChannel_ w;
     inputBuffer_ := inputBuffer_ w;
     outputBuffer_ := outputBuffer_ w;
     highWaterMark_ := highWaterMark_ w;
     connectionCallback_ := connectionCallback_ w;
     messageCallback_ := messageCallback_ w;
     writeCompleteCallback_ := writeCompleteCallback_ w;
     highWaterMarkCallback_ := highWaterMarkCallback_ w;
     closeCallback_ := closeCallback_ w;
     pendingFunctors_ := pendingFunctors_ w;
     callingPendingFunctors_ := f;
     heap := heap w;
     kernel := kernel w;
     trace := trace w |}.

Definition set_heap (h : gmap ptr (list byte)) (w : t) : t :=
  {| state_ := state_ w;
     connChannel_ := connChannel_ w;
     inputBuffer_ := inputBuffer_ w;
     outputBuffer_ := outputBuffer_ w;
     highWaterMark_ := highWaterMark_ w;
     connectionCallback_ := connectionCallback_ w;
     messageCallback_ := messageCallback_ w;
     writeCompleteCallback_ := writeCompleteCallback_ w;
     highWaterMarkCallback_ := highWaterMarkCallback_ w;
     closeCallback_ := closeCallback_ w;
     pendingFunctors_ := pendingFunctors_ w;
     callingPendingFunctors_ := callingPendingFunctors_ w;
     heap := h;
     kernel := kernel w;
     trace := trace w |}.

Definition set_kernel (k : list write_result) (w : t) : t :=
  {| state_ := state_ w;
     connChannel_ := connChannel_ w;
     inputBuffer_ := inputBuffer_ w;
     outputBuffer_ := outputBuffer_ w;
     highWaterMark_ := highWaterMark_ w;
     connectionCallback_ := connectionCallback_ w;
     messageCallback_ := messageCallback_ w;
     writeCompleteCallback_ := writeCompleteCallback_ w;
     highWaterMarkCallback_ := highWaterMarkCallback_ w;
     closeCallback_ := closeCallback_ w;
     pendingFunctors_ := pendingFunctors_ w;
     callingPendingFunctors_ := callingPendingFunctors_ w;
     heap := heap w;
     kernel := k;
     trace := trace w |}.

Definition emit (e : event) (w : t) : t :=
  {| state_ := state_ w;
     connChannel_ := connChannel_ w;
     inputBuffer_ := inputBuffer_ w;
     outputBuffer_ := outputBuffer_ w;
     highWaterMark_ := highWaterMark_ w;
     connectionCallback_ := connectionCallback_ w;
     messageCallback_ := messageCallback_ w;
     writeCompleteCallback_ := writeCompleteCallback_ w;
     highWaterMarkCallback_ := highWaterMarkCallback_ w;
     closeCallback_ := closeCallback_ w;
     pendingFunctors_ := pendingFunctors_ w;
     callingPendingFunctors_ := callingPendingFunctors_ w;
     heap := heap w;
     kernel := kernel w;
     trace := trace w ++ [e] |}.

(** [TcpConnection(loop, name, sockfd, localAddr, peerAddr)]: the four
    channel callbacks are bound to the handlers below. *)
Definition make (sockfd : Z) (h : gmap ptr (list byte)) (k : list write_result) : t :=
  {| state_ := kConnecting;
     connChannel_ :=
       {| Channel.fd_ := sockfd; Channel.events_ := 0; Channel.revents_ := 0;
          Channel.index_ := -1; Channel.tied_ := false; Channel.tie_alive := false;
          Channel.readCallBack_ := true; Channel.writeCallback_ := true;
          Channel.closeCallback_ := true; Channel.errorCallback_ := true |};
     inputBuffer_ := Buffer.make Buffer.kInitialSize;
     outputBuffer_ := Buffer.make Buffer.kInitialSize;
     highWaterMark_ := 64 * 1024 * 1024;
     connectionCallback_ := false;
     messageCallback_ := false;
     writeCompleteCallback_ := false;
     highWaterMarkCallback_ := false;
     closeCallback_ := false;
     pendingFunctors_ := [];
     callingPendingFunctors_ := false;
     heap := h;
     kernel := k;
     trace := [] |}.

Definition is_writing (w : t) : bool := Channel.is_writing_event (connChannel_ w).

(** A mask change on [connChannel_] followed by its [update()]. *)
Definition channel_update (c : Channel.t) (w : t) : t :=
  emit (EvUpdateChannel (Channel.events_ c)) (set_channel c w).

(** Calling a [std::function]: an empty one throws. *)
Definition invoke (installed : bool) (cb : callback) (w : t) : t :=
  if installed then emit (EvCall cb) w else emit EvBadFunctionCall w.

(** *** EventLoop: the task queue *)

Definition wakeup (w : t) : t := emit EvWakeup w.

(** [queue_in_loop(cb)], called from the loop's thread or not. *)
Definition queue_in_loop (in_loop_thread : bool) (f : Functor) (w : t) : t :=
  let w1 := emit (EvQueueInLoop f) (set_pending (pendingFunctors_ w ++ [f]) w) in
  if negb in_loop_thread || callingPendingFunctors_ w1 then wakeup w1 else w1.

(** *** System calls *)

(** [::write(fd, data, len)]: the result, [errno], and the world after. *)
Definition sys_write (data : list byte) (w : t) : Z * Z * t :=
  let len := Z.of_nat (length data) in
  match kernel w with
  | WriteOk room :: k =>
      let n := Z.max 0 (Z.min room len) in
      (n, 0, emit (EvWrite data n) (set_kernel k w))
  | WriteErr e :: k => (-1, e, emit (EvWrite data (-1)) (set_kernel k w))
  | [] => (-1, EWOULDBLOCK, emit (EvWrite data (-1)) w)
  end.

(** The [len] bytes at [data], when [data] points to a live string that
    long. *)
Definition load (data : ptr) (len : Z) (w : t) : option (list byte) :=
  match heap w !! data with
  | Some s => if len <=? Z.of_nat (length s) then Some (take (Z.to_nat len) s) else None
  | None => None
  end.

(** *** The send path *)

(** Lines 117-140 of [send_in_loop]: the direct write.  Returns [nwrote],
    [remaining], [faultError] and the world. *)
Definition direct_write (bytes : list byte) (len : Z) (w : t) : Z * Z * bool * t :=
  if negb (is_writing w) && (Buffer.readable_bytes (outputBuffer_ w) =? 0)
  then
    let '(n, errno, w1) := sys_write bytes w in
    if 0 <=? n
    then
      let remaining := SizeT.sub len n in
      let w2 := if (remaining =? 0) && writeCompleteCallback_ w1
                then queue_in_loop true FWriteCompleteCallback w1
                else w1 in
      (n, remaining, false, w2)
    else
      if negb (errno =? EWOULDBLOCK)
      then (0, len, (errno =? EPIPE) || (errno =? ECONNRESET), emit EvLogError w1)
      else (0, len, false, w1)
  else (0, len, false, w).

(** The test of lines 146-148. *)
Definition crosses_high_water_mark (oldLen remaining : Z) (w : t) : bool :=
  (SizeT.add oldLen remaining >=? highWaterMark_ w) &&
  (oldLen <? highWaterMark_ w) &&
  highWaterMarkCallback_ w.

(** Lines 145-157 of [send_in_loop]: buffering of the remainder. *)
Definition buffer_remainder (bytes : list byte) (nwrote remaining : Z) (w : t) : t :=
  let oldLen := Buffer.readable_bytes (outputBuffer_ w) in
  let w1 := if crosses_high_water_mark oldLen remaining w
            then queue_in_loop true (FHighWaterMarkCallback (SizeT.add oldLen remaining)) w
            else w in
  let rest := take (Z.to_nat remaining) (drop (Z.to_nat nwrote) bytes) in
  let w2 := set_output (Buffer.append rest (outputBuffer_ w1)) w1 in
  if negb (is_writing w2)
  then channel_update (Channel.enable_writing (connChannel_ w2)) w2
  else w2.

(** [send_in_loop(data, len)] *)
Definition send_in_loop (data : ptr) (len : Z) (w : t) : t :=
  match state_ w with
  | kDisconnected => emit EvLogError w
  | _ =>
      match load data len w with
      | None => emit (EvInvalidRead data) w
      | Some bytes =>
          let '(nwrote, remaining, faultError, w1) := direct_write bytes len w in
          if negb faultError && (0 <? remaining)
          then buffer_remainder bytes nwrote remaining w1
          else w1
      end
  end.

(** [shut_down_in_loop()] *)
Definition shut_down_in_loop (w : t) : t :=
  if negb (is_writing w) then emit EvShutdownWrite w else w.

(** Running a queued closure. *)
Definition run_functor (f : Functor) (w : t) : t :=
  match f with
  | FSendInLoop data len => send_in_loop data len w
  | FShutDownInLoop => shut_down_in_loop w
  | FWriteCompleteCallback => emit (EvCall CbWriteComplete) w
  | FHighWaterMarkCallback len => emit (EvCall (CbHighWaterMark len)) w
  end.

(** [run_in_loop(cb)] *)
Definition run_in_loop (in_loop_thread : bool) (f : Functor) (w : t) : t :=
  if in_loop_thread then run_functor f w else queue_in_loop in_loop_thread f w.

(** [do_pending_functors()] *)
Definition do_pending_functors (w : t) : t :=
  let functors := pendingFunctors_ w in
  let w1 := set_pending [] (set_calling true w) in
  let w2 := foldl (fun w f => run_functor f w) w1 functors in
  set_calling false w2.

(** [send(const std::string &buf)], with [buf] the caller's string at
    that address. *)
Definition send (in_loop_thread : bool) (buf : ptr) (w : t) : t :=
  match state_ w with
  | kConnected =>
      match heap w !! buf with
      | Some s =>
          let size := Z.of_nat (length s) in
          if in_loop_thread
          then send_in_loop buf size w
          else run_in_loop in_loop_thread (FSendInLoop buf size) w
      | None => emit (EvInvalidRead buf) w
      end
  | _ => w
  end.

(** [send(void *message, size_t len)]: the temporary [std::string] lives
    until [send] returns. *)
Definition send_message (in_loop_thread : bool) (message : list byte) (w : t) : t :=
  let tmp : ptr := fresh (dom (heap w)) in
  let w1 := set_heap (<[tmp := message]> (heap w)) w in
  let w2 := send in_loop_thread tmp w1 in
  set_heap (delete tmp (heap w2)) w2.

(** [shut_down()] *)
Definition shut_down (in_loop_thread : bool) (w : t) : t :=
  match state_ w with
  | kConnected => run_in_loop in_loop_thread FShutDownInLoop (set_state kDisconnecting w)
  | _ => w
  end.

(** *** Lifecycle and handlers *)

Definition connect_Established (w : t) : t :=
  let w1 := set_state kConnected w in
  let w2 := set_channel (Channel.tie (connChannel_ w1)) w1 in
  let w3 := channel_update (Channel.enable_reading (connChannel_ w2)) w2 in
  if connectionCallback_ w3 then emit (EvCall CbConnection) w3 else w3.

Definition connect_destroyed (w : t) : t :=
  let w1 :=
    match state_ w with
    | kConnected =>
        let w1 := set_state kDisconnected w in
        let w2 := channel_update (Channel.disable_all (connChannel_ w1)) w1 in
        if connectionCallback_ w2 then emit (EvCall CbConnection) w2 else w2
    | _ => w
    end in
  emit EvRemoveChannel w1.

Definition handle_close (w : t) : t :=
  let w1 := set_state kDisconnected w in
  let w2 := channel_update (Channel.disable_all (connChannel_ w1)) w1 in
  if connectionCallback_ w2
  then invoke (closeCallback_ w2) CbClose (emit (EvCall CbConnection) w2)
  else emit EvBadFunctionCall w2.

Definition handle_error (w : t) : t := emit EvLogError w.

Definition handle_read (recvTime : Z) (r : Buffer.readv_result) (w : t) : t :=
  let '(n, _, b) := Buffer.read_fd r (inputBuffer_ w) in
  let w1 := set_input b w in
  if 0 <? n then invoke (messageCallback_ w1) (CbMessage recvTime) w1
  else if n =? 0 then handle_close w1
  else handle_error (emit EvLogError w1).

Definition handle_write (w : t) : t :=
  if is_writing w
  then
    let '(n, _, w1) := sys_write (Buffer.readable (outputBuffer_ w)) w in
    if 0 <? n
    then
      let w2 := set_output (Buffer.retrieve n (outputBuffer_ w1)) w1 in
      if Buffer.readable_bytes (outputBuffer_ w2) =? 0
      then
        let w3 := channel_update (Channel.disable_writing (connChannel_ w2)) w2 in
        let w4 := if writeCompleteCallback_ w3
                  then queue_in_loop true FWriteCompleteCallback w3
                  else w3 in
        match state_ w4 with
        | kDisconnecting => shut_down_in_loop w4
        | _ => w4
        end
      else w2
    else emit EvLogError w1
  else emit EvLogError w.

(** The handler a channel callback is bound to. *)
Definition dispatch (r : Buffer.readv_result) (w : t) (k : Channel.call) : t :=
  match k with
  | Channel.CallClose => handle_close w
  | Channel.CallError => handle_error w
  | Channel.CallRead recvTime => handle_read recvTime r w
  | Channel.CallWrite => handle_write w
  end.

(** One turn of [EventLoop::loop] in which the poller reports [revents]
    for the connection's channel at time [now]. *)
Definition loop_turn (revents now : Z) (r : Buffer.readv_result) (w : t) : t :=
  let c := Channel.set_revents revents (connChannel_ w) in
  let w1 := set_channel c w in
  let w2 := foldl (dispatch r) w1 (Channel.handle_event now c) in
  do_pending_functors w2.

(** *** Runs *)

(** What can happen to a connection, one call at a time: the calls of the
    connection's users and server, the handlers the loop runs, and the
    caller threads changing the strings they own. *)
Inductive step : t -> t -> Prop :=
| step_established w :
    state_ w = kConnecting -> step w (connect_Established w)
| step_send w in_loop_thread buf : step w (send in_loop_thread buf w)
| step_send_message w in_loop_thread message : step w (send_message in_loop_thread message w)
| step_shut_down w in_loop_thread : step w (shut_down in_loop_thread w)
| step_handle_read w recvTime r : step w (handle_read recvTime r w)
| step_handle_write w : step w (handle_write w)
| step_handle_close w : step w (handle_close w)
| step_handle_error w : step w (handle_error w)
| step_pending w : step w (do_pending_functors w)
| step_destroyed w : step w (connect_destroyed w)
| step_caller w h : step w (set_heap h w)
| step_connection_callback w cb : step w (set_connection_callback cb w)
| step_message_callback w cb : step w (set_message_callback cb w)
| step_write_complete_callback w cb : step w (set_write_complete_callback cb w)
| step_high_water_mark_callback w cb : step w (set_high_water_mark_callback cb w)
| step_close_callback w cb : step w (set_close_callback cb w).

(** A connection as the server makes it, before [connect_Established]. *)
Definition fresh_connection (w : t) : Prop :=
  exists sockfd h k conn_cb msg_cb wc_cb close_cb,
    w = set_close_callback close_cb
          (set_write_complete_callback wc_cb
             (set_message_callback msg_cb
                (set_connection_callback conn_cb (make sockfd h k)))).

Inductive reachable : t -> Prop :=
| reachable_fresh w : fresh_connection w -> reachable w
| reachable_step w w' : reachable w -> step w w' -> reachable w'.

(** The events of [w'] that [w] does not have yet. *)
Definition since (w w' : t) : list event := drop (length (trace w)) (trace w').

(** The fields that decide whether the write side is armed. *)
Definition core (w : t) : StateE * Buffer.t * Channel.t :=
  (state_ w, outputBuffer_ w, connChannel_ w).

(** Pending output keeps the channel interested in writability, as long
    as the connection has not been closed. *)
Definition armed (w : t) : Prop :=
  state_ w <> kDisconnected ->
  Buffer.readable_bytes (outputBuffer_ w) <> 0 ->
  is_writing w = true.

(** In the trace, every [later] has an [earlier] before it. *)
Definition precedes (earlier later : event) (tr : list event) : Prop :=
  forall pre post, tr = pre ++ later :: post -> earlier ∈ pre.

(** The trace only grows. *)
Definition extends (w w' : t) : Prop := exists evs, trace w' = trace w ++ evs.

(** No high-water-mark callback is queued among these events. *)
Definition no_high_water_mark (evs : list event) : Prop :=
  forall k, EvQueueInLoop (FHighWaterMarkCallback k) ∉ evs.

(** *** Example runs *)

Definition hello : list byte := [x68; x65; x6c; x6c; x6f].
Definition jello : list byte := [x6a; x65; x6c; x6c; x6f].

(** A connection as [TcpServer::new_connection] wires it; the caller's
    string "hello" lives at address 1, and the socket will take two bytes,
    then three. *)
Definition demo_fresh : t :=
  set_close_callback true
    (set_write_complete_callback true
       (set_message_callback true
          (set_connection_callback true
             (make 7 {[1%positive := hello]} [WriteOk 2; WriteOk 3])))).

Definition demo_connected : t := connect_Established demo_fresh.

(** [send("hello")] on the loop thread: two bytes go out, three wait. *)
Definition demo_backlog : t := send true 1%positive demo_connected.

(** [shut_down()] on the loop thread, as the echo server of main.cpp does
    right after [send]. *)
Definition demo_half_closed : t := shut_down true demo_backlog.

(** The loop turn in which the socket is reported writable. *)
Definition demo_drained : t :=
  loop_turn Channel.EPOLLOUT 1000 (Buffer.ReadvErr EWOULDBLOCK) demo_half_closed.

(** [send(buf)] from another thread, the caller then writing "jello" over
    its string, and the loop turn that runs the posted task. *)
Definition demo_posted : t := send false 1%positive demo_connected.
Definition demo_overwritten : t := set_heap {[1%positive := jello]} demo_posted.
Definition demo_late_write : t := do_pending_functors demo_overwritten.

(** [send(message, len)] from another thread, and the loop turn that runs
    the posted task. *)
Definition demo_posted_message : t := send_message false hello demo_connected.
Definition demo_late_read : t := do_pending_functors demo_posted_message.

(** [shut_down()] from another thread while three bytes are pending, and
    the loop turn in which the peer is found to have closed: the handler
    closes the connection, then the posted [shut_down_in_loop] runs. *)
Definition demo_posted_shut_down : t := shut_down false demo_backlog.
Definition demo_closed_turn : t :=
  loop_turn Channel.EPOLLIN 1000 (Buffer.ReadvOk []) demo_posted_shut_down.

(** [demo_connected] with a high-water-mark callback and, to see it at
    work on five bytes, the mark at three bytes (the source has no setter
    for the mark). *)
Definition demo_low_mark : t :=
  let w := set_high_water_mark_callback true demo_connected in
  {| state_ := state_ w;
     connChannel_ := connChannel_ w;
     inputBuffer_ := inputBuffer_ w;
     outputBuffer_ := outputBuffer_ w;
     highWaterMark_ := 3;
     connectionCallback_ := connectionCallback_ w;
     messageCallback_ := messageCallback_ w;
     writeCompleteCallback_ := writeCompleteCallback_ w;
     highWaterMarkCallback_ := highWaterMarkCallback_ w;
     closeCallback_ := closeCallback_ w;
     pendingFunctors_ := pendingFunctors_ w;
     callingPendingFunctors_ := callingPendingFunctors_ w;
     heap := heap w;
     kernel := kernel w;
     trace := trace w |}.

End Conn.

(** ** The byte queue a [Buffer] implements *)

Module Fifo.

(** What an operation of [Buffer] does to the sequence of readable bytes,
    seen as a queue: appends and reads push at the back, retrievals pop
    at the front. *)
Definition step (o : Buffer.op) (q : list byte) : list byte :=
  match o with
  | Buffer.OpAppend data => q ++ data
  | Buffer.OpRetrieve len => drop (N.to_nat len) q
  | Buffer.OpRetrieveAll => []
  | Buffer.OpRetrieveAsString len => drop (N.to_nat len) q
  | Buffer.OpRetrieveAllAsString => []
  | Buffer.OpEnsureWritable _ => q
  | Buffer.OpReadFd (Buffer.ReadvErr _) => q
  | Buffer.OpReadFd (Buffer.ReadvOk avail) => q ++ avail
  end.

Definition run (ops : list Buffer.op) (q : list byte) : list byte :=
  foldl (fun q o => step o q) q ops.

(** The socket never has more than [extrabuf] can take in one read. *)
Definition short_read (o : Buffer.op) : Prop :=
  match o with
  | Buffer.OpReadFd (Buffer.ReadvOk avail) =>
      Z.of_nat (length avail) <= Buffer.extrabuf_size
  | _ => True
  end.

(** The bytes one [read_fd] can take: the writable region, and [extrabuf]
    when that region is smaller than it (the two [iovec]s handed to
    [::readv]). *)
Definition read_fd_capacity (b : Buffer.t) : Z :=
  if Buffer.writable_bytes b <? Buffer.extrabuf_size
  then Buffer.writable_bytes b + Buffer.extrabuf_size else Buffer.writable_bytes b.

(** A buffer with ten pending bytes, two writable ones and a front area
    grown to twenty by earlier retrievals. *)
Definition pending : list byte := [x30; x31; x32; x33; x34; x35; x36; x37; x38; x39].

Definition demo : Buffer.t :=
  {| Buffer.buffer_ := replicate 20 x00 ++ pending ++ replicate 2 x00;
     Buffer.readerIndex_ := 20;
     Buffer.writerIndex_ := 30 |}.

Definition hello : list byte := [x68; x65; x6c; x6c; x6f].

End Fifo.

(** ** The channels of a loop, its EPollPoller and the kernel's epoll *)

Module Reactor.

(** Addresses of [Channel] objects. *)
Abbreviation ptr := positive (only parsing).

(** [struct epoll_event]: [events] and [data.ptr]; a zeroed event has a
    null pointer. *)
Record epoll_event : Type := mk_event {
  ee_events : Z;
  ee_ptr : option ptr
}.

Definition zero_event : epoll_event := mk_event 0 None.

Definition KInitEventListSize_ : Z := 16.

(** The [Channel] objects that belong to the loop, by address, and the
    loop's [EPollPoller]: the base class with [channels_], and the vector
    [events_] that [epoll_wait] fills. *)
Record t : Type := mk {
  objects : gmap ptr Channel.t;
  poller_ : Poller.t;
  events_ : list epoll_event
}.

(** A loop with its poller as [EPollPoller(loop)] builds it. *)
Definition make (objs : gmap ptr Channel.t) : t :=
  {| objects := objs;
     poller_ := Poller.make;
     events_ := replicate (Z.to_nat KInitEventListSize_) zero_event |}.

(** The member functions of [Channel] that end in [update()] or are
    [remove()]; both go through [EventLoop] to the poller. *)
Inductive op : Type :=
| EnableReading
| DisableReading
| EnableWriting
| DisableWriting
| DisableAll
| Remove.

(** [channel->op()] for the object at address [a].  A call through a
    pointer that designates no channel of the loop has no defined
    behaviour in the source; here it leaves everything as it is. *)
Definition call (a : ptr) (o : op) (r : t) : t :=
  match objects r !! a with
  | None => r
  | Some c =>
      let '(c', p') :=
        match o with
        | EnableReading => Poller.update_channel a (Channel.enable_reading c) (poller_ r)
        | DisableReading => Poller.update_channel a (Channel.disable_reading c) (poller_ r)
        | EnableWriting => Poller.update_channel a (Channel.enable_writing c) (poller_ r)
        | DisableWriting => Poller.update_channel a (Channel.disable_writing c) (poller_ r)
        | DisableAll => Poller.update_channel a (Channel.disable_all c) (poller_ r)
        | Remove => Poller.remove_channel a c (poller_ r)
        end in
      {| objects := <[a := c']> (objects r); poller_ := p'; events_ := events_ r |}
  end.

(** What [::epoll_wait] comes back with: the ready events, each with the
    [data.ptr] registered for its descriptor, or an error. *)
Inductive wait_result : Type :=
| WaitReady (ready : list (Z * ptr))
| WaitErr (errno : Z).

Definition EINTR : Z := 4.

(** [::epoll_wait(epollfd_, events_.data(), events_.size(), timeoutMs)]:
    the kernel writes at most [events_.size()] events to the front of the
    vector and returns their number. *)
Definition epoll_wait (w : wait_result) (events : list epoll_event) : Z * list epoll_event :=
  match w with
  | WaitErr _ => (-1, events)
  | WaitReady ready =>
      let got := take (length events) ready in
      (Z.of_nat (length got),
       map (fun ea => mk_event ea.1 (Some ea.2)) got ++ drop (length got) events)
  end.

(** One round of the loop of [fill_active_channels]: [events_[i]] is read,
    its mask stored in the channel [data.ptr] designates, and the pointer
    pushed.  The kernel hands back the pointers the poller registered;
    for a slot it did not fill, or a pointer to no channel of the loop,
    the source has no defined behaviour and the model does nothing. *)
Definition fill_one (events : list epoll_event)
    (st : gmap ptr Channel.t * list ptr) (i : nat) : gmap ptr Channel.t * list ptr :=
  match events !! i with
  | Some (mk_event e (Some a)) => (alter (Channel.set_revents e) a st.1, st.2 ++ [a])
  | _ => st
  end.

(** [fill_active_channels(eventNum, activeChannels)] *)
Definition fill_active_channels (eventNum : Z) (events : list epoll_event)
    (objs : gmap ptr Channel.t) (activeChannels : list ptr) : gmap ptr Channel.t * list ptr :=
  foldl (fill_one events) (objs, activeChannels) (seq 0 (Z.to_nat eventNum)).

(** [events_.resize(n)] *)
Definition resize (n : Z) (events : list epoll_event) : list epoll_event :=
  take (Z.to_nat n) events ++ replicate (Z.to_nat n - length events)%nat zero_event.

(** [poll(timeoutMs, activeChannels)]: the list of active channels, whether
    an error was logged, and the loop. *)
Definition poll (w : wait_result) (activeChannels : list ptr) (r : t) : list ptr * bool * t :=
  let '(eventNum, events) := epoll_wait w (events_ r) in
  if 0 <? eventNum
  then
    let '(objs, active) := fill_active_channels eventNum events (objects r) activeChannels in
    let events := if Z.of_nat (length events) =? eventNum
                  then resize (2 * Z.of_nat (length events)) events
                  else events in
    (active, false, {| objects := objs; poller_ := poller_ r; events_ := events |})
  else if eventNum =? 0
  then (activeChannels, false, r)
  else (activeChannels,
        match w with WaitErr e => negb (e =? EINTR) | WaitReady _ => false end,
        r).

(** What the loop thread does to its channels and its poller. *)
Inductive action : Type :=
| Call (a : ptr) (o : op)
| Poll (w : wait_result).

(** [Poll] is the poll of one turn of [EventLoop::loop], which clears
    [activeChannels_] before it. *)
Definition step (x : action) (r : t) : t :=
  match x with
  | Call a o => call a o r
  | Poll w => (poll w [] r).2
  end.

Definition run (script : list action) (r : t) : t :=
  foldl (fun r x => step x r) r script.

(** *** The kernel's side *)

(** The interest list of an epoll instance: for each registered
    descriptor, the mask and the [data.ptr] given for it. *)
Abbreviation interest := (gmap Z (Z * positive)) (only parsing).

(** [epoll_ctl(2)]: [EPOLL_CTL_ADD] fails with [EEXIST] on a registered
    descriptor, [EPOLL_CTL_MOD] and [EPOLL_CTL_DEL] fail with [ENOENT] on
    one that is not; [None] is such a failure. *)
Definition epoll_ctl (k : interest) (c : Poller.ctl) : option interest :=
  let fd := Poller.ctl_fd c in
  match Poller.ctl_operation c, k !! fd with
  | Poller.EPOLL_CTL_ADD, None => Some (<[fd := (Poller.ctl_events c, Poller.ctl_data c)]> k)
  | Poller.EPOLL_CTL_MOD, Some _ => Some (<[fd := (Poller.ctl_events c, Poller.ctl_data c)]> k)
  | Poller.EPOLL_CTL_DEL, Some _ => Some (delete fd k)
  | _, _ => None
  end.

(** The interest list after a sequence of calls, if all of them succeed. *)
Fixpoint replay (cs : list Poller.ctl) (k : interest) : option interest :=
  match cs with
  | [] => Some k
  | c :: cs =>
      match epoll_ctl k c with
      | Some k' => replay cs k'
      | None => None
      end
  end.

(** Channel tags, the poller's map and the kernel's interest list say the
    same: a channel is in the map unless it is [kNew], and registered with
    the kernel, under its current mask and its own address, exactly when
    it is [kAdded]; map and interest list hold nothing else. *)
Record consistent (r : t) (k : interest) : Prop := {
  cons_tag : forall a c, objects r !! a = Some c ->
    Channel.index_ c = Poller.kNew \/ Channel.index_ c = Poller.kAdded \/
    Channel.index_ c = Poller.kDeleted;
  cons_map : forall a c, objects r !! a = Some c ->
    Poller.channels_ (poller_ r) !! Channel.fd_ c =
      if Channel.index_ c =? Poller.kNew then None else Some a;
  cons_kernel : forall a c, objects r !! a = Some c ->
    k !! Channel.fd_ c =
      if Channel.index_ c =? Poller.kAdded then Some (Channel.events_ c, a) else None;
  cons_map_only : forall fd a, Poller.channels_ (poller_ r) !! fd = Some a ->
    exists c, objects r !! a = Some c /\ Channel.fd_ c = fd;
  cons_kernel_only : forall fd e a, k !! fd = Some (e, a) ->
    exists c, objects r !! a = Some c /\ Channel.fd_ c = fd;
  cons_fd : forall a a' c c', objects r !! a = Some c -> objects r !! a' = Some c' ->
    Channel.fd_ c = Channel.fd_ c' -> a = a'
}.

(** Channels as [Channel(loop, fd)] makes them, one per descriptor. *)
Definition fresh (objs : gmap ptr Channel.t) : Prop :=
  (forall a c, objs !! a = Some c -> c = Channel.make (Channel.fd_ c)) /\
  (forall a a' c c', objs !! a = Some c -> objs !! a' = Some c' ->
     Channel.fd_ c = Channel.fd_ c' -> a = a').

(** The kernel reports a channel at most once per [epoll_wait], and only
    channels of the loop. *)
Definition reports (objs : gmap ptr Channel.t) (ready : list (Z * ptr)) : Prop :=
  NoDup ready.*2 /\ forall a, a ∈ ready.*2 -> is_Some (objs !! a).

(** Two channels and a run of the loop thread over them. *)
Definition demo_objects : gmap ptr Channel.t :=
  <[1%positive := Channel.make 5]> (<[2%positive := Channel.make 6]> ∅).

Definition demo_script : list action :=
  [Call 1%positive EnableReading; Call 2%positive EnableWriting;
   Poll (WaitReady [(1, 1%positive)]); Call 1%positive DisableAll;
   Call 1%positive EnableWriting; Call 2%positive Remove;
   Call 2%positive DisableAll].

End Reactor.

(** ** The connection table of TcpServer *)

Module Server.

Abbreviation loop := positive (only parsing).

(** The largest value of [int nextConnId_]. *)
Definition INT_MAX : Z := 2 ^ 31 - 1.

(** [EventLoopThreadPool::get_all_loops()] *)
Definition get_all_loops (p : Pool.t) : list loop :=
  match Pool.loops_ p with
  | [] => [Pool.baseLoop_ p]
  | _ :: _ => Pool.loops_ p
  end.

(** [TcpServer(loop, ...)] once [start()] has started the pool over the
    loops of its worker threads: [nextConnId_(1)] and an empty table. *)
Definition make (base : loop) (workers : list loop) : Pool.server :=
  {| Pool.threadPool_ := Pool.started base workers;
     Pool.nextConnId_ := 1;
     Pool.connections_ := [] |}.

(** [remove_connection_in_loop(conn)], with the connection given by the
    number in its name and its loop: the entry of that name is erased, and
    [connect_destroyed] is queued on the loop returned. *)
Definition remove_connection_in_loop (conn : Z * loop) (s : Pool.server)
    : loop * Pool.server :=
  (conn.2,
   {| Pool.threadPool_ := Pool.threadPool_ s;
      Pool.nextConnId_ := Pool.nextConnId_ s;
      Pool.connections_ := filter (fun c => c.1 <> conn.1) (Pool.connections_ s) |}).

(** What the base loop does to the table: the acceptor reports a new
    connection, or a connection's close callback arrives. *)
Inductive request : Type :=
| Accept
| Close (conn : Z * loop).

Definition serve (q : request) (s : Pool.server) : Pool.server :=
  match q with
  | Accept => Pool.new_connection s
  | Close conn => (remove_connection_in_loop conn s).2
  end.

Definition serve_all (qs : list request) (s : Pool.server) : Pool.server :=
  foldl (fun s q => serve q s) s qs.

(** The number of [Accept]s among the requests. *)
Fixpoint accepted (qs : list request) : Z :=
  match qs with
  | [] => 0
  | Accept :: qs => 1 + accepted qs
  | Close _ :: qs => accepted qs
  end.

(** The cursor of the pool designates one of its workers, if it has any. *)
Definition on_worker (p : Pool.t) : Prop :=
  Pool.loops_ p = [] \/ 0 <= Pool.next_ p < Z.of_nat (length (Pool.loops_ p)).

(** The table holds each name once, the names are numbers given out since
    [n0], and every connection runs on a loop of the pool. *)
Definition table_ok (n0 : Z) (s : Pool.server) : Prop :=
  on_worker (Pool.threadPool_ s) /\
  n0 <= Pool.nextConnId_ s /\
  NoDup (Pool.connections_ s).*1 /\
  forall c, c ∈ Pool.connections_ s ->
    n0 < c.1 <= Pool.nextConnId_ s /\ c.2 ∈ get_all_loops (Pool.threadPool_ s).

End Server.

(** ** Observations on a connection's run *)

Module Life.

(** How far a connection is in its life:
    Connecting, Connected, Disconnecting, Disconnected. *)
Definition rank (s : Conn.StateE) : Z :=
  match s with
  | Conn.kConnecting => 0
  | Conn.kConnected => 1
  | Conn.kDisconnecting => 2
  | Conn.kDisconnected => 3
  end.

(** A closed connection has no interest left in its descriptor. *)
Definition quiet (w : Conn.t) : Prop :=
  Conn.state_ w = Conn.kDisconnected ->
  Channel.events_ (Conn.connChannel_ w) = Channel.KNoneEvent.

(** The bytes the kernel took in a [::write]. *)
Definition taken (e : Conn.event) : list byte :=
  match e with
  | Conn.EvWrite data n => take (Z.to_nat n) data
  | _ => []
  end.

(** Everything that went out on the socket, in order. *)
Definition wire (tr : list Conn.event) : list byte := concat (taken <$> tr).

(** What the peer gets once the output buffer has drained: the bytes on
    the wire followed by the bytes still buffered. *)
Definition stream (w : Conn.t) : list byte :=
  wire (Conn.trace w) ++ Buffer.readable (Conn.outputBuffer_ w).

Definition is_write (e : Conn.event) : bool :=
  match e with
  | Conn.EvWrite _ _ => true
  | _ => false
  end.

(** The closures queued, the user callbacks run and the wake-ups made
    among some events. *)
Definition queued (evs : list Conn.event) : list Conn.Functor :=
  omap (fun e => match e with Conn.EvQueueInLoop f => Some f | _ => None end) evs.

Definition calls (evs : list Conn.event) : list Conn.callback :=
  omap (fun e => match e with Conn.EvCall cb => Some cb | _ => None end) evs.

Definition wakeups (evs : list Conn.event) : nat :=
  length (omap (fun e => match e with Conn.EvWakeup => Some tt | _ => None end) evs).


(** From [w] to [w'] on the loop thread: the trace grows by some events,
    the task queue by the closures queued among them, the user callbacks
    run are [cbs], and, during a drain, every queued closure comes with a
    wake-up. *)
Definition ledger (w w' : Conn.t) (cbs : list Conn.callback) : Prop :=
  exists evs,
    Conn.trace w' = Conn.trace w ++ evs /\
    Conn.pendingFunctors_ w' = Conn.pendingFunctors_ w ++ queued evs /\
    Conn.callingPendingFunctors_ w' = Conn.callingPendingFunctors_ w /\
    calls evs = cbs /\
    (Conn.callingPendingFunctors_ w = true -> wakeups evs = length (queued evs)).

(** [w] with another trace and another value of the drain flag. *)
Definition retrace (t : list Conn.event) (c : bool) (w : Conn.t) : Conn.t :=
  {| Conn.state_ := Conn.state_ w;
     Conn.connChannel_ := Conn.connChannel_ w;
     Conn.inputBuffer_ := Conn.inputBuffer_ w;
     Conn.outputBuffer_ := Conn.outputBuffer_ w;
     Conn.highWaterMark_ := Conn.highWaterMark_ w;
     Conn.connectionCallback_ := Conn.connectionCallback_ w;
     Conn.messageCallback_ := Conn.messageCallback_ w;
     Conn.writeCompleteCallback_ := Conn.writeCompleteCallback_ w;
     Conn.highWaterMarkCallback_ := Conn.highWaterMarkCallback_ w;
     Conn.closeCallback_ := Conn.closeCallback_ w;
     Conn.pendingFunctors_ := Conn.pendingFunctors_ w;
     Conn.callingPendingFunctors_ := c;
     Conn.heap := Conn.heap w;
     Conn.kernel := Conn.kernel w;
     Conn.trace := t |}.

(** The events other than wake-ups. *)
Definition effects (evs : list Conn.event) : list Conn.event :=
  filter (fun e => match e with Conn.EvWakeup => false | _ => true end = true) evs.

(** [send_in_loop] gives up at its first test. *)
Definition disconnected (w : Conn.t) : bool :=
  match Conn.state_ w with
  | Conn.kDisconnected => true
  | _ => false
  end.

(** [send_in_loop] would try the socket at once and find the connection
    broken: nothing is pending, and the next [::write] fails with
    [EPIPE] or [ECONNRESET]. *)
Definition broken_pipe (w : Conn.t) : bool :=
  negb (Conn.is_writing w) &&
  (Buffer.readable_bytes (Conn.outputBuffer_ w) =? 0) &&
  match Conn.kernel w with
  | Conn.WriteErr e :: _ => (e =? Conn.EPIPE) || (e =? Conn.ECONNRESET)
  | _ => false
  end.

End Life.

(** ** Acceptor and Socket::accept *)

Module Acceptor.

Definition AF_INET : Z := 2.
Definition EMFILE : Z := 24.

(** [struct sockaddr_in]; port and address in network byte order. *)
Record sockaddr_in : Type := mk_addr {
  sin_family : Z;
  sin_port : Z;
  sin_addr : Z
}.

(** [memset(&addr, 0, sizeof addr)] *)
Definition zeroed : sockaddr_in := mk_addr 0 0 0.

(** [InetAddress()], that is [InetAddress(0, "0.0.0.0")]: a zeroed address
    with the family set; port 0 and address 0.0.0.0 are zero in any byte
    order. *)
Definition default_address : sockaddr_in := mk_addr AF_INET 0 0.

(** What [::accept] comes back with: a descriptor and the peer's address,
    or an error. *)
Inductive accept_result : Type :=
| AcceptOk (connfd : Z) (peer : sockaddr_in)
| AcceptErr (errno : Z).

(** What the acceptor does that can be seen from outside. *)
Inductive event : Type :=
| EvSetFlags (fd : Z)                              (* O_NONBLOCK and FD_CLOEXEC set *)
| EvNewConnection (connfd : Z) (peerAddr : sockaddr_in) (* NewConnectionCallback_ runs *)
| EvClose (fd : Z)                                 (* ::close(fd) *)
| EvLogError.

(** [sockets::accept(sockfd, addr)]: the value returned, [*addr] and the
    events. *)
Definition sockets_accept (r : accept_result) (addr : sockaddr_in)
    : Z * sockaddr_in * list event :=
  match r with
  | AcceptOk connfd peer =>
      if connfd <? 0 then (-1, addr, [EvLogError])
      else (connfd, peer, [EvSetFlags connfd])
  | AcceptErr _ => (-1, addr, [EvLogError])
  end.

(** [Socket::accept(peeraddr)]: the value returned, [peeraddr] and the
    events. *)
Definition socket_accept (r : accept_result) (peeraddr : sockaddr_in)
    : Z * sockaddr_in * list event :=
  let addr := zeroed in
  let '(connfd, addr, evs) := sockets_accept r addr in
  (connfd, if 0 <? connfd then addr else peeraddr, evs).

(** [errno] as [::accept] left it. *)
Definition errno_of (r : accept_result) : Z :=
  match r with
  | AcceptOk _ _ => 0
  | AcceptErr e => e
  end.

(** [Acceptor::handle_read()], with [installed] saying whether
    [NewConnectionCallback_] holds a target. *)
Definition handle_read (installed : bool) (r : accept_result) : list event :=
  let peerAddr := default_address in
  let '(connfd, peerAddr, evs) := socket_accept r peerAddr in
  if 0 <=? connfd
  then
    if installed
    then evs ++ [EvNewConnection connfd peerAddr]
    else evs ++ [EvClose connfd]
  else
    evs ++ [EvLogError] ++ (if errno_of r =? EMFILE then [EvLogError] else []).

(** How often a descriptor is handed to the server or closed. *)
Definition disposes (fd : Z) (e : event) : bool :=
  match e with
  | EvNewConnection fd' _ | EvClose fd' => fd' =? fd
  | _ => false
  end.

Definition disposals (fd : Z) (evs : list event) : nat :=
  length (filter (fun e => disposes fd e = true) evs).

(** The number of error lines logged. *)
Definition logged (evs : list event) : nat :=
  length (filter (fun e => match e with EvLogError => true | _ => false end = true) evs).

End Acceptor.

(** ** Timestamp *)

Module Timestamp.

Definition kMicroSecondsPerSecond : Z := 1000 * 1000.

Definition INT64_MIN : Z := - 2 ^ 63.
Definition INT64_MAX : Z := 2 ^ 63 - 1.

(** [struct timeval] as [gettimeofday] fills it. *)
Record timeval : Type := mk_timeval {
  tv_sec : Z;
  tv_usec : Z
}.

(** [Timestamp::now()], given what [gettimeofday] returned: the value of
    [microSecondsSinceEpoch_]. *)
Definition now (tv : timeval) : Z :=
  let seconds := tv_sec tv in
  seconds * kMicroSecondsPerSecond + tv_usec tv.

(** The two numbers [to_formatted_string] prints from: [/] and [%] of
    C++ truncate towards zero. *)
Definition seconds (microSecondsSinceEpoch_ : Z) : Z :=
  Z.quot microSecondsSinceEpoch_ kMicroSecondsPerSecond.

Definition microseconds (microSecondsSinceEpoch_ : Z) : Z :=
  Z.rem microSecondsSinceEpoch_ kMicroSecondsPerSecond.

End Timestamp.

(** * Properties *)

(** ** Buffer *)

Section BufferFacts.

Import SizeT Buffer.

Lemma wrap_small z : in_range z -> wrap z = z.
Proof. unfold wrap, in_range. intros H. by apply Z.mod_small. Qed.

Lemma length_copy_into pos src v : length (copy_into pos src v) = length v.
Proof.
  unfold copy_into. rewrite length_take, !length_app, length_take, length_drop. lia.
Qed.

Lemma length_vector_resize n v : length (vector_resize n v) = Z.to_nat n.
Proof.
  unfold vector_resize. rewrite length_app, length_take, length_replicate. lia.
Qed.

Lemma wf_readable b : wf b -> readable_bytes b = writerIndex_ b - readerIndex_ b.
Proof.
  intros []. unfold readable_bytes, sub. apply wrap_small.
  unfold in_range, kCheapPrepend in *. lia.
Qed.

Lemma wf_writable b : wf b -> writable_bytes b = size b - writerIndex_ b.
Proof.
  intros []. unfold writable_bytes, sub. apply wrap_small.
  unfold in_range, kCheapPrepend in *. lia.
Qed.

Lemma wf_balanced b : wf b -> balanced b.
Proof.
  intros H. unfold balanced, prependable_bytes.
  rewrite wf_readable, wf_writable by done. destruct H. lia.
Qed.

Ltac unwrap :=
  repeat match goal with
    | |- context [wrap ?z] => rewrite (wrap_small z) by (unfold in_range, modulus in *; lia)
    | H : context [wrap ?z] |- _ => rewrite (wrap_small z) in H by (unfold in_range, modulus in *; lia)
    end.

Ltac buf_unfold :=
  unfold readable_bytes, writable_bytes, prependable_bytes, size, add, sub,
    kCheapPrepend, extrabuf_size in *; simpl in *.

Lemma wf_make init : 0 <= init -> kCheapPrepend + init < modulus -> wf (make init).
Proof.
  intros H0 H1. unfold make, vector_make, add.
  rewrite wrap_small by (unfold in_range, kCheapPrepend in *; lia).
  split; unfold size; simpl; rewrite ?length_replicate; unfold kCheapPrepend in *; lia.
Qed.

Lemma wf_retrieve_all b : wf b -> wf (retrieve_all b).
Proof.
  intros []. split; unfold retrieve_all, size, kCheapPrepend in *; simpl in *; lia.
Qed.

Lemma wf_retrieve len b : 0 <= len -> wf b -> wf (retrieve len b).
Proof.
  intros Hlen Hwf. unfold retrieve. rewrite wf_readable by done.
  destruct (Z.ltb_spec len (writerIndex_ b - readerIndex_ b)); [|by apply wf_retrieve_all].
  destruct Hwf. split; buf_unfold; unwrap; lia.
Qed.

Lemma size_retrieve len b : size (retrieve len b) = size b.
Proof. unfold retrieve, retrieve_all, size. by case_match. Qed.

(** [make_space], compaction branch. *)
Lemma make_space_compact len b :
  wf b -> 0 <= len ->
  len + kCheapPrepend <= writable_bytes b + prependable_bytes b ->
  make_space len b =
    {| buffer_ := copy_into kCheapPrepend (readable b) (buffer_ b);
       readerIndex_ := kCheapPrepend;
       writerIndex_ := kCheapPrepend + readable_bytes b |}.
Proof.
  intros Hwf Hlen Hroom. unfold make_space, readable, peek.
  rewrite wf_writable, wf_readable in * by done. destruct Hwf.
  buf_unfold. unwrap.
  destruct (Z.ltb_spec (Z.of_nat (length (buffer_ b)) - writerIndex_ b + readerIndex_ b) (len + 8)); [lia|].
  done.
Qed.

(** [make_space], growth branch. *)
Lemma make_space_resize len b :
  wf b -> 0 <= len ->
  writable_bytes b + prependable_bytes b < len + kCheapPrepend ->
  writerIndex_ b + len < modulus ->
  make_space len b =
    {| buffer_ := vector_resize (writerIndex_ b + len) (buffer_ b);
       readerIndex_ := readerIndex_ b;
       writerIndex_ := writerIndex_ b |}.
Proof.
  intros Hwf Hlen Hroom Hfit. unfold make_space.
  rewrite wf_writable in * by done. destruct Hwf.
  buf_unfold. unwrap.
  destruct (Z.ltb_spec (Z.of_nat (length (buffer_ b)) - writerIndex_ b + readerIndex_ b) (len + 8)); [done|lia].
Qed.

Lemma copy_into_inside pos src v :
  (Z.to_nat pos + length src <= length v)%nat ->
  copy_into pos src v = take (Z.to_nat pos) v ++ src ++ drop (Z.to_nat pos + length src)%nat v.
Proof.
  intros H. unfold copy_into. apply take_ge.
  rewrite !length_app, length_take, length_drop. lia.
Qed.

Lemma copy_into_read pos src v :
  (Z.to_nat pos + length src <= length v)%nat ->
  take (length src) (drop (Z.to_nat pos) (copy_into pos src v)) = src.
Proof.
  intros H. rewrite copy_into_inside by done.
  rewrite drop_app_length' by (rewrite length_take; lia).
  by rewrite take_app_length.
Qed.

Lemma length_readable b : wf b -> Z.of_nat (length (readable b)) = readable_bytes b.
Proof.
  intros Hwf. unfold readable, peek. rewrite length_take, length_drop.
  rewrite wf_readable by done. destruct Hwf. buf_unfold. lia.
Qed.

Lemma ensure_writable_enough len b :
  len <= writable_bytes b -> ensure_writable_bytes len b = b.
Proof.
  intros H. unfold ensure_writable_bytes.
  by destruct (Z.ltb_spec (writable_bytes b) len); [lia|].
Qed.

Lemma ensure_writable_short len b :
  writable_bytes b < len -> ensure_writable_bytes len b = make_space len b.
Proof.
  intros H. unfold ensure_writable_bytes.
  by destruct (Z.ltb_spec (writable_bytes b) len); [|lia].
Qed.

Lemma wf_compacted b :
  wf b -> kCheapPrepend <= writable_bytes b + prependable_bytes b ->
  wf {| buffer_ := copy_into kCheapPrepend (readable b) (buffer_ b);
        readerIndex_ := kCheapPrepend;
        writerIndex_ := kCheapPrepend + readable_bytes b |}.
Proof.
  intros Hwf. rewrite wf_writable, wf_readable by done. intros H.
  destruct Hwf. split; buf_unfold; rewrite ?length_copy_into; lia.
Qed.

Lemma wf_resized len b :
  wf b -> 0 <= len -> writerIndex_ b + len < modulus ->
  wf {| buffer_ := vector_resize (writerIndex_ b + len) (buffer_ b);
        readerIndex_ := readerIndex_ b;
        writerIndex_ := writerIndex_ b |}.
Proof.
  intros Hwf Hlen Hfit. destruct Hwf.
  split; buf_unfold; rewrite ?length_vector_resize; lia.
Qed.

Lemma wf_ensure_writable len b :
  wf b -> 0 <= len -> feasible len b ->
  wf (ensure_writable_bytes len b) /\
  len <= writable_bytes (ensure_writable_bytes len b).
Proof.
  intros Hwf Hlen Hfeas.
  destruct (Z.le_gt_cases len (writable_bytes b)) as [Hen|Hshort].
  { by rewrite ensure_writable_enough. }
  rewrite ensure_writable_short by lia.
  destruct (Z.le_gt_cases (len + kCheapPrepend) (writable_bytes b + prependable_bytes b))
    as [Hroom|Hnoroom].
  - rewrite make_space_compact by done.
    assert (Hwf' := wf_compacted b Hwf ltac:(unfold kCheapPrepend in *; lia)).
    split; [done|]. rewrite (wf_writable _ Hwf').
    rewrite wf_writable, wf_readable in * by done. destruct Hwf.
    buf_unfold. rewrite length_copy_into. lia.
  - destruct Hfeas as [?|Hfit]; [lia|].
    rewrite make_space_resize by (done || lia).
    assert (Hwf' := wf_resized len b Hwf Hlen Hfit).
    split; [done|]. rewrite (wf_writable _ Hwf').
    destruct Hwf. buf_unfold. rewrite length_vector_resize. lia.
Qed.

Lemma size_ensure_writable_within len b :
  wf b -> 0 <= len ->
  len <= writable_bytes b + prependable_bytes b - kCheapPrepend ->
  size (ensure_writable_bytes len b) = size b.
Proof.
  intros Hwf Hlen Hin.
  destruct (Z.le_gt_cases len (writable_bytes b)) as [Hen|Hshort].
  { by rewrite ensure_writable_enough. }
  rewrite ensure_writable_short by lia.
  rewrite make_space_compact by (done || lia).
  unfold size. simpl. by rewrite length_copy_into.
Qed.

Lemma wf_append data b :
  wf b -> feasible (Z.of_nat (length data)) b -> wf (append data b).
Proof.
  intros Hwf Hfeas. unfold append.
  destruct (wf_ensure_writable (Z.of_nat (length data)) b Hwf ltac:(lia) Hfeas)
    as [Hwf' Hroom].
  rewrite (wf_writable _ Hwf') in Hroom. destruct Hwf'.
  split; buf_unfold; rewrite ?length_copy_into; unwrap; lia.
Qed.

Lemma size_append_within data b :
  wf b ->
  Z.of_nat (length data) <= writable_bytes b + prependable_bytes b - kCheapPrepend ->
  size (append data b) = size b.
Proof.
  intros Hwf Hin. unfold append, size at 1. simpl. rewrite length_copy_into.
  by apply size_ensure_writable_within; [|lia|].
Qed.

Lemma feasible_ext len b1 b2 :
  size b1 = size b2 -> readerIndex_ b1 = readerIndex_ b2 ->
  writerIndex_ b1 = writerIndex_ b2 -> feasible len b1 -> feasible len b2.
Proof.
  unfold feasible, writable_bytes, prependable_bytes. by intros -> -> ->.
Qed.

Lemma within_ext len b1 b2 :
  size b1 = size b2 -> readerIndex_ b1 = readerIndex_ b2 ->
  writerIndex_ b1 = writerIndex_ b2 ->
  len <= writable_bytes b1 + prependable_bytes b1 - kCheapPrepend ->
  len <= writable_bytes b2 + prependable_bytes b2 - kCheapPrepend.
Proof.
  unfold writable_bytes, prependable_bytes. by intros -> -> ->.
Qed.

Lemma wf_filled_up data b : wf b -> wf (filled_up data b).
Proof.
  intros []. split; unfold filled_up; buf_unfold; rewrite ?length_copy_into; lia.
Qed.

Lemma read_fd_room b :
  let room := (if (if writable_bytes b <? extrabuf_size then 2 else 1) =? 2
               then writable_bytes b + extrabuf_size else writable_bytes b) in
  room = (if writable_bytes b <? extrabuf_size
          then writable_bytes b + extrabuf_size else writable_bytes b).
Proof. simpl. by destruct (writable_bytes b <? extrabuf_size). Qed.

Lemma wf_read_fd r b :
  wf b -> feasible_op (OpReadFd r) b -> wf (snd (read_fd r b)).
Proof.
  intros Hwf. destruct r as [e|avail]; [done|].
  unfold feasible_op, demand, read_fd. rewrite read_fd_room by done.
  set (room := if writable_bytes b <? extrabuf_size then _ else _).
  set (data := take (Z.to_nat room) avail).
  destruct (Z.leb_spec (Z.of_nat (length data)) (writable_bytes b)) as [Hle|Hgt]; simpl.
  - intros _. rewrite wf_writable in Hle by done. destruct Hwf.
    split; buf_unfold; rewrite ?length_copy_into; unwrap; lia.
  - intros Hfeas.
    apply wf_append; [by apply wf_filled_up|].
    rewrite length_drop.
    assert (0 <= writable_bytes b) by (rewrite wf_writable by done; destruct Hwf; lia).
    replace (Z.of_nat (length data - Z.to_nat (writable_bytes b)))
      with (Z.of_nat (length data) - writable_bytes b) by lia.
    eapply feasible_ext; [..|exact Hfeas]; unfold filled_up, size; simpl;
      rewrite ?length_copy_into; done.
Qed.

Lemma size_read_fd_within r b :
  wf b -> within (OpReadFd r) b -> size (snd (read_fd r b)) = size b.
Proof.
  intros Hwf. destruct r as [e|avail]; [done|].
  unfold within, demand, read_fd. rewrite read_fd_room by done.
  set (room := if writable_bytes b <? extrabuf_size then _ else _).
  set (data := take (Z.to_nat room) avail).
  destruct (Z.leb_spec (Z.of_nat (length data)) (writable_bytes b)) as [Hle|Hgt]; simpl.
  - intros _. unfold size. simpl. by rewrite length_copy_into.
  - intros Hin.
    assert (0 <= writable_bytes b) by (rewrite wf_writable by done; destruct Hwf; lia).
    rewrite size_append_within.
    + unfold filled_up, size. simpl. by rewrite length_copy_into.
    + by apply wf_filled_up.
    + rewrite length_drop.
      replace (Z.of_nat (length data - Z.to_nat (writable_bytes b)))
        with (Z.of_nat (length data) - writable_bytes b) by lia.
      eapply within_ext; [..|exact Hin]; unfold filled_up, size; simpl;
        rewrite ?length_copy_into; done.
Qed.

Lemma wf_run_op o b : wf b -> feasible_op o b -> wf (run_op o b).
Proof.
  intros Hwf. destruct o as [data|len| |len| |len|r]; simpl.
  - apply wf_append; done.
  - intros _. apply wf_retrieve; [lia|done].
  - intros _. by apply wf_retrieve_all.
  - intros _. apply wf_retrieve; [|done].
    rewrite wf_readable by done. destruct Hwf. lia.
  - intros _. apply wf_retrieve; [|done].
    rewrite wf_readable by done. destruct Hwf. lia.
  - intros Hfeas. by apply wf_ensure_writable; [|lia|].
  - by apply wf_read_fd.
Qed.

Lemma fits_feasible o b : fits o b -> feasible_op o b.
Proof.
  unfold fits, feasible_op, feasible. destruct (demand o b) as [[len b']|]; auto.
Qed.

Lemma within_feasible o b : within o b -> feasible_op o b.
Proof.
  unfold within, feasible_op, feasible. destruct (demand o b) as [[len b']|]; [|done].
  intros H. left. lia.
Qed.

Lemma wf_run ops : forall b, wf b -> all_fit ops b -> wf (run ops b).
Proof.
  induction ops as [|o ops IH]; intros b Hwf Hfit; [done|].
  destruct Hfit as [Ho Hops]. simpl. apply IH; [|done].
  by apply wf_run_op, fits_feasible.
Qed.

Lemma size_run_op_within o b : wf b -> within o b -> size (run_op o b) = size b.
Proof.
  intros Hwf. destruct o as [data|len| |len| |len|r]; simpl.
  - by apply size_append_within.
  - intros _. apply size_retrieve.
  - done.
  - intros _. apply size_retrieve.
  - intros _. apply size_retrieve.
  - intros Hin. unfold within in Hin. simpl in Hin.
    by apply size_ensure_writable_within; [|lia|].
  - by apply size_read_fd_within.
Qed.

Lemma size_run_within ops : forall b, wf b -> all_within ops b -> size (run ops b) = size b.
Proof.
  induction ops as [|o ops IH]; intros b Hwf Hin; [done|].
  destruct Hin as [Ho Hops]. simpl. rewrite IH; [|by apply wf_run_op, within_feasible|done].
  by apply size_run_op_within.
Qed.

Lemma readable_compacted b :
  wf b -> kCheapPrepend <= writable_bytes b + prependable_bytes b ->
  readable {| buffer_ := copy_into kCheapPrepend (readable b) (buffer_ b);
              readerIndex_ := kCheapPrepend;
              writerIndex_ := kCheapPrepend + readable_bytes b |} = readable b.
Proof.
  intros Hwf Hroom. assert (Hlen := length_readable b Hwf).
  unfold readable at 1, peek, readable_bytes at 1. simpl.
  rewrite wf_writable, wf_readable in * by done. destruct Hwf.
  buf_unfold. unwrap.
  replace (8 + (writerIndex_ b - readerIndex_ b) - 8) with (Z.of_nat (length (readable b))) by lia.
  rewrite Nat2Z.id. apply copy_into_read. lia.
Qed.

Lemma readable_resized n b :
  wf b -> size b <= n ->
  readable {| buffer_ := vector_resize n (buffer_ b);
              readerIndex_ := readerIndex_ b;
              writerIndex_ := writerIndex_ b |} = readable b.
Proof.
  intros Hwf Hn. unfold readable, peek, readable_bytes, vector_resize. simpl.
  destruct Hwf. buf_unfold. unwrap.
  rewrite (take_ge (buffer_ b)) by lia.
  rewrite drop_app_le by lia.
  rewrite take_app_le by (rewrite length_drop; lia). done.
Qed.

(** C5, as the specification states it, fails: the sums of [size_t] wrap
    around.  After [append] of 92 bytes to [Buffer(1024)],
    [ensure_writable_bytes(2^64 - 50)] resizes the vector to
    (100 + 2^64 - 50) mod 2^64 = 50 bytes, below [writerIndex_] = 100; and
    [Buffer(2^64 - 8)] has an empty vector with both cursors at 8. *)
Lemma balance_lost_on_wraparound :
  (let b := run [OpAppend (replicate 92 x00); OpEnsureWritable (2 ^ 64 - 50)]
                (make (Z.of_N 1024)) in
   size b = 50 /\ writerIndex_ b = 100 /\ ~ balanced b) /\
  (let b := make (Z.of_N (2 ^ 64 - 8)) in
   size b = 0 /\ readerIndex_ b = 8 /\ writerIndex_ b = 8 /\ ~ balanced b).
Proof.
  split.
  - split_and!; [by vm_compute..|].
    intros [_ [_ Hle]]. vm_compute in Hle. by apply Hle.
  - split_and!; [by vm_compute..|].
    intros [_ [_ Hle]]. vm_compute in Hle. by apply Hle.
Qed.

(** C5, amended.  Every buffer obtained from the constructor by a sequence
    of [append], [retrieve], [retrieve_all], [retrieve_as_string],
    [retrieve_all_as_string], [ensure_writable_bytes] and [read_fd] calls
    satisfies readable + prependable + writable = capacity and
    reader <= writer <= capacity, provided the sizes are those a [size_t]
    can hold: the constructor's [kCheapPrepend + initialSize] and each
    [writerIndex_ + len] computed on the way do not wrap around. *)
Theorem buffer_balance (initialSize : N) (ops : list op) :
  kCheapPrepend + Z.of_N initialSize < modulus ->
  all_fit ops (make (Z.of_N initialSize)) ->
  balanced (run ops (make (Z.of_N initialSize))).
Proof.
  intros Hinit Hfit. apply wf_balanced, wf_run; [|done].
  apply wf_make; [lia|done].
Qed.

(** C6, as the specification states it, fails where the sums wrap around.
    The buffer [Buffer(24)] after an [append] of 22 bytes and a [retrieve]
    of 12 has 32 bytes, 2 of them writable and 20 in front of the reader.
    Asked for 2^64 - 1 bytes it has
    writable + prependable < len + kCheapPrepend, yet [make_space] compares
    22 with (2^64 - 1 + 8) mod 2^64 = 7 and compacts: the vector keeps its
    32 bytes, which is not writerIndex_ + len, and 14 of them are
    writable. *)
Lemma ensure_writable_compacts_on_wraparound :
  let b := run [OpAppend (replicate 22 x00); OpRetrieve 12] (make (Z.of_N 24)) in
  let len := Z.of_N (2 ^ 64 - 1) in
  let b' := ensure_writable_bytes len b in
  (size b = 32 /\ readerIndex_ b = 20 /\ writerIndex_ b = 30) /\
  writable_bytes b < len /\
  writable_bytes b + prependable_bytes b < len + kCheapPrepend /\
  size b' = 32 /\ size b' <> writerIndex_ b + len /\
  readerIndex_ b' = kCheapPrepend /\ writable_bytes b' = 14.
Proof.
  intros b len b'. split_and!; by vm_compute.
Qed.

(** C6, amended.  [ensure_writable_bytes len] on a buffer with fewer than
    [len] writable bytes compacts in place when
    writable + prependable >= len + kCheapPrepend (capacity unchanged, the
    readable bytes now start at offset kCheapPrepend), and otherwise,
    provided writerIndex_ + len is representable in a [size_t], resizes the
    vector to exactly writerIndex_ + len; hence a sequence of operations,
    each of whose demands is at most
    writable + prependable - kCheapPrepend, leaves the capacity as it
    was. *)
Theorem ensure_writable_policy :
  (forall (b : t) (len : N),
     wf b -> writable_bytes b < Z.of_N len ->
     let b' := ensure_writable_bytes (Z.of_N len) b in
     (Z.of_N len + kCheapPrepend <= writable_bytes b + prependable_bytes b ->
      size b' = size b /\ readerIndex_ b' = kCheapPrepend /\
      readable b' = readable b /\ Z.of_N len <= writable_bytes b') /\
     (writable_bytes b + prependable_bytes b < Z.of_N len + kCheapPrepend ->
      writerIndex_ b + Z.of_N len < modulus ->
      size b' = writerIndex_ b + Z.of_N len /\
      readerIndex_ b' = readerIndex_ b /\ writerIndex_ b' = writerIndex_ b /\
      readable b' = readable b)) /\
  (forall (b : t) (ops : list op),
     wf b -> all_within ops b -> size (run ops b) = size b).
Proof.
  split; [|apply (fun b ops => size_run_within ops b)].
  intros b len Hwf Hshort b'. subst b'.
  rewrite ensure_writable_short by done. split.
  - intros Hroom.
    destruct (wf_ensure_writable (Z.of_N len) b Hwf ltac:(lia) ltac:(by left)) as [_ Hen].
    rewrite ensure_writable_short in Hen by done.
    rewrite make_space_compact in * by (done || lia).
    split_and!; [| done | | done].
    + unfold size. simpl. by rewrite length_copy_into.
    + apply readable_compacted; [done|unfold kCheapPrepend in *; lia].
  - intros Hnoroom Hfit. rewrite make_space_resize by (done || lia).
    split_and!; [| done | done |].
    + unfold size. simpl. rewrite length_vector_resize. destruct Hwf; buf_unfold; lia.
    + apply readable_resized; [done|].
      rewrite wf_writable in Hshort by done. lia.
Qed.

Lemma buffer_balance_witness :
  balanced (run [OpAppend [x68; x65; x6c; x6c; x6f]; OpRetrieve 2;
                 OpEnsureWritable 2000; OpReadFd (ReadvOk [x01; x02; x03]);
                 OpRetrieveAsString 4; OpRetrieveAllAsString; OpRetrieveAll]
                (make (Z.of_N 1024))).
Proof.
  apply (buffer_balance 1024).
  - vm_compute. reflexivity.
  - vm_compute. repeat split.
Defined.

Lemma wf_example_compact :
  wf {| buffer_ := replicate 32 x00; readerIndex_ := 20; writerIndex_ := 30 |}.
Proof. split; vm_compute; congruence. Qed.

Lemma ensure_writable_policy_witness :
  (let b := {| buffer_ := replicate 32 x00; readerIndex_ := 20; writerIndex_ := 30 |} in
   size (ensure_writable_bytes 10 b) = 32 /\
   size (ensure_writable_bytes 100 b) = 130) /\
  size (run [OpAppend [x01; x02]; OpRetrieve 1; OpEnsureWritable 12]
            {| buffer_ := replicate 32 x00; readerIndex_ := 20; writerIndex_ := 30 |}) = 32.
Proof.
  destruct ensure_writable_policy as [Hpolicy Hkeep].
  split; [split|].
  - destruct (Hpolicy _ 10%N wf_example_compact ltac:(vm_compute; reflexivity)) as [Hc _].
    destruct Hc as [Hsize _]; [vm_compute; congruence|]. exact Hsize.
  - destruct (Hpolicy _ 100%N wf_example_compact ltac:(vm_compute; reflexivity)) as [_ Hr].
    destruct Hr as [Hsize _]; [vm_compute; reflexivity|vm_compute; reflexivity|].
    exact Hsize.
  - apply (Hkeep _ _ wf_example_compact). vm_compute. repeat split; congruence.
Defined.

End BufferFacts.

(** ** Channel *)

Section ChannelFacts.

Import Channel.

Lemma truthy_land_bit (r k : Z) :
  0 <= k -> truthy (Z.land r (2 ^ k)) = Z.testbit r k.
Proof.
  intros Hk. unfold truthy.
  assert (Z.land r (2 ^ k) = if Z.testbit r k then 2 ^ k else 0) as ->.
  { apply Z.bits_inj'. intros n Hn. rewrite Z.land_spec, Z.pow2_bits_eqb by done.
    destruct (Z.eqb_spec k n) as [->|Hne].
    - destruct (Z.testbit r n); [|by rewrite Z.bits_0].
      rewrite Z.pow2_bits_eqb by done. by rewrite Z.eqb_refl.
    - rewrite andb_false_r. destruct (Z.testbit r k); [|by rewrite Z.bits_0].
      rewrite Z.pow2_bits_eqb by done. symmetry. by apply Z.eqb_neq. }
  destruct (Z.testbit r k); [|done].
  assert (0 < 2 ^ k) by (apply Z.pow_pos_nonneg; lia).
  by destruct (Z.eqb_spec (2 ^ k) 0); [lia|].
Qed.

Lemma truthy_lor (a b : Z) : truthy (Z.lor a b) = truthy a || truthy b.
Proof.
  unfold truthy.
  destruct (Z.eqb_spec (Z.lor a b) 0) as [H0|Hn0].
  - apply Z.lor_eq_0_iff in H0 as [-> ->]. done.
  - destruct (Z.eqb_spec a 0) as [->|?]; [|done].
    destruct (Z.eqb_spec b 0) as [->|?]; [|done]. done.
Qed.

Lemma truthy_hup r : truthy (Z.land r EPOLLHUP) = Z.testbit r 4.
Proof. by apply (truthy_land_bit r 4). Qed.

Lemma truthy_err r : truthy (Z.land r EPOLLERR) = Z.testbit r 3.
Proof. by apply (truthy_land_bit r 3). Qed.

Lemma truthy_out r : truthy (Z.land r EPOLLOUT) = Z.testbit r 2.
Proof. by apply (truthy_land_bit r 2). Qed.

Lemma truthy_in r : truthy (Z.land r EPOLLIN) = Z.testbit r 0.
Proof. by apply (truthy_land_bit r 0). Qed.

Lemma truthy_pri r : truthy (Z.land r EPOLLPRI) = Z.testbit r 1.
Proof. by apply (truthy_land_bit r 1). Qed.

Lemma truthy_in_pri r :
  truthy (Z.land r (Z.lor EPOLLIN EPOLLPRI)) = Z.testbit r 0 || Z.testbit r 1.
Proof. by rewrite Z.land_lor_distr_r, truthy_lor, truthy_in, truthy_pri. Qed.

(** The calls of a dispatch are those that are due, in the fixed order
    close, error, read, write. *)
Lemma handle_event_with_guard_due recvTime c :
  handle_event_with_guard recvTime c =
  filter (fun k => due c k = true) [CallClose; CallError; CallRead recvTime; CallWrite].
Proof.
  unfold handle_event_with_guard.
  rewrite truthy_hup, truthy_in, truthy_err, truthy_in_pri, truthy_out.
  rewrite !filter_cons, filter_nil. unfold due.
  destruct (Z.testbit (revents_ c) 0), (Z.testbit (revents_ c) 1),
    (Z.testbit (revents_ c) 2), (Z.testbit (revents_ c) 3),
    (Z.testbit (revents_ c) 4), (closeCallback_ c), (errorCallback_ c),
    (readCallBack_ c), (writeCallback_ c); reflexivity.
Qed.

(** C4.  For every ready mask the dispatch calls, in this order, the close
    callback iff hang-up is set and readable is not, the error callback iff
    error is set, the read callback (with the receipt time) iff readable or
    priority-readable is set, and the write callback iff writable is set,
    each only when installed; [handle_event] does the same unless the
    channel is tied to an owner that is gone. *)
Theorem channel_dispatch_order (recvTime : Z) (c : Channel.t) :
  let calls := handle_event_with_guard recvTime c in
  calls = filter (fun k => due c k = true)
                 [CallClose; CallError; CallRead recvTime; CallWrite] /\
  (forall k, k ∈ calls <->
     k ∈ [CallClose; CallError; CallRead recvTime; CallWrite] /\ due c k = true) /\
  handle_event recvTime c = (if tied_ c && negb (tie_alive c) then [] else calls).
Proof.
  simpl. split_and!.
  - apply handle_event_with_guard_due.
  - intros k. rewrite handle_event_with_guard_due, list_elem_of_filter. tauto.
  - unfold handle_event. by destruct (tied_ c), (tie_alive c).
Qed.

End ChannelFacts.

(** ** Poller *)

Section PollerFacts.

Import Poller.

Lemma set_index_same i c : Channel.index_ c = i -> Channel.set_index i c = c.
Proof. destruct c. simpl. by intros ->. Qed.

Lemma update_channel_new a c p :
  Channel.index_ c = kNew ->
  update_channel a c p =
    (Channel.set_index kAdded c,
     {| channels_ := <[Channel.fd_ c := a]> (channels_ p);
        calls := calls p ++ [mk_ctl EPOLL_CTL_ADD (Channel.fd_ c) (Channel.events_ c) a] |}).
Proof. unfold update_channel. by intros ->. Qed.

Lemma update_channel_deleted a c p :
  Channel.index_ c = kDeleted ->
  update_channel a c p =
    (Channel.set_index kAdded c,
     {| channels_ := channels_ p;
        calls := calls p ++ [mk_ctl EPOLL_CTL_ADD (Channel.fd_ c) (Channel.events_ c) a] |}).
Proof. unfold update_channel. by intros ->. Qed.

Lemma update_channel_added a c p :
  Channel.index_ c = kAdded ->
  update_channel a c p =
    if Channel.is_none_event c
    then (Channel.set_index kDeleted c,
          {| channels_ := channels_ p;
             calls := calls p ++ [mk_ctl EPOLL_CTL_DEL (Channel.fd_ c) (Channel.events_ c) a] |})
    else (c,
          {| channels_ := channels_ p;
             calls := calls p ++ [mk_ctl EPOLL_CTL_MOD (Channel.fd_ c) (Channel.events_ c) a] |}).
Proof. unfold update_channel. by intros ->. Qed.

Lemma remove_channel_registered a c p :
  registered a c p ->
  remove_channel a c p =
    (Channel.set_index kNew c,
     {| channels_ := delete (Channel.fd_ c) (channels_ p);
        calls := calls p ++
                 (if Channel.index_ c =? kAdded
                  then [mk_ctl EPOLL_CTL_DEL (Channel.fd_ c) (Channel.events_ c) a]
                  else []) |}).
Proof.
  intros Hreg. unfold remove_channel.
  destruct (channels_ p !! Channel.fd_ c) as [a'|] eqn:Hfd.
  - unfold set_channels, update. simpl.
    destruct (Channel.index_ c =? kAdded); simpl; [done|by rewrite app_nil_r].
  - assert (Channel.index_ c = kNew) as Hnew.
    { destruct (decide (Channel.index_ c = kNew)) as [|Hne]; [done|].
      specialize (Hreg Hne). congruence. }
    rewrite set_index_same by done. rewrite delete_id by done.
    rewrite Hnew. simpl. rewrite app_nil_r. by destruct p.
Qed.

Lemma remove_channel_absent a c p :
  channels_ p !! Channel.fd_ c = None -> remove_channel a c p = (c, p).
Proof. unfold remove_channel. by intros ->. Qed.

(** [registered] is kept by the poller's own operations on the channel. *)
Lemma registered_update_channel a c p :
  registered a c p ->
  registered a (update_channel a c p).1 (update_channel a c p).2.
Proof.
  unfold registered, update_channel. intros Hreg.
  destruct (Z.eqb_spec (Channel.index_ c) kNew) as [Hn|Hn]; simpl.
  - intros _. apply lookup_insert_eq.
  - destruct (Z.eqb_spec (Channel.index_ c) kDeleted); simpl; [auto|].
    destruct (Channel.is_none_event c); simpl; auto.
Qed.

Lemma registered_remove_channel a c p :
  registered a c p ->
  registered a (remove_channel a c p).1 (remove_channel a c p).2.
Proof.
  unfold registered, remove_channel. intros Hreg.
  destruct (channels_ p !! Channel.fd_ c) eqn:Hfd; simpl; [done|].
  intros Hne. specialize (Hreg Hne). congruence.
Qed.

(** ... and by its operations on a channel with another descriptor. *)
Lemma registered_update_other a c a' c' p :
  Channel.fd_ c' <> Channel.fd_ c ->
  registered a c p -> registered a c (update_channel a' c' p).2.
Proof.
  unfold registered, update_channel. intros Hfd Hreg Hne.
  destruct (Z.eqb_spec (Channel.index_ c') kNew); simpl.
  - rewrite lookup_insert_ne by done. auto.
  - destruct (Z.eqb_spec (Channel.index_ c') kDeleted); simpl; [auto|].
    destruct (Channel.is_none_event c'); simpl; auto.
Qed.

Lemma registered_remove_other a c a' c' p :
  Channel.fd_ c' <> Channel.fd_ c ->
  registered a c p -> registered a c (remove_channel a' c' p).2.
Proof.
  unfold registered, remove_channel. intros Hfd Hreg Hne.
  destruct (channels_ p !! Channel.fd_ c'); simpl; [|auto].
  destruct (Channel.index_ c' =? kAdded); simpl; rewrite lookup_delete_ne by done; auto.
Qed.

Lemma registered_make a fd p : registered a (Channel.make fd) p.
Proof. unfold registered. simpl. done. Qed.

Lemma served_registered a c p : served a c p -> registered a c p.
Proof.
  induction 1.
  - apply registered_make.
  - done.
  - done.
  - by apply registered_update_channel.
  - by apply registered_remove_channel.
  - by apply registered_update_other.
  - by apply registered_remove_other.
Qed.

Lemma update_channel_fields a c p :
  Channel.fd_ (Poller.update_channel a c p).1 = Channel.fd_ c /\
  Channel.events_ (Poller.update_channel a c p).1 = Channel.events_ c.
Proof. unfold Poller.update_channel. by repeat case_match. Qed.

Lemma remove_channel_fields a c p :
  Channel.fd_ (Poller.remove_channel a c p).1 = Channel.fd_ c /\
  Channel.events_ (Poller.remove_channel a c p).1 = Channel.events_ c.
Proof. unfold Poller.remove_channel. by repeat case_match. Qed.

(** C7, as the specification states it, fails: [remove_channel] acts only
    when the channel's descriptor is a key of the map.  Two channels are
    registered on descriptor 5 and the second is removed, which erases the
    key; [remove_channel] on the first, still tagged [kAdded], then erases
    nothing, issues no DEL and leaves the tag [kAdded]. *)
Lemma remove_channel_skips_unmapped :
  let first := update_channel 1%positive (Channel.enable_reading (Channel.make 5)) make in
  let second := update_channel 2%positive (Channel.enable_reading (Channel.make 5)) first.2 in
  let p := (remove_channel 2%positive second.1 second.2).2 in
  let c := first.1 in
  Channel.index_ c = kAdded /\
  channels_ p !! Channel.fd_ c = None /\
  remove_channel 1%positive c p = (c, p) /\
  Channel.index_ (remove_channel 1%positive c p).1 <> kNew /\
  calls (remove_channel 1%positive c p).2 = calls p.
Proof.
  intros first second p c. by vm_compute.
Qed.

(** C7, amended.  [update_channel] on a [kNew] channel inserts it into the
    map, tags it [kAdded] and issues ADD; on a [kDeleted] channel it tags
    it [kAdded] and issues ADD, the map being left alone; on a [kAdded]
    channel it issues DEL and tags it [kDeleted] when the interest mask is
    empty, and issues MOD leaving the tag otherwise.  [remove_channel],
    when the channel's descriptor is a key of the map, erases that key,
    issues DEL iff the tag was [kAdded], and tags the channel [kNew]; when
    the descriptor is not a key it does nothing. *)
Theorem poller_transitions (a : ptr) (c : Channel.t) (p : Poller.t) :
  (Channel.index_ c = kNew ->
   update_channel a c p =
     (Channel.set_index kAdded c,
      {| channels_ := <[Channel.fd_ c := a]> (channels_ p);
         calls := calls p ++ [mk_ctl EPOLL_CTL_ADD (Channel.fd_ c) (Channel.events_ c) a] |})) /\
  (Channel.index_ c = kDeleted ->
   update_channel a c p =
     (Channel.set_index kAdded c,
      {| channels_ := channels_ p;
         calls := calls p ++ [mk_ctl EPOLL_CTL_ADD (Channel.fd_ c) (Channel.events_ c) a] |})) /\
  (Channel.index_ c = kAdded -> Channel.events_ c = 0 ->
   update_channel a c p =
     (Channel.set_index kDeleted c,
      {| channels_ := channels_ p;
         calls := calls p ++ [mk_ctl EPOLL_CTL_DEL (Channel.fd_ c) (Channel.events_ c) a] |})) /\
  (Channel.index_ c = kAdded -> Channel.events_ c <> 0 ->
   update_channel a c p =
     (c,
      {| channels_ := channels_ p;
         calls := calls p ++ [mk_ctl EPOLL_CTL_MOD (Channel.fd_ c) (Channel.events_ c) a] |})) /\
  (is_Some (channels_ p !! Channel.fd_ c) ->
   remove_channel a c p =
     (Channel.set_index kNew c,
      {| channels_ := delete (Channel.fd_ c) (channels_ p);
         calls := calls p ++
                  (if Channel.index_ c =? kAdded
                   then [mk_ctl EPOLL_CTL_DEL (Channel.fd_ c) (Channel.events_ c) a]
                   else []) |})) /\
  (channels_ p !! Channel.fd_ c = None -> remove_channel a c p = (c, p)).
Proof.
  split_and!.
  - apply update_channel_new.
  - apply update_channel_deleted.
  - intros Hadded Hnone. rewrite update_channel_added by done.
    unfold Channel.is_none_event, Channel.KNoneEvent. by rewrite Hnone.
  - intros Hadded Hsome. rewrite update_channel_added by done.
    unfold Channel.is_none_event, Channel.KNoneEvent.
    by destruct (Z.eqb_spec (Channel.events_ c) 0).
  - intros [a' Hkey]. unfold remove_channel. rewrite Hkey.
    unfold set_channels, update. simpl.
    destruct (Channel.index_ c =? kAdded); simpl; [done|by rewrite app_nil_r].
  - apply remove_channel_absent.
Qed.

Lemma poller_transitions_witness :
  let c := Channel.enable_reading (Channel.make 5) in
  let added := Channel.set_index kAdded c in
  let p := {| channels_ := <[5 := 1%positive]> ∅; calls := [] |} in
  (update_channel 1%positive c make).1 = added /\
  (update_channel 1%positive (Channel.set_index kDeleted c) p).1 = added /\
  (update_channel 1%positive (Channel.disable_all added) p).1 =
    Channel.set_index kDeleted (Channel.disable_all added) /\
  (update_channel 1%positive added p).1 = added /\
  (remove_channel 1%positive added p).1 = Channel.set_index kNew added /\
  remove_channel 1%positive added make = (added, make).
Proof.
  intros c added p. split_and!.
  - destruct (poller_transitions 1%positive c make) as [H _].
    by rewrite H.
  - destruct (poller_transitions 1%positive (Channel.set_index kDeleted c) p) as (_ & H & _).
    by rewrite H.
  - destruct (poller_transitions 1%positive (Channel.disable_all added) p) as (_ & _ & H & _).
    by rewrite H.
  - destruct (poller_transitions 1%positive added p) as (_ & _ & _ & H & _).
    rewrite H; [done|done|vm_compute; congruence].
  - destruct (poller_transitions 1%positive added p) as (_ & _ & _ & _ & H & _).
    rewrite H; [done|]. eexists. apply lookup_insert_eq.
  - destruct (poller_transitions 1%positive added make) as (_ & _ & _ & _ & _ & H).
    apply H. apply lookup_empty.
Defined.

(** C8, as the specification states it, fails: a channel whose descriptor is a key
    of the map, but which is not the object stored under it, is not
    reported. *)
Lemma has_channel_compares_pointers :
  let p := (update_channel 1%positive (Channel.enable_reading (Channel.make 5)) make).2 in
  let other := Channel.make 5 in
  is_Some (channels_ p !! Channel.fd_ other) /\
  has_channel 2%positive other p = false /\
  ~ (forall (a : ptr) (c : Channel.t) (q : Poller.t),
       is_Some (channels_ q !! Channel.fd_ c) -> has_channel a c q = true).
Proof.
  intros p other.
  assert (Hlook : channels_ p !! Channel.fd_ other = Some 1%positive)
    by apply lookup_insert_eq.
  assert (Hhas : has_channel 2%positive other p = false).
  { unfold has_channel. rewrite Hlook. by apply bool_decide_eq_false. }
  split_and!; [by eexists|done|].
  intros Hall. specialize (Hall 2%positive other p (ex_intro _ _ Hlook)).
  congruence.
Qed.

(** C8, amended.  [has_channel] reports a channel exactly when the map
    holds this very object under the channel's descriptor. *)
Theorem has_channel_spec (a : ptr) (c : Channel.t) (p : Poller.t) :
  has_channel a c p = true <-> channels_ p !! Channel.fd_ c = Some a.
Proof.
  unfold has_channel. destruct (channels_ p !! Channel.fd_ c) as [a'|]; [|done].
  rewrite bool_decide_eq_true. split; congruence.
Qed.

End PollerFacts.

(** ** Round robin *)

Section PoolFacts.

Import Pool.

Lemma get_next_loop_base p : loops_ p = [] -> get_next_loop p = (baseLoop_ p, p).
Proof. unfold get_next_loop. by intros ->. Qed.

Lemma get_next_loop_worker p :
  let n := Z.of_nat (length (loops_ p)) in
  1 <= n -> 0 <= next_ p < n ->
  get_next_loop p =
    (nth (Z.to_nat (next_ p)) (loops_ p) (baseLoop_ p),
     {| baseLoop_ := baseLoop_ p; loops_ := loops_ p;
        next_ := (next_ p + 1) mod n |}).
Proof.
  intros n Hn Hnext. unfold get_next_loop.
  destruct (loops_ p) as [|l ls] eqn:Hl; [simpl in *; lia|]. fold n.
  f_equal. f_equal.
  destruct (Z.geb_spec (next_ p + 1) n).
  - replace (next_ p + 1) with n by lia. by rewrite Z_mod_same_full.
  - by rewrite Z.mod_small by lia.
Qed.

Lemma owned_new_connection l s :
  owned l (new_connection s) =
  owned l s + (if decide ((get_next_loop (threadPool_ s)).1 = l) then 1 else 0).
Proof.
  unfold new_connection, owned.
  destruct (get_next_loop (threadPool_ s)) as [ioLoop pool]. simpl.
  rewrite filter_cons. simpl. destruct (decide (ioLoop = l)); simpl; lia.
Qed.

Lemma pool_new_connection s :
  threadPool_ (new_connection s) = (get_next_loop (threadPool_ s)).2.
Proof.
  unfold new_connection. by destruct (get_next_loop (threadPool_ s)).
Qed.

(** With the cursor [d] steps before worker [i], the next [m] accepts give
    that worker (m + n - 1 - d) / n connections. *)
Lemma owned_accepts (m : nat) : forall (s : server) (i d : Z),
  let p := threadPool_ s in
  let n := Z.of_nat (length (loops_ p)) in
  NoDup (loops_ p) ->
  0 <= next_ p < n -> 0 <= i < n ->
  0 <= d < n -> (d = i - next_ p \/ d = i - next_ p + n) ->
  owned (nth (Z.to_nat i) (loops_ p) (baseLoop_ p)) (accepts m s) =
  owned (nth (Z.to_nat i) (loops_ p) (baseLoop_ p)) s + (Z.of_nat m + n - 1 - d) / n.
Proof.
  induction m as [|m IH]; intros s i d p n Hnd Hnext Hi Hd Hdist.
  { simpl. rewrite Z.div_small by lia. lia. }
  simpl accepts.
  assert (Hstep := get_next_loop_worker p ltac:(fold n; lia) Hnext). fold n in Hstep.
  assert (Hpool := pool_new_connection s). fold p in Hpool. rewrite Hstep in Hpool.
  simpl in Hpool.
  assert (Hcur : (next_ p + 1) mod n = if decide (next_ p + 1 = n) then 0 else next_ p + 1).
  { case_decide as Hc; [rewrite Hc; apply Z_mod_same_full|apply Z.mod_small; lia]. }
  specialize (IH (new_connection s) i (if decide (d = 0) then n - 1 else d - 1)).
  rewrite Hpool in IH. simpl in IH. fold n in IH. rewrite Hcur in IH.
  rewrite IH;
    [|done
     |by destruct (decide (next_ p + 1 = n)); lia
     |done
     |by destruct (decide (d = 0)); lia
     |by destruct (decide (d = 0)), (decide (next_ p + 1 = n)); lia].
  rewrite owned_new_connection. fold p. rewrite Hstep. simpl.
  destruct (decide (d = 0)) as [->|Hd0].
  - assert (next_ p = i) as -> by lia.
    rewrite decide_True by done.
    replace (Z.of_nat (S m) + n - 1 - 0) with (Z.of_nat m + 1 * n) by lia.
    rewrite Z.div_add by lia.
    replace (Z.of_nat m + n - 1 - (n - 1)) with (Z.of_nat m) by lia. lia.
  - rewrite decide_False.
    + replace (Z.of_nat (S m) + n - 1 - d) with (Z.of_nat m + n - 1 - (d - 1)) by lia. lia.
    + intros Heq. apply NoDup_nth in Heq; [lia|by apply NoDup_ListNoDup|unfold n in *; lia..].
Qed.

(** C9.  Without workers [get_next_loop] returns the base loop; with n >= 1
    workers it returns [loops_[next_]] and moves the cursor to
    (next_ + 1) mod n; so of m connections accepted in a row each worker
    gets floor(m / n) or ceil(m / n). *)
Theorem round_robin_fairness :
  (forall p : Pool.t, loops_ p = [] -> get_next_loop p = (baseLoop_ p, p)) /\
  (forall p : Pool.t,
     let n := Z.of_nat (length (loops_ p)) in
     1 <= n -> 0 <= next_ p < n ->
     get_next_loop p =
       (nth (Z.to_nat (next_ p)) (loops_ p) (baseLoop_ p),
        {| baseLoop_ := baseLoop_ p; loops_ := loops_ p;
           next_ := (next_ p + 1) mod n |})) /\
  (forall (s : server) (m : nat) (l : loop),
     let p := threadPool_ s in
     let n := Z.of_nat (length (loops_ p)) in
     NoDup (loops_ p) -> 0 <= next_ p < n -> l ∈ loops_ p ->
     let received := owned l (accepts m s) - owned l s in
     received = Z.of_nat m / n \/ received = (Z.of_nat m + n - 1) / n).
Proof.
  split_and!; [apply get_next_loop_base|apply get_next_loop_worker|].
  intros s m l p n Hnd Hnext Hl received.
  apply list_elem_of_In, (In_nth _ _ (baseLoop_ p)) in Hl as (k & Hk & <-).
  set (i := Z.of_nat k).
  set (d := if decide (next_ p <= i) then i - next_ p else i - next_ p + n).
  assert (Hown := owned_accepts m s i d Hnd Hnext ltac:(fold p n; lia)
                    ltac:(fold p n; unfold d; case_decide; lia)
                    ltac:(fold p; unfold d; case_decide; lia)).
  fold p n in Hown. unfold i in Hown at 1 2. rewrite Nat2Z.id in Hown.
  unfold received. rewrite Hown.
  assert (Hd : 0 <= d < n) by (unfold d; case_decide; lia).
  assert (Z.of_nat m / n <= (Z.of_nat m + n - 1 - d) / n) by (apply Z.div_le_mono; lia).
  assert ((Z.of_nat m + n - 1 - d) / n <= (Z.of_nat m + n - 1) / n) by (apply Z.div_le_mono; lia).
  assert ((Z.of_nat m + n - 1) / n <= Z.of_nat m / n + 1).
  { replace (Z.of_nat m / n + 1) with ((Z.of_nat m + 1 * n) / n)
      by (rewrite Z.div_add; lia).
    apply Z.div_le_mono; lia. }
  lia.
Qed.

Lemma round_robin_fairness_witness :
  let s := {| threadPool_ := started 9%positive [1; 2; 3; 4]%positive;
              nextConnId_ := 1; connections_ := [] |} in
  (get_next_loop (threadPool_ s)).1 = 1%positive /\
  (owned 3%positive (accepts 8 s) - owned 3%positive s = 8 / 4 \/
   owned 3%positive (accepts 8 s) - owned 3%positive s = (8 + 4 - 1) / 4).
Proof.
  intros s. destruct round_robin_fairness as (_ & Hnext & Hfair). split.
  - rewrite (Hnext (threadPool_ s)); [done|simpl; lia|simpl; lia].
  - apply (Hfair s 8%nat 3%positive).
    + compute_done.
    + simpl. lia.
    + compute_done.
Defined.

End PoolFacts.

(** ** TcpConnection *)

Section ConnFacts.

Import Conn.

(** *** The write-interest bit *)

Lemma is_writing_event_bit c :
  Channel.is_writing_event c = Z.testbit (Channel.events_ c) 2.
Proof. apply truthy_out. Qed.

Lemma is_writing_enable_writing c :
  Channel.is_writing_event (Channel.enable_writing c) = true.
Proof.
  rewrite is_writing_event_bit.
  unfold Channel.enable_writing, Channel.set_events. cbn [Channel.events_].
  rewrite Z.lor_spec. by rewrite orb_true_r.
Qed.

Lemma is_writing_disable_writing c :
  Channel.is_writing_event (Channel.disable_writing c) = false.
Proof.
  rewrite is_writing_event_bit.
  unfold Channel.disable_writing, Channel.set_events. cbn [Channel.events_].
  rewrite Z.land_spec. by rewrite andb_false_r.
Qed.

Lemma is_writing_enable_reading c :
  Channel.is_writing_event (Channel.enable_reading c) = Channel.is_writing_event c.
Proof.
  rewrite !is_writing_event_bit.
  unfold Channel.enable_reading, Channel.set_events. cbn [Channel.events_].
  rewrite Z.lor_spec. by rewrite orb_false_r.
Qed.

Lemma is_writing_tie c :
  Channel.is_writing_event (Channel.tie c) = Channel.is_writing_event c.
Proof. done. Qed.

(** *** What the pieces of the send path leave alone *)

Lemma core_emit e w : core (emit e w) = core w.
Proof. done. Qed.

Lemma core_queue_in_loop il f w : core (queue_in_loop il f w) = core w.
Proof. unfold queue_in_loop, wakeup. by case_match. Qed.

Lemma core_sys_write data w : core (sys_write data w).2 = core w.
Proof. unfold sys_write. by repeat case_match. Qed.

Lemma core_direct_write bytes len w : core (direct_write bytes len w).2 = core w.
Proof.
  unfold direct_write. case_match; [|done].
  destruct (sys_write bytes w) as [[n errno] w1] eqn:Hw.
  assert (Hc : core w1 = core w) by (by rewrite <- (core_sys_write bytes w), Hw).
  repeat case_match; simpl; by rewrite ?core_queue_in_loop, ?core_emit.
Qed.

Lemma armed_core w w' : core w' = core w -> armed w -> armed w'.
Proof.
  unfold core, armed, is_writing. intros Hc Harm.
  injection Hc as -> -> ->. done.
Qed.

Lemma armed_writing w :
  Channel.is_writing_event (connChannel_ w) = true -> armed w.
Proof. unfold armed, is_writing. auto. Qed.

Lemma armed_buffer_remainder bytes nwrote remaining w :
  armed (buffer_remainder bytes nwrote remaining w).
Proof.
  unfold buffer_remainder. 
  set (w1 := if crosses_high_water_mark _ _ _ then _ else _).
  set (w2 := set_output _ w1).
  destruct (is_writing w2) eqn:Hw; simpl.
  - by apply armed_writing.
  - apply armed_writing. simpl. apply is_writing_enable_writing.
Qed.

Lemma armed_send_in_loop data len w : armed w -> armed (send_in_loop data len w).
Proof.
  intros Harm. unfold send_in_loop.
  destruct (state_ w) eqn:Hst; try (by apply (armed_core w)).
  all: destruct (load data len w) as [bytes|]; [|by apply (armed_core w)].
  all: assert (Hc := core_direct_write bytes len w).
  all: destruct (direct_write bytes len w) as [[[nwrote remaining] fault] w1].
  all: case_match; [apply armed_buffer_remainder|by apply (armed_core w)].
Qed.

Lemma armed_shut_down_in_loop w : armed w -> armed (shut_down_in_loop w).
Proof.
  intros Harm. unfold shut_down_in_loop. case_match; [|done].
  by apply (armed_core w).
Qed.

Lemma armed_run_functor f w : armed w -> armed (run_functor f w).
Proof.
  intros Harm. destruct f; simpl.
  - by apply armed_send_in_loop.
  - by apply armed_shut_down_in_loop.
  - by apply (armed_core w).
  - by apply (armed_core w).
Qed.

Lemma armed_run_functors fs : forall w,
  armed w -> armed (foldl (fun w f => run_functor f w) w fs).
Proof.
  induction fs as [|f fs IH]; intros w Harm; [done|].
  simpl. by apply IH, armed_run_functor.
Qed.

Lemma armed_do_pending_functors w : armed w -> armed (do_pending_functors w).
Proof.
  intros Harm. unfold do_pending_functors.
  set (w1 := set_pending [] (set_calling true w)).
  apply (armed_core (foldl (fun w f => run_functor f w) w1 (pendingFunctors_ w))); [done|].
  apply armed_run_functors. by apply (armed_core w).
Qed.

Lemma armed_send il buf w : armed w -> armed (send il buf w).
Proof.
  intros Harm. unfold send. destruct (state_ w) eqn:Hst; try done.
  destruct (heap w !! buf) as [s|]; [|by apply (armed_core w)].
  destruct il; simpl.
  - by apply armed_send_in_loop.
  - apply (armed_core w); [|done]. apply core_queue_in_loop.
Qed.

Lemma armed_shut_down il w : armed w -> armed (shut_down il w).
Proof.
  intros Harm. unfold shut_down. destruct (state_ w) eqn:Hst; try done.
  assert (Harm' : armed (set_state kDisconnecting w)).
  { unfold armed, is_writing in *. simpl. intros _. apply Harm. by rewrite Hst. }
  destruct il; simpl.
  - by apply armed_shut_down_in_loop.
  - eapply armed_core; [|exact Harm']. apply core_queue_in_loop.
Qed.

Lemma armed_disconnected w : state_ w = kDisconnected -> armed w.
Proof. unfold armed. by intros ->. Qed.

Lemma armed_handle_close w : armed (handle_close w).
Proof.
  apply armed_disconnected. unfold handle_close, invoke.
  by repeat case_match.
Qed.

Lemma armed_handle_read recvTime r w : armed w -> armed (handle_read recvTime r w).
Proof.
  intros Harm. unfold handle_read.
  destruct (Buffer.read_fd r (inputBuffer_ w)) as [[n e] b].
  repeat case_match.
  - unfold invoke. by case_match; apply (armed_core w).
  - apply armed_handle_close.
  - by apply (armed_core w).
Qed.

Lemma armed_handle_write w : armed w -> armed (handle_write w).
Proof.
  intros Harm. unfold handle_write.
  destruct (is_writing w) eqn:Hw; [|by apply (armed_core w)].
  assert (Hc := core_sys_write (Buffer.readable (outputBuffer_ w)) w).
  destruct (sys_write (Buffer.readable (outputBuffer_ w)) w) as [[n e] w1].
  simpl in Hc. injection Hc as Hst Hout Hch.
  destruct (0 <? n); [|by apply (armed_core w); [unfold core; simpl; congruence|]].
  simpl.
  destruct (Z.eqb_spec (Buffer.readable_bytes (Buffer.retrieve n (outputBuffer_ w1))) 0)
    as [Hzero|Hrest].
  - assert (forall w', outputBuffer_ w' = Buffer.retrieve n (outputBuffer_ w1) -> armed w')
      as Hdrained by (intros w' Ho; unfold armed; rewrite Ho; tauto).
    repeat case_match; apply Hdrained; unfold shut_down_in_loop, queue_in_loop, wakeup;
      by repeat case_match.
  - apply armed_writing. simpl. unfold is_writing in Hw. congruence.
Qed.

Lemma armed_connect_Established w :
  state_ w = kConnecting -> armed w -> armed (connect_Established w).
Proof.
  intros Hst Harm.
  assert (Hbase : forall w', core w' =
            (kConnected, outputBuffer_ w,
             Channel.enable_reading (Channel.tie (connChannel_ w))) -> armed w').
  { unfold armed, is_writing, core. intros w' Hc. injection Hc as -> -> ->.
    intros _ Hne. rewrite is_writing_enable_reading, is_writing_tie.
    apply Harm; [by rewrite Hst|done]. }
  unfold connect_Established. case_match; by apply Hbase.
Qed.

Lemma armed_connect_destroyed w : armed w -> armed (connect_destroyed w).
Proof.
  intros Harm. unfold connect_destroyed.
  destruct (state_ w) eqn:Hst; try (by apply (armed_core w)).
  apply armed_disconnected. by case_match.
Qed.

Lemma armed_send_message il message w : armed w -> armed (send_message il message w).
Proof.
  intros Harm. unfold send_message.
  eapply armed_core; [|apply (armed_send il), (armed_core w); [|exact Harm]]; done.
Qed.

Lemma armed_step w w' : step w w' -> armed w -> armed w'.
Proof.
  destruct 1; intros Harm.
  - by apply armed_connect_Established.
  - by apply armed_send.
  - by apply armed_send_message.
  - by apply armed_shut_down.
  - by apply armed_handle_read.
  - by apply armed_handle_write.
  - apply armed_handle_close.
  - by apply (armed_core w).
  - by apply armed_do_pending_functors.
  - by apply armed_connect_destroyed.
  - by apply (armed_core w).
  - by apply (armed_core w).
  - by apply (armed_core w).
  - by apply (armed_core w).
  - by apply (armed_core w).
  - by apply (armed_core w).
Qed.

Lemma armed_fresh w : fresh_connection w -> armed w.
Proof.
  intros (sockfd & h & k & c1 & c2 & c3 & c4 & ->).
  unfold armed. simpl. intros _ Hne. by destruct Hne.
Qed.

(** Every connection the server makes keeps write interest while output
    is pending. *)
Lemma reachable_armed w : reachable w -> armed w.
Proof.
  induction 1 as [w Hf|w w' _ IH Hstep]; [by apply armed_fresh|by eapply armed_step].
Qed.

(** *** Sends on a connection that is not connected *)

Lemma state_shut_down il w : state_ (shut_down il w) <> kConnected.
Proof.
  unfold shut_down. destruct (state_ w) eqn:Hst; try (by rewrite Hst).
  unfold run_in_loop, run_functor, shut_down_in_loop.
  destruct il; simpl.
  - by case_match.
  - done.
Qed.

Lemma send_not_connected il buf w : state_ w <> kConnected -> send il buf w = w.
Proof. unfold send. by destruct (state_ w). Qed.

Lemma send_message_not_connected il message w :
  state_ w <> kConnected -> send_message il message w = w.
Proof.
  intros Hst. unfold send_message. rewrite send_not_connected by done.
  destruct w. unfold set_heap. simpl. f_equal.
  apply delete_insert_dom, is_fresh.
Qed.

(** C10.  On a connection whose state is not [kConnected], [send] (either
    overload, from any thread) changes nothing: no write, no change to the
    output buffer or the channel, nothing queued, called or logged.  This
    is so in particular after [shut_down], whatever is still pending in the
    output buffer. *)
Theorem send_not_connected_noop (il : bool) (buf : ptr) (message : list byte) (w : Conn.t) :
  (state_ w <> kConnected ->
   send il buf w = w /\ send_message il message w = w) /\
  (forall il' : bool,
     send il buf (shut_down il' w) = shut_down il' w /\
     send_message il message (shut_down il' w) = shut_down il' w).
Proof.
  split.
  - intros Hst. split; [by apply send_not_connected|by apply send_message_not_connected].
  - intros il'. split.
    + apply send_not_connected, state_shut_down.
    + apply send_message_not_connected, state_shut_down.
Qed.

Lemma send_not_connected_noop_witness :
  send false 1%positive demo_half_closed = demo_half_closed /\
  send_message true hello demo_fresh = demo_fresh.
Proof.
  split.
  - destruct (send_not_connected_noop false 1%positive hello demo_half_closed) as [H _].
    apply H. vm_compute. discriminate.
  - destruct (send_not_connected_noop true 1%positive hello demo_fresh) as [H _].
    apply H. vm_compute. discriminate.
Defined.

(** *** Traces *)

Ltac not_in_list :=
  let H := fresh in
  intros H;
  repeat (apply elem_of_cons in H as [H|H]; [discriminate H|]);
  by apply elem_of_nil in H.

Lemma since_app w w' evs : trace w' = trace w ++ evs -> since w w' = evs.
Proof. unfold since. intros ->. by rewrite drop_app_length. Qed.

Lemma extends_refl w : extends w w.
Proof. exists []. by rewrite app_nil_r. Qed.

Lemma extends_trans w1 w2 w3 : extends w1 w2 -> extends w2 w3 -> extends w1 w3.
Proof.
  intros [e1 H1] [e2 H2]. exists (e1 ++ e2). by rewrite H2, H1, app_assoc.
Qed.

Lemma since_trans w1 w2 w3 :
  extends w1 w2 -> extends w2 w3 -> since w1 w3 = since w1 w2 ++ since w2 w3.
Proof.
  intros [e1 H1] [e2 H2].
  rewrite (since_app w1 w2 e1), (since_app w2 w3 e2) by done.
  apply since_app. by rewrite H2, H1, app_assoc.
Qed.

Lemma trace_queue_in_loop il f w :
  trace (queue_in_loop il f w) =
  trace w ++ EvQueueInLoop f ::
    (if negb il || callingPendingFunctors_ w then [EvWakeup] else []).
Proof.
  unfold queue_in_loop, wakeup. simpl.
  destruct (negb il || callingPendingFunctors_ w); simpl; [|done].
  by rewrite <- app_assoc.
Qed.

Lemma trace_sys_write data w :
  trace (sys_write data w).2 = trace w ++ [EvWrite data (sys_write data w).1.1].
Proof. unfold sys_write. by repeat case_match. Qed.

Lemma trace_shut_down_in_loop w :
  trace (shut_down_in_loop w) =
  trace w ++ (if is_writing w then [] else [EvShutdownWrite]).
Proof.
  unfold shut_down_in_loop. destruct (is_writing w); simpl; [|done].
  by rewrite app_nil_r.
Qed.

Lemma mark_queue_in_loop il f w :
  highWaterMark_ (queue_in_loop il f w) = highWaterMark_ w /\
  highWaterMarkCallback_ (queue_in_loop il f w) = highWaterMarkCallback_ w.
Proof. unfold queue_in_loop, wakeup. by case_match. Qed.

(** The direct write leaves the buffer, the mark and its callback alone,
    and queues no high-water-mark callback. *)
Lemma direct_write_frame bytes len w nwrote remaining faultError w1 :
  direct_write bytes len w = (nwrote, remaining, faultError, w1) ->
  core w1 = core w /\
  highWaterMark_ w1 = highWaterMark_ w /\
  highWaterMarkCallback_ w1 = highWaterMarkCallback_ w /\
  exists evs, trace w1 = trace w ++ evs /\ no_high_water_mark evs.
Proof.
  unfold direct_write. intros Hdw.
  destruct (negb (is_writing w) && (Buffer.readable_bytes (outputBuffer_ w) =? 0)).
  2:{ injection Hdw as <- <- <- <-. split_and!; try done.
      exists []. split; [by rewrite app_nil_r|]. intros k. not_in_list. }
  assert (Htr := trace_sys_write bytes w).
  assert (Hfr : core (sys_write bytes w).2 = core w /\
                highWaterMark_ (sys_write bytes w).2 = highWaterMark_ w /\
                highWaterMarkCallback_ (sys_write bytes w).2 = highWaterMarkCallback_ w /\
                callingPendingFunctors_ (sys_write bytes w).2 = callingPendingFunctors_ w).
  { unfold sys_write. by repeat case_match. }
  destruct (sys_write bytes w) as [[n errno] w0]. simpl in Htr, Hfr.
  destruct Hfr as (Hc & Hm & Hcb & Hcall).
  destruct (0 <=? n).
  - destruct ((SizeT.sub len n =? 0) && writeCompleteCallback_ w0);
      injection Hdw as <- <- <- <-.
    + destruct (mark_queue_in_loop true FWriteCompleteCallback w0) as [-> ->].
      rewrite core_queue_in_loop, trace_queue_in_loop, Htr, <- app_assoc.
      split_and!; try done. eexists. split; [done|].
      intros k. destruct (negb true || callingPendingFunctors_ w0); not_in_list.
    + split_and!; try done. eexists. split; [done|]. intros k. not_in_list.
  - destruct (negb (errno =? EWOULDBLOCK)); injection Hdw as <- <- <- <-.
    + simpl. rewrite Htr, <- app_assoc. split_and!; try done.
      eexists. split; [done|]. intros k. not_in_list.
    + split_and!; try done. eexists. split; [done|]. intros k. not_in_list.
Qed.

(** What buffering the remainder adds to the trace. *)
Lemma trace_buffer_remainder bytes nwrote remaining w :
  exists tail,
    trace (buffer_remainder bytes nwrote remaining w) =
      trace w ++
      (if crosses_high_water_mark (Buffer.readable_bytes (outputBuffer_ w)) remaining w
       then [EvQueueInLoop (FHighWaterMarkCallback
               (SizeT.add (Buffer.readable_bytes (outputBuffer_ w)) remaining))]
       else []) ++ tail /\
    no_high_water_mark tail.
Proof.
  unfold buffer_remainder.
  destruct (crosses_high_water_mark _ remaining w).
  - set (w1 := queue_in_loop true _ w).
    assert (Htr : trace w1 = _) by apply trace_queue_in_loop.
    destruct (is_writing (set_output _ w1)); simpl; rewrite Htr, <- ?app_assoc; simpl.
    + eexists. split; [done|].
      intros k. destruct (callingPendingFunctors_ w); not_in_list.
    + eexists. split; [done|].
      intros k. destruct (callingPendingFunctors_ w); not_in_list.
  - destruct (is_writing (set_output _ w)); simpl.
    + exists []. split; [by rewrite app_nil_r|]. intros k. not_in_list.
    + eexists [_]. split; [done|]. intros k. not_in_list.
Qed.

(** *** The high-water mark *)

Lemma direct_write_remaining bytes len w nwrote remaining faultError w1 :
  0 <= len ->
  direct_write bytes len w = (nwrote, remaining, faultError, w1) ->
  0 <= remaining.
Proof.
  intros Hlen. unfold direct_write.
  assert (0 <= SizeT.sub len (sys_write bytes w).1.1).
  { unfold SizeT.sub, SizeT.wrap, SizeT.modulus. apply Z.mod_pos_bound. lia. }
  destruct (sys_write bytes w) as [[n errno] w0]. simpl in *.
  repeat case_match; intros Heq; injection Heq as <- <- <- <-; lia.
Qed.

(** When [send_in_loop] queues the high-water-mark callback, and with
    which argument. *)
Lemma send_in_loop_queues_mark data len w bytes nwrote remaining faultError w1 k :
  state_ w <> kDisconnected ->
  load data len w = Some bytes ->
  direct_write bytes len w = (nwrote, remaining, faultError, w1) ->
  EvQueueInLoop (FHighWaterMarkCallback k) ∈ since w (send_in_loop data len w) <->
  faultError = false /\ 0 < remaining /\
  crosses_high_water_mark (Buffer.readable_bytes (outputBuffer_ w)) remaining w = true /\
  k = SizeT.add (Buffer.readable_bytes (outputBuffer_ w)) remaining.
Proof.
  intros Hst Hload Hdw.
  destruct (direct_write_frame _ _ _ _ _ _ _ Hdw) as (Hc & Hm & Hcb & evs & Htr & Hno).
  assert (Hout : outputBuffer_ w1 = outputBuffer_ w) by (by injection Hc).
  assert (Hcross : forall o r, crosses_high_water_mark o r w1 = crosses_high_water_mark o r w).
  { intros o r. unfold crosses_high_water_mark. by rewrite Hm, Hcb. }
  assert (Hsend : send_in_loop data len w =
            if negb faultError && (0 <? remaining)
            then buffer_remainder bytes nwrote remaining w1 else w1).
  { unfold send_in_loop. rewrite Hload, Hdw. by destruct (state_ w). }
  rewrite Hsend.
  destruct faultError; simpl.
  { rewrite (since_app w w1 evs) by done. split; [intros H; by apply Hno in H|].
    by intros [? _]. }
  destruct (Z.ltb_spec 0 remaining) as [Hpos|Hzero].
  2:{ rewrite (since_app w w1 evs) by done. split; [intros H; by apply Hno in H|].
      intros (_ & ? & _). lia. }
  destruct (trace_buffer_remainder bytes nwrote remaining w1) as (tail & Hbr & Hnotail).
  rewrite Hout, Hcross, Htr, <- app_assoc in Hbr.
  rewrite (since_app _ _ _ Hbr). rewrite !elem_of_app.
  destruct (crosses_high_water_mark _ remaining w).
  - rewrite list_elem_of_singleton. split.
    + intros [H|[H|H]]; [by apply Hno in H| |by apply Hnotail in H].
      injection H as ->. done.
    + intros (_ & _ & _ & ->). right. by left.
  - split.
    + intros [H|[H|H]]; [by apply Hno in H|by apply elem_of_nil in H|by apply Hnotail in H].
    + by intros (_ & _ & ? & _).
Qed.

(** *** What the send path queues *)

Section TaskQueue.

Import Life.

Lemma queued_app e1 e2 : queued (e1 ++ e2) = queued e1 ++ queued e2.
Proof. apply omap_app. Qed.

Lemma calls_app e1 e2 : calls (e1 ++ e2) = calls e1 ++ calls e2.
Proof. apply omap_app. Qed.

Lemma wakeups_app e1 e2 : wakeups (e1 ++ e2) = (wakeups e1 + wakeups e2)%nat.
Proof. unfold wakeups. by rewrite omap_app, length_app. Qed.


Lemma ledger_refl w : ledger w w [].
Proof. exists []. by rewrite !app_nil_r. Qed.

Lemma ledger_trans w1 w2 w3 c1 c2 :
  ledger w1 w2 c1 -> ledger w2 w3 c2 -> ledger w1 w3 (c1 ++ c2).
Proof.
  intros (e1 & Ht1 & Hp1 & Hc1 & Hcb1 & Hw1) (e2 & Ht2 & Hp2 & Hc2 & Hcb2 & Hw2).
  exists (e1 ++ e2). split_and!.
  - by rewrite Ht2, Ht1, app_assoc.
  - by rewrite Hp2, Hp1, queued_app, app_assoc.
  - by rewrite Hc2.
  - by rewrite calls_app, Hcb1, Hcb2.
  - intros Hcall. rewrite wakeups_app, queued_app, length_app.
    rewrite Hw1 by done. rewrite Hw2 by by rewrite Hc1. done.
Qed.

Lemma ledger_same w w' :
  trace w' = trace w -> pendingFunctors_ w' = pendingFunctors_ w ->
  callingPendingFunctors_ w' = callingPendingFunctors_ w -> ledger w w' [].
Proof. intros Ht Hp Hc. exists []. by rewrite !app_nil_r. Qed.

Lemma ledger_emit e w :
  queued [e] = [] -> wakeups [e] = 0%nat -> ledger w (emit e w) (calls [e]).
Proof.
  intros Hq Hw. exists [e]. rewrite Hq, Hw. by rewrite app_nil_r.
Qed.

Lemma ledger_queue_in_loop f w : ledger w (queue_in_loop true f w) [].
Proof.
  pose proof (trace_queue_in_loop true f w) as Htr.
  unfold queue_in_loop, wakeup in *. simpl in *.
  destruct (callingPendingFunctors_ w) eqn:Hc; simpl in *;
    (eexists; split; [exact Htr|]); simpl; split_and!; try done; intros; congruence.
Qed.

Lemma ledger_sys_write data w : ledger w (sys_write data w).2 [].
Proof.
  eexists. split; [apply trace_sys_write|].
  unfold sys_write. repeat case_match; simpl; rewrite ?app_nil_r; by split_and!.
Qed.

Lemma ledger_direct_write bytes len w : ledger w (direct_write bytes len w).2 [].
Proof.
  unfold direct_write. case_match; [|apply ledger_refl].
  pose proof (ledger_sys_write bytes w) as Hsys.
  destruct (sys_write bytes w) as [[n errno] w1]. simpl in Hsys.
  repeat case_match; simpl; try done.
  - apply (ledger_trans _ _ _ [] [] Hsys), ledger_queue_in_loop.
  - by apply (ledger_trans _ _ _ [] [] Hsys), (ledger_emit EvLogError).
Qed.

Lemma ledger_buffer_remainder bytes nwrote remaining w :
  ledger w (buffer_remainder bytes nwrote remaining w) [].
Proof.
  unfold buffer_remainder.
  set (w1 := if crosses_high_water_mark _ _ _ then _ else _).
  assert (ledger w w1 []) as H1.
  { subst w1. case_match; [apply ledger_queue_in_loop|apply ledger_refl]. }
  apply (ledger_trans _ _ _ [] [] H1).
  case_match; [|by apply ledger_same].
  apply (ledger_trans _ (set_output (Buffer.append
           (take (Z.to_nat remaining) (drop (Z.to_nat nwrote) bytes))
           (outputBuffer_ w1)) w1) _ [] []); [by apply ledger_same|].
  unfold channel_update.
  apply (ledger_trans _ (set_channel (Channel.enable_writing (connChannel_ w1))
           (set_output (Buffer.append
              (take (Z.to_nat remaining) (drop (Z.to_nat nwrote) bytes))
              (outputBuffer_ w1)) w1)) _ [] []); [by apply ledger_same|].
  by apply (ledger_emit (EvUpdateChannel _)).
Qed.

Lemma ledger_send_in_loop data len w : ledger w (send_in_loop data len w) [].
Proof.
  unfold send_in_loop.
  destruct (state_ w); [by apply (ledger_emit EvLogError)|..].
  all: destruct (load data len w) as [bytes|]; [|by apply (ledger_emit (EvInvalidRead _))].
  all: pose proof (ledger_direct_write bytes len w) as Hdw.
  all: destruct (direct_write bytes len w) as [[[nwrote remaining] fault] w1].
  all: simpl in Hdw; case_match; [|done].
  all: apply (ledger_trans _ _ _ [] [] Hdw), ledger_buffer_remainder.
Qed.

Lemma elem_of_queued f evs : f ∈ queued evs <-> EvQueueInLoop f ∈ evs.
Proof.
  unfold queued. rewrite list_elem_of_omap. split.
  - intros (e & He & Hf). destruct e; try discriminate. by injection Hf as ->.
  - intros He. by exists (EvQueueInLoop f).
Qed.

(** What a [send_in_loop] appends to the task queue of its loop: the
    closures of its [queue_in_loop] calls, in order. *)
Lemma pending_send_in_loop data len w :
  pendingFunctors_ (send_in_loop data len w) =
  pendingFunctors_ w ++ queued (since w (send_in_loop data len w)).
Proof.
  destruct (ledger_send_in_loop data len w) as (evs & Htr & Hp & _).
  by rewrite (since_app _ _ _ Htr).
Qed.

End TaskQueue.

(** C3.  In a [send_in_loop] that gets to buffer a remainder (the
    connection is not disconnected and the direct write met no fault) on a
    connection with a high-water-mark callback, the callback is appended
    to [pendingFunctors_], the task queue of the loop, with argument
    oldLen + remaining, exactly when
    oldLen < highWaterMark_ <= oldLen + remaining; no [send_in_loop]
    appends it when oldLen >= highWaterMark_ or when
    oldLen + remaining < highWaterMark_.  [enqueued] is what the call adds
    at the back of the queue, and the closures in it are those of the
    [queue_in_loop] calls made. *)
Theorem high_water_mark_edge
    (data : ptr) (len : Z) (w : Conn.t) (bytes : list byte)
    (nwrote remaining : Z) (faultError : bool) (w1 : Conn.t) :
  state_ w <> kDisconnected ->
  0 <= len ->
  load data len w = Some bytes ->
  direct_write bytes len w = (nwrote, remaining, faultError, w1) ->
  let oldLen := Buffer.readable_bytes (outputBuffer_ w) in
  let mark := highWaterMark_ w in
  let w' := send_in_loop data len w in
  let enqueued := drop (length (pendingFunctors_ w)) (pendingFunctors_ w') in
  let queued k := FHighWaterMarkCallback k ∈ enqueued in
  pendingFunctors_ w' = pendingFunctors_ w ++ enqueued /\
  (forall k, queued k <-> EvQueueInLoop (FHighWaterMarkCallback k) ∈ since w w') /\
  (mark <= oldLen -> forall k, ~ queued k) /\
  (oldLen + remaining < mark -> forall k, ~ queued k) /\
  (faultError = false -> highWaterMarkCallback_ w = true ->
   oldLen + remaining < SizeT.modulus ->
   ((exists k, queued k) <-> oldLen < mark <= oldLen + remaining) /\
   (forall k, queued k -> k = oldLen + remaining)).
Proof.
  intros Hst Hlen Hload Hdw oldLen mark w' enqueued queued.
  assert (Hpend := pending_send_in_loop data len w). fold w' in Hpend.
  assert (Henq : enqueued = Life.queued (since w w')).
  { unfold enqueued. by rewrite Hpend, drop_app_length. }
  assert (Hev : forall k, queued k <-> EvQueueInLoop (FHighWaterMarkCallback k) ∈ since w w').
  { intros k. unfold queued. rewrite Henq. apply elem_of_queued. }
  assert (Hrem := direct_write_remaining _ _ _ _ _ _ _ Hlen Hdw).
  assert (Hold : 0 <= oldLen).
  { unfold oldLen, Buffer.readable_bytes, SizeT.sub, SizeT.wrap, SizeT.modulus.
    apply Z.mod_pos_bound. lia. }
  assert (Hq : forall k, queued k <->
            faultError = false /\ 0 < remaining /\
            crosses_high_water_mark oldLen remaining w = true /\
            k = SizeT.add oldLen remaining).
  { intros k. rewrite Hev.
    apply (send_in_loop_queues_mark data len w bytes nwrote remaining faultError w1 k
             Hst Hload Hdw). }
  unfold crosses_high_water_mark in Hq. fold mark in Hq.
  assert (Hwrap : SizeT.add oldLen remaining <= oldLen + remaining).
  { unfold SizeT.add, SizeT.wrap, SizeT.modulus. apply Z.mod_le; lia. }
  split_and!.
  - by rewrite Henq.
  - exact Hev.
  - intros Hmark k Hk. apply Hq in Hk as (_ & _ & Hc & _).
    destruct (Z.ltb_spec oldLen mark); [lia|].
    by rewrite andb_false_r in Hc.
  - intros Hbelow k Hk. apply Hq in Hk as (_ & _ & Hc & _).
    destruct (Z.geb_spec (SizeT.add oldLen remaining) mark); [lia|done].
  - intros -> Hcb Hfit.
    assert (Hadd : SizeT.add oldLen remaining = oldLen + remaining).
    { unfold SizeT.add, SizeT.wrap. apply Z.mod_small. lia. }
    rewrite Hadd, Hcb in Hq. split.
    + split.
      * intros [k Hk]. apply Hq in Hk as (_ & _ & Hc & _).
        rewrite andb_true_r in Hc.
        apply andb_true_iff in Hc as [Hge Hlt]. lia.
      * intros [Hlt Hge]. exists (oldLen + remaining). apply Hq.
        split_and!; [done|lia| |done].
        rewrite andb_true_r. apply andb_true_iff. split; lia.
    + intros k Hk. by apply Hq in Hk as (_ & _ & _ & ->).
Qed.

Lemma high_water_mark_edge_witness :
  (exists k, FHighWaterMarkCallback k ∈
       drop (length (pendingFunctors_ demo_low_mark))
            (pendingFunctors_ (send_in_loop 1%positive 5 demo_low_mark))) /\
  (forall k, FHighWaterMarkCallback k ∉
       drop (length (pendingFunctors_ demo_connected))
            (pendingFunctors_ (send_in_loop 1%positive 5 demo_connected))).
Proof.
  split.
  - destruct (high_water_mark_edge 1%positive 5 demo_low_mark hello 2 3 false
                (direct_write hello 5 demo_low_mark).2) as (_ & _ & _ & _ & H).
    + vm_compute. discriminate.
    + lia.
    + vm_compute. reflexivity.
    + vm_compute. reflexivity.
    + destruct H as [Hiff _]; [reflexivity|reflexivity|vm_compute; reflexivity|].
      apply Hiff. vm_compute. split; [reflexivity|discriminate].
  - destruct (high_water_mark_edge 1%positive 5 demo_connected hello 2 3 false
                (direct_write hello 5 demo_connected).2) as (_ & _ & _ & H & _).
    + vm_compute. discriminate.
    + lia.
    + vm_compute. reflexivity.
    + vm_compute. reflexivity.
    + apply H. vm_compute. reflexivity.
Defined.

(** *** Queued tasks run in the drain *)

Lemma extends_send_in_loop data len w : extends w (send_in_loop data len w).
Proof.
  unfold send_in_loop.
  assert (forall e, extends w (emit e w)) as Hemit by (intros e; by exists [e]).
  destruct (state_ w); [apply Hemit|..].
  all: destruct (load data len w) as [bytes|]; [|apply Hemit].
  all: destruct (direct_write bytes len w) as [[[nwrote remaining] fault] w1] eqn:Hdw.
  all: destruct (direct_write_frame _ _ _ _ _ _ _ Hdw) as (_ & _ & _ & evs & Htr & _).
  all: case_match; [|by exists evs].
  all: destruct (trace_buffer_remainder bytes nwrote remaining w1) as (tail & Hbr & _).
  all: eexists; rewrite Hbr, Htr, <- app_assoc; reflexivity.
Qed.

Lemma extends_run_functor f w : extends w (run_functor f w).
Proof.
  destruct f; simpl.
  - apply extends_send_in_loop.
  - eexists. apply trace_shut_down_in_loop.
  - by eexists.
  - by eexists.
Qed.

Lemma extends_run_functors fs : forall w,
  extends w (foldl (fun w f => run_functor f w) w fs).
Proof.
  induction fs as [|f fs IH]; intros w; [apply extends_refl|].
  simpl. eapply extends_trans; [apply extends_run_functor|apply IH].
Qed.

Lemma run_functors_write_complete fs : forall w,
  FWriteCompleteCallback ∈ fs ->
  EvCall CbWriteComplete ∈ since w (foldl (fun w f => run_functor f w) w fs).
Proof.
  induction fs as [|f fs IH]; intros w Hin; [by apply elem_of_nil in Hin|].
  simpl. rewrite (since_trans w (run_functor f w))
    by (apply extends_run_functor || apply extends_run_functors).
  apply elem_of_app. apply elem_of_cons in Hin as [<-|Hin].
  - left. simpl. rewrite (since_app w (emit (EvCall CbWriteComplete) w) [EvCall CbWriteComplete])
      by done. by left.
  - right. by apply IH.
Qed.

Lemma do_pending_write_complete w :
  FWriteCompleteCallback ∈ pendingFunctors_ w ->
  EvCall CbWriteComplete ∈ since w (do_pending_functors w).
Proof.
  intros Hin. unfold do_pending_functors.
  apply (run_functors_write_complete _ (set_pending [] (set_calling true w))) in Hin.
  exact Hin.
Qed.

(** *** Half close *)

Lemma shut_down_defers il w :
  state_ w = kConnected -> is_writing w = true ->
  state_ (shut_down il w) = kDisconnecting /\
  outputBuffer_ (shut_down il w) = outputBuffer_ w /\
  EvShutdownWrite ∉ since w (shut_down il w).
Proof.
  intros Hst Hw. unfold shut_down. rewrite Hst.
  destruct il; simpl.
  - unfold shut_down_in_loop.
    replace (is_writing (set_state kDisconnecting w)) with true by done. simpl.
    split_and!; try done.
    rewrite (since_app w _ []) by (by rewrite app_nil_r). not_in_list.
  - split_and!; try done.
    erewrite since_app by (simpl; rewrite <- app_assoc; reflexivity).
    not_in_list.
Qed.

Lemma shut_down_in_loop_defers w :
  is_writing w = true -> shut_down_in_loop w = w.
Proof. unfold shut_down_in_loop. by intros ->. Qed.

(** A [handle_write] after which output is still pending issues no
    shutdown. *)
Lemma handle_write_pending w :
  Buffer.readable_bytes (outputBuffer_ (handle_write w)) <> 0 ->
  EvShutdownWrite ∉ since w (handle_write w).
Proof.
  unfold handle_write.
  destruct (is_writing w); [|intros _; erewrite since_app by done; not_in_list].
  assert (Htr := trace_sys_write (Buffer.readable (outputBuffer_ w)) w).
  destruct (sys_write (Buffer.readable (outputBuffer_ w)) w) as [[n e] w1].
  simpl in Htr.
  destruct (0 <? n).
  2:{ intros _. erewrite since_app by (simpl; rewrite Htr, <- app_assoc; reflexivity).
      not_in_list. }
  simpl.
  destruct (Z.eqb_spec (Buffer.readable_bytes (Buffer.retrieve n (outputBuffer_ w1))) 0)
    as [Hzero|Hrest].
  - intros Hne. exfalso. apply Hne. rewrite <- Hzero. f_equal.
    unfold shut_down_in_loop, queue_in_loop, wakeup. by repeat case_match.
  - intros _. erewrite since_app by (simpl; exact Htr). not_in_list.
Qed.

(** The [handle_write] that drains the buffer of a connection that is
    shutting down. *)
Lemma handle_write_drains w :
  is_writing w = true -> state_ w = kDisconnecting ->
  Buffer.readable_bytes (outputBuffer_ w) <> 0 ->
  Buffer.readable_bytes (outputBuffer_ (handle_write w)) = 0 ->
  exists n e,
    trace (handle_write w) =
      trace w ++
      [EvWrite (Buffer.readable (outputBuffer_ w)) n; EvUpdateChannel e] ++
      (if writeCompleteCallback_ w
       then EvQueueInLoop FWriteCompleteCallback ::
            (if callingPendingFunctors_ w then [EvWakeup] else [])
       else []) ++
      [EvShutdownWrite] /\
    pendingFunctors_ (handle_write w) =
      pendingFunctors_ w ++
      (if writeCompleteCallback_ w then [FWriteCompleteCallback] else []) /\
    (Buffer.wf (outputBuffer_ w) -> n = Buffer.readable_bytes (outputBuffer_ w)).
Proof.
  intros Hw Hst Hne. unfold handle_write. rewrite Hw.
  assert (Hn : (sys_write (Buffer.readable (outputBuffer_ w)) w).1.1 <=
               Z.of_nat (length (Buffer.readable (outputBuffer_ w)))).
  { unfold sys_write. repeat case_match; simpl; lia. }
  assert (Htr := trace_sys_write (Buffer.readable (outputBuffer_ w)) w).
  assert (Hfr : outputBuffer_ (sys_write (Buffer.readable (outputBuffer_ w)) w).2 = outputBuffer_ w /\
                state_ (sys_write (Buffer.readable (outputBuffer_ w)) w).2 = state_ w /\
                writeCompleteCallback_ (sys_write (Buffer.readable (outputBuffer_ w)) w).2
                  = writeCompleteCallback_ w /\
                callingPendingFunctors_ (sys_write (Buffer.readable (outputBuffer_ w)) w).2
                  = callingPendingFunctors_ w /\
                pendingFunctors_ (sys_write (Buffer.readable (outputBuffer_ w)) w).2
                  = pendingFunctors_ w).
  { unfold sys_write. by repeat case_match. }
  destruct (sys_write (Buffer.readable (outputBuffer_ w)) w) as [[n e] w1].
  simpl in Htr, Hfr, Hn. destruct Hfr as (Hout & Hst1 & Hwc & Hcall & Hpend).
  destruct (Z.ltb_spec 0 n) as [Hpos|?]; [|simpl; by rewrite Hout].
  simpl.
  destruct (Z.eqb_spec (Buffer.readable_bytes (Buffer.retrieve n (outputBuffer_ w1))) 0)
    as [Hzero|Hrest]; [|done].
  intros _. rewrite Hwc.
  exists n, (Channel.events_ (Channel.disable_writing (connChannel_ w1))).
  assert (Hall : Buffer.wf (outputBuffer_ w) -> n = Buffer.readable_bytes (outputBuffer_ w)).
  { intros Hwf. rewrite Hout in Hzero. rewrite length_readable in Hn by done.
    unfold Buffer.retrieve in Hzero.
    destruct (Z.ltb_spec n (Buffer.readable_bytes (outputBuffer_ w))) as [Hlt|]; [|lia].
    exfalso. rewrite wf_readable in Hlt by done. destruct Hwf.
    unfold Buffer.readable_bytes, SizeT.sub, SizeT.add, Buffer.kCheapPrepend in *.
    simpl in Hzero.
    rewrite (wrap_small (Buffer.readerIndex_ (outputBuffer_ w) + n)) in Hzero
      by (unfold SizeT.in_range, Buffer.size in *; lia).
    rewrite wrap_small in Hzero by (unfold SizeT.in_range, Buffer.size in *; lia).
    lia. }
  assert (Hoff := is_writing_disable_writing (connChannel_ w1)).
  destruct w1; simpl in *. subst.
  unfold queue_in_loop, wakeup, shut_down_in_loop, is_writing, channel_update.
  destruct (writeCompleteCallback_ w), (callingPendingFunctors_ w); simpl;
    rewrite Hst; simpl; rewrite Hoff; simpl; rewrite <- ?app_assoc, ?app_nil_r; done.
Qed.

Lemma precedes_last (earlier later : event) (front : list event) :
  earlier ∈ front -> later ∉ front -> precedes earlier later (front ++ [later]).
Proof.
  intros Hin Hnot pre post Heq.
  destruct post as [|x post _] using rev_ind.
  - apply app_inj_tail in Heq as [-> _]. done.
  - exfalso. apply Hnot.
    rewrite app_comm_cons, app_assoc in Heq. apply app_inj_tail in Heq as [-> _].
    apply elem_of_app. right. by left.
Qed.

(** C2, amended.  On a connection the server made, with output pending:
    [shut_down] on a connected connection moves it to [kDisconnecting] and
    issues no shutdown of the socket; while the connection is
    [kDisconnecting], [shut_down_in_loop] does nothing and a [handle_write]
    that leaves output pending issues no shutdown; the [handle_write] that
    drains the buffer writes (all the pending bytes, the buffer being
    well formed), disables writing, queues the write-complete callback
    (when one is installed) and only then issues the shutdown.
    The callback itself has not run at that point: it runs in the drain of
    the task queue that follows. *)
Theorem half_close_ordering (w : Conn.t) :
  reachable w ->
  Buffer.readable_bytes (outputBuffer_ w) <> 0 ->
  (state_ w = kConnected ->
   forall il : bool,
     state_ (shut_down il w) = kDisconnecting /\
     outputBuffer_ (shut_down il w) = outputBuffer_ w /\
     EvShutdownWrite ∉ since w (shut_down il w)) /\
  (state_ w = kDisconnecting ->
   shut_down_in_loop w = w /\
   (Buffer.readable_bytes (outputBuffer_ (handle_write w)) <> 0 ->
    EvShutdownWrite ∉ since w (handle_write w)) /\
   (Buffer.readable_bytes (outputBuffer_ (handle_write w)) = 0 ->
    (exists n e,
       since w (handle_write w) =
         [EvWrite (Buffer.readable (outputBuffer_ w)) n; EvUpdateChannel e] ++
         (if writeCompleteCallback_ w
          then EvQueueInLoop FWriteCompleteCallback ::
               (if callingPendingFunctors_ w then [EvWakeup] else [])
          else []) ++
         [EvShutdownWrite] /\
       (Buffer.wf (outputBuffer_ w) -> n = Buffer.readable_bytes (outputBuffer_ w))) /\
    (writeCompleteCallback_ w = true ->
     precedes (EvQueueInLoop FWriteCompleteCallback) EvShutdownWrite
              (since w (handle_write w)) /\
     (EvCall CbWriteComplete ∉ since w (handle_write w)) /\
     EvCall CbWriteComplete ∈
       since (handle_write w) (do_pending_functors (handle_write w))))).
Proof.
  intros Hreach Hne.
  assert (Harm := reachable_armed w Hreach).
  split.
  - intros Hst il. apply shut_down_defers; [done|].
    apply Harm; [by rewrite Hst|done].
  - intros Hst.
    assert (Hw : is_writing w = true) by (apply Harm; [by rewrite Hst|done]).
    split_and!.
    + by apply shut_down_in_loop_defers.
    + apply handle_write_pending.
    + intros Hzero.
      destruct (handle_write_drains w Hw Hst Hne Hzero) as (n & e & Htr & Hpend & Hall).
      apply since_app in Htr. split; [by exists n, e|].
      intros Hwc. rewrite Hwc in *. rewrite Htr. split_and!.
      * rewrite app_assoc. apply precedes_last.
        -- apply elem_of_app. right. by left.
        -- destruct (callingPendingFunctors_ w); not_in_list.
      * destruct (callingPendingFunctors_ w); not_in_list.
      * apply do_pending_write_complete. rewrite Hpend.
        apply elem_of_app. right. by left.
Qed.

Lemma reachable_demo_backlog : reachable demo_backlog.
Proof.
  eapply reachable_step; [|apply step_send].
  eapply reachable_step; [|by apply step_established].
  apply reachable_fresh. by exists 7, {[1%positive := hello]}, [WriteOk 2; WriteOk 3],
    true, true, true, true.
Qed.

Lemma reachable_demo_half_closed : reachable demo_half_closed.
Proof. eapply reachable_step; [apply reachable_demo_backlog|apply step_shut_down]. Qed.

Lemma half_close_ordering_witness :
  (EvShutdownWrite ∉ since demo_backlog demo_half_closed) /\
  precedes (EvQueueInLoop FWriteCompleteCallback) EvShutdownWrite
           (since demo_half_closed (handle_write demo_half_closed)) /\
  EvCall CbWriteComplete ∈
    since (handle_write demo_half_closed)
          (do_pending_functors (handle_write demo_half_closed)).
Proof.
  split.
  - destruct (half_close_ordering demo_backlog reachable_demo_backlog) as [H _];
      [vm_compute; discriminate|].
    apply (H eq_refl true).
  - destruct (half_close_ordering demo_half_closed reachable_demo_half_closed) as [_ H];
      [vm_compute; discriminate|].
    destruct (H eq_refl) as (_ & _ & Hdrain).
    destruct (Hdrain ltac:(vm_compute; reflexivity)) as [_ Hcb].
    destruct (Hcb eq_refl) as (Hq & _ & Hcall). by split.
Defined.

(** C2, as the specification states it, fails.  In the echo run (five
    bytes sent, two written at once, [shut_down] while three are pending,
    then the turn that finds the socket writable) the socket's write side
    is shut down before the write-complete callback runs.  And when the
    connection is closed between a [shut_down] posted from another thread
    and the task it queued, that task shuts the write side down with the
    three bytes still in the buffer. *)
Lemma write_complete_runs_after_shutdown :
  reachable demo_backlog /\
  state_ demo_backlog = kConnected /\
  Buffer.readable_bytes (outputBuffer_ demo_backlog) = 3 /\
  (exists pre,
     trace demo_drained = pre ++ [EvShutdownWrite; EvCall CbWriteComplete] /\
     EvCall CbWriteComplete ∉ pre) /\
  ~ precedes (EvCall CbWriteComplete) EvShutdownWrite (trace demo_drained) /\
  state_ demo_closed_turn = kDisconnected /\
  Buffer.readable_bytes (outputBuffer_ demo_closed_turn) = 3 /\
  EvShutdownWrite ∈ since demo_posted_shut_down demo_closed_turn.
Proof.
  assert (Htr : trace demo_drained =
            [EvUpdateChannel 3; EvCall CbConnection; EvWrite hello 2;
             EvUpdateChannel 7; EvWrite (drop 2 hello) 3; EvUpdateChannel 3;
             EvQueueInLoop FWriteCompleteCallback] ++
            [EvShutdownWrite; EvCall CbWriteComplete])
    by (vm_compute; reflexivity).
  assert (Hcl : since demo_posted_shut_down demo_closed_turn =
            [EvUpdateChannel 0; EvCall CbConnection; EvCall CbClose; EvShutdownWrite])
    by (vm_compute; reflexivity).
  split_and!.
  - apply reachable_demo_backlog.
  - reflexivity.
  - vm_compute. reflexivity.
  - eexists. split; [exact Htr|]. not_in_list.
  - intros Hprec. specialize (Hprec _ _ Htr). revert Hprec. not_in_list.
  - vm_compute. reflexivity.
  - vm_compute. reflexivity.
  - rewrite Hcl. set_solver.
Qed.

(** *** Sends from other threads *)

(** Off the loop thread, [send] queues [send_in_loop] with the address and
    the length of the caller's string. *)
Lemma send_off_loop_thread buf s w :
  state_ w = kConnected -> heap w !! buf = Some s ->
  send false buf w =
    queue_in_loop false (FSendInLoop buf (Z.of_nat (length s))) w.
Proof. unfold send. by intros -> ->. Qed.

(** C1, the code at the failing inputs.  [send] called off the loop
    thread queues a task that holds the address and length of the caller's
    string, not its bytes: when the caller has written "jello" over its
    "hello" before the loop runs the task, "jello" is what is offered to
    the socket and buffered; and the task queued by
    [send(void *, size_t)] reads the temporary string after it is gone. *)
Theorem cross_thread_send_keeps_pointer :
  heap demo_connected !! 1%positive = Some hello /\
  pendingFunctors_ demo_posted = [FSendInLoop 1 5] /\
  since demo_overwritten demo_late_write = [EvWrite jello 2; EvUpdateChannel 7] /\
  Buffer.readable (outputBuffer_ demo_late_write) = drop 2 jello /\
  pendingFunctors_ demo_posted_message = [FSendInLoop 2 5] /\
  heap demo_posted_message !! 2%positive = None /\
  since demo_posted_message demo_late_read = [EvInvalidRead 2].
Proof. split_and!; vm_compute; reflexivity. Qed.

End ConnFacts.
(** * Further properties *)

(** ** Buffer contents *)

Section BufferContents.

Import SizeT Buffer.

Ltac unwrap' :=
  repeat match goal with
    | |- context [wrap ?z] => rewrite (wrap_small z) by (unfold in_range, modulus in *; lia)
    | H : context [wrap ?z] |- _ => rewrite (wrap_small z) in H by (unfold in_range, modulus in *; lia)
    end.

Ltac buf_unfold' :=
  unfold readable_bytes, writable_bytes, prependable_bytes, size, add, sub,
    kCheapPrepend, extrabuf_size in *; simpl in *.

(** Bytes copied in at the writer, with the writer moved past them, come
    after the bytes that were readable. *)
Lemma readable_copy_in data b :
  wf b -> writerIndex_ b + Z.of_nat (length data) <= size b ->
  readable {| buffer_ := copy_into (writerIndex_ b) data (buffer_ b);
              readerIndex_ := readerIndex_ b;
              writerIndex_ := writerIndex_ b + Z.of_nat (length data) |}
  = readable b ++ data.
Proof.
  intros Hwf Hroom. unfold readable, peek, readable_bytes. simpl.
  destruct Hwf. buf_unfold'. unwrap'.
  rewrite copy_into_inside by lia.
  rewrite drop_app_le by (rewrite length_take; lia).
  rewrite take_app_ge by (rewrite length_drop, length_take; lia).
  rewrite length_drop, length_take.
  rewrite take_app_ge by lia.
  replace (Z.to_nat (writerIndex_ b + Z.of_nat (length data) - readerIndex_ b) -
           (Z.to_nat (writerIndex_ b) `min` length (buffer_ b) - Z.to_nat (readerIndex_ b)) -
           length data)%nat with 0%nat by lia.
  rewrite ?take_0, ?app_nil_r. f_equal.
  rewrite take_drop_commute. f_equal. f_equal. lia.
Qed.

(** [ensure_writable_bytes] keeps the readable bytes, whichever way it
    makes room. *)
Lemma readable_ensure_writable len b :
  wf b -> 0 <= len -> feasible len b ->
  readable (ensure_writable_bytes len b) = readable b.
Proof.
  intros Hwf Hlen Hfeas.
  destruct (Z_lt_le_dec (writable_bytes b) len) as [Hshort|Henough].
  - rewrite ensure_writable_short by done.
    destruct (Z_lt_le_dec (writable_bytes b + prependable_bytes b) (len + kCheapPrepend))
      as [Hgrow|Hcompact].
    + destruct Hfeas as [Hfeas|Hfeas]; [lia|].
      rewrite make_space_resize by done.
      apply readable_resized; [done|].
      pose proof (wf_writable b Hwf). lia.
    + rewrite make_space_compact by done.
      apply readable_compacted; [done|]. lia.
  - by rewrite ensure_writable_enough.
Qed.

Lemma readable_append data b :
  wf b -> feasible (Z.of_nat (length data)) b ->
  readable (append data b) = readable b ++ data.
Proof.
  intros Hwf Hfeas. unfold append.
  destruct (wf_ensure_writable (Z.of_nat (length data)) b) as [Hwf1 Hroom]; [done|lia|done|].
  rewrite <- (readable_ensure_writable (Z.of_nat (length data)) b) by (done || lia).
  set (b1 := ensure_writable_bytes _ b) in *.
  rewrite <- (readable_copy_in data b1).
  - f_equal. f_equal. pose proof (wf_writable b1 Hwf1) as Hw. destruct Hwf1.
    unfold add, size, kCheapPrepend in *. unwrap'. done.
  - done.
  - pose proof (wf_writable b1 Hwf1). lia.
Qed.

Lemma readable_retrieve len b :
  wf b -> 0 <= len ->
  readable (retrieve len b) = drop (Z.to_nat len) (readable b).
Proof.
  intros Hwf Hlen. pose proof (wf_readable b Hwf) as Hr.
  pose proof (length_readable b Hwf) as Hl.
  unfold retrieve. case_match.
  - apply Z.ltb_lt in H. unfold readable, peek, readable_bytes. simpl.
    destruct Hwf. buf_unfold'. unwrap'.
    replace (Z.to_nat (readerIndex_ b + len))
      with (Z.to_nat (readerIndex_ b) + Z.to_nat len)%nat by lia.
    rewrite <- drop_drop, take_drop_commute. f_equal. f_equal. lia.
  - apply Z.ltb_ge in H. rewrite drop_ge by lia. done.
Qed.

Lemma retrieve_all_cursors b :
  readerIndex_ (retrieve_all b) = kCheapPrepend /\
  writerIndex_ (retrieve_all b) = kCheapPrepend /\
  readable (retrieve_all b) = [].
Proof. done. Qed.

Lemma size_ensure_writable_le len b :
  wf b -> 0 <= len -> feasible len b ->
  size b <= size (ensure_writable_bytes len b).
Proof.
  intros Hwf Hlen Hfeas.
  destruct (Z_lt_le_dec (writable_bytes b) len) as [Hshort|Henough].
  - rewrite ensure_writable_short by done.
    destruct (Z_lt_le_dec (writable_bytes b + prependable_bytes b) (len + kCheapPrepend))
      as [Hgrow|Hcompact].
    + destruct Hfeas as [Hfeas|Hfeas]; [lia|].
      rewrite make_space_resize by done.
      unfold size at 2. simpl. rewrite length_vector_resize.
      rewrite wf_writable in Hshort by done. destruct Hwf. lia.
    + rewrite make_space_compact by done.
      unfold size at 2. simpl. rewrite length_copy_into. done.
  - by rewrite ensure_writable_enough.
Qed.

Lemma size_append_le data b :
  wf b -> feasible (Z.of_nat (length data)) b -> size b <= size (append data b).
Proof.
  intros Hwf Hfeas. unfold append, size at 2. simpl. rewrite length_copy_into.
  apply size_ensure_writable_le; [done|lia|done].
Qed.

Lemma read_fd_capacity_ge b : wf b -> extrabuf_size <= Fifo.read_fd_capacity b.
Proof.
  intros Hwf. unfold Fifo.read_fd_capacity. pose proof (wf_writable b Hwf).
  destruct Hwf. case_match; [apply Z.ltb_lt in H0|apply Z.ltb_ge in H0]; lia.
Qed.

Lemma read_fd_ok avail b :
  wf b -> feasible_op (OpReadFd (ReadvOk avail)) b ->
  let data := take (Z.to_nat (Fifo.read_fd_capacity b)) avail in
  (read_fd (ReadvOk avail) b).1 = (Z.of_nat (length data), None) /\
  readable (read_fd (ReadvOk avail) b).2 = readable b ++ data /\
  size b <= size (read_fd (ReadvOk avail) b).2.
Proof.
  intros Hwf. unfold feasible_op, demand, read_fd, Fifo.read_fd_capacity.
  rewrite read_fd_room by done.
  set (room := if writable_bytes b <? extrabuf_size then _ else _).
  set (data := take (Z.to_nat room) avail).
  pose proof (wf_writable b Hwf) as Hw.
  assert (0 <= writable_bytes b) as Hw0 by (destruct Hwf; lia).
  destruct (Z.leb_spec (Z.of_nat (length data)) (writable_bytes b)) as [Hle|Hgt]; simpl.
  - intros _. split; [done|]. split.
    + rewrite (take_ge data) by lia.
      rewrite <- (readable_copy_in data b) by (done || lia).
      f_equal. f_equal. destruct Hwf. unfold add, size, kCheapPrepend in *. unwrap'. done.
    + unfold size at 2. simpl. by rewrite length_copy_into.
  - intros Hfeas. split; [done|].
    assert (wf (filled_up data b)) as Hwf' by by apply wf_filled_up.
    assert (feasible (Z.of_nat (length (drop (Z.to_nat (writable_bytes b)) data)))
              (filled_up data b)) as Hfeas'.
    { rewrite length_drop.
      replace (Z.of_nat (length data - Z.to_nat (writable_bytes b)))
        with (Z.of_nat (length data) - writable_bytes b) by lia.
      eapply feasible_ext; [..|exact Hfeas]; unfold filled_up, size; simpl;
        rewrite ?length_copy_into; done. }
    change {| buffer_ := _; readerIndex_ := _; writerIndex_ := _ |}
      with (filled_up data b).
    split.
    + rewrite readable_append by done.
      rewrite <- (take_drop (Z.to_nat (writable_bytes b)) data) at 3.
      rewrite app_assoc. f_equal.
      rewrite <- (readable_copy_in (take (Z.to_nat (writable_bytes b)) data) b).
      * unfold filled_up. f_equal. f_equal. rewrite length_copy_into, length_take.
        unfold size in *. lia.
      * done.
      * rewrite length_take. lia.
    + etrans; [|by apply size_append_le].
      unfold filled_up, size. simpl. by rewrite length_copy_into.
Qed.

Lemma size_run_op_le o b : wf b -> feasible_op o b -> size b <= size (run_op o b).
Proof.
  intros Hwf. destruct o as [data|len| |len| |len|r]; simpl.
  - by apply size_append_le.
  - intros _. by rewrite size_retrieve.
  - done.
  - intros _. by rewrite size_retrieve.
  - intros _. by rewrite size_retrieve.
  - intros Hfeas. apply size_ensure_writable_le; [done|lia|done].
  - destruct r as [e|avail]; [done|]. intros Hfeas.
    by apply read_fd_ok.
Qed.

Lemma readable_retrieve_as_string len b :
  wf b -> 0 <= len ->
  (retrieve_as_string len b).1 = take (Z.to_nat len) (readable b) /\
  readable (retrieve_as_string len b).2 = drop (Z.to_nat len) (readable b).
Proof.
  intros Hwf Hlen. unfold retrieve_as_string. simpl.
  pose proof (wf_readable b Hwf) as Hr. pose proof (length_readable b Hwf) as Hl.
  assert (0 <= readable_bytes b) by (destruct Hwf; lia).
  split.
  - unfold readable. rewrite take_take. f_equal. lia.
  - rewrite readable_retrieve by (done || lia).
    destruct (Z.le_gt_cases len (readable_bytes b)).
    + by rewrite Z.min_l.
    + rewrite Z.min_r by lia. rewrite !drop_ge; [done|lia..].
Qed.

Lemma readable_run_op o b :
  wf b -> feasible_op o b -> Fifo.short_read o ->
  readable (run_op o b) = Fifo.step o (readable b).
Proof.
  intros Hwf Hfeas Hshort.
  destruct o as [data|len| |len| |len|r]; cbn [run_op Fifo.step Fifo.short_read] in *.
  - by apply readable_append.
  - rewrite readable_retrieve by (done || lia). f_equal. lia.
  - done.
  - destruct (readable_retrieve_as_string (Z.of_N len) b) as [_ ->]; [done|lia|].
    f_equal. lia.
  - unfold retrieve_all_as_string.
    assert (0 <= readable_bytes b) by (rewrite wf_readable by done; destruct Hwf; lia).
    destruct (readable_retrieve_as_string (readable_bytes b) b) as [_ ->]; [done..|].
    apply drop_ge. pose proof (length_readable b Hwf). lia.
  - apply readable_ensure_writable; [done|lia|done].
  - destruct r as [e|avail]; [done|].
    destruct (read_fd_ok avail b Hwf Hfeas) as (_ & -> & _).
    f_equal. apply take_ge. pose proof (read_fd_capacity_ge b Hwf). lia.
Qed.

(** X1. Appending is first-in first-out on the readable region: after
    [append(data, len)] the readable bytes are the old readable bytes
    followed by [data], whether the buffer had room, compacted or grew. *)
Theorem append_extends_readable (data : list byte) (b : Buffer.t) :
  wf b -> feasible (Z.of_nat (length data)) b ->
  readable (append data b) = readable b ++ data /\
  readable_bytes (append data b) = readable_bytes b + Z.of_nat (length data) /\
  wf (append data b).
Proof.
  intros Hwf Hfeas.
  pose proof (readable_append data b Hwf Hfeas) as Heq.
  pose proof (wf_append data b Hwf Hfeas) as Hwf'.
  split_and!; [done| |done].
  rewrite <- (length_readable _ Hwf'), <- (length_readable _ Hwf), Heq, length_app. lia.
Qed.

(** X2. [retrieve(len)] consumes exactly the first [len] readable bytes and
    nothing else; asked for as many bytes as are readable or more, it
    empties the buffer and puts both cursors back at [kCheapPrepend].  The
    storage is never resized. *)
Theorem retrieve_consumes_prefix (len : N) (b : Buffer.t) :
  wf b ->
  readable (retrieve (Z.of_N len) b) = drop (N.to_nat len) (readable b) /\
  size (retrieve (Z.of_N len) b) = size b /\
  (readable_bytes b <= Z.of_N len ->
   readerIndex_ (retrieve (Z.of_N len) b) = kCheapPrepend /\
   writerIndex_ (retrieve (Z.of_N len) b) = kCheapPrepend) /\
  (Z.of_N len < readable_bytes b ->
   readerIndex_ (retrieve (Z.of_N len) b) = readerIndex_ b + Z.of_N len /\
   writerIndex_ (retrieve (Z.of_N len) b) = writerIndex_ b).
Proof.
  intros Hwf. split_and!.
  - rewrite readable_retrieve by (done || lia). f_equal. lia.
  - apply size_retrieve.
  - intros Hall. unfold retrieve.
    destruct (Z.ltb_spec (Z.of_N len) (readable_bytes b)); [lia|done].
  - intros Hpart. unfold retrieve.
    destruct (Z.ltb_spec (Z.of_N len) (readable_bytes b)); [|lia]. simpl.
    rewrite wf_readable in * by done. destruct Hwf.
    unfold add, size, kCheapPrepend in *. unwrap'. done.
Qed.

(** X3. [retrieve_as_string(len)] splits the readable bytes: it returns the
    first [len] of them (all of them when fewer are readable, never bytes
    past the writer) and leaves the rest readable, in order. *)
Theorem retrieve_as_string_splits (len : N) (b : Buffer.t) :
  wf b ->
  let result := (retrieve_as_string (Z.of_N len) b).1 in
  let b' := (retrieve_as_string (Z.of_N len) b).2 in
  result = take (N.to_nat len) (readable b) /\
  readable b' = drop (N.to_nat len) (readable b) /\
  result ++ readable b' = readable b /\
  Z.of_nat (length result) = Z.min (Z.of_N len) (readable_bytes b).
Proof.
  intros Hwf result b'.
  destruct (readable_retrieve_as_string (Z.of_N len) b) as [Hres Hrest]; [done|lia|].
  replace (Z.to_nat (Z.of_N len)) with (N.to_nat len) in * by lia.
  subst result b'. rewrite Hres, Hrest. split_and!; [done|done|apply take_drop|].
  rewrite length_take. pose proof (length_readable b Hwf). lia.
Qed.

(** X4. Round trip: what is appended to a buffer comes back from
    [retrieve_all_as_string], after the bytes that were pending before it,
    and the buffer is then empty with its cursors at [kCheapPrepend]. *)
Theorem append_retrieve_round_trip (data : list byte) (b : Buffer.t) :
  wf b -> feasible (Z.of_nat (length data)) b ->
  (retrieve_all_as_string (append data b)).1 = readable b ++ data /\
  readable_bytes (retrieve_all_as_string (append data b)).2 = 0 /\
  readerIndex_ (retrieve_all_as_string (append data b)).2 = kCheapPrepend.
Proof.
  intros Hwf Hfeas.
  pose proof (wf_append data b Hwf Hfeas) as Hwf'.
  pose proof (length_readable _ Hwf') as Hl.
  assert (0 <= readable_bytes (append data b)) as H0 by lia.
  unfold retrieve_all_as_string.
  destruct (readable_retrieve_as_string (readable_bytes (append data b)) (append data b))
    as [Hres _]; [done..|].
  split_and!.
  - rewrite Hres, take_ge by lia. by apply readable_append.
  - unfold retrieve_as_string, retrieve. simpl. rewrite Z.min_id.
    by rewrite Z.ltb_irrefl.
  - unfold retrieve_as_string, retrieve. simpl. rewrite Z.min_id.
    by rewrite Z.ltb_irrefl.
Qed.

(** X5. [read_fd] appends exactly what [::readv] delivered: on success the
    return value is the number of bytes taken, no errno is saved, and the
    bytes follow the readable ones in order, also when they overflow the
    writable region into [extrabuf] and the buffer has to grow.  On failure
    it returns -1, saves the errno and leaves the buffer as it was. *)
Theorem read_fd_appends_delivered (r : readv_result) (b : Buffer.t) :
  wf b -> feasible_op (OpReadFd r) b ->
  match r with
  | ReadvErr e => read_fd r b = (-1, Some e, b)
  | ReadvOk avail =>
      let data := take (Z.to_nat (Fifo.read_fd_capacity b)) avail in
      (read_fd r b).1 = (Z.of_nat (length data), None) /\
      readable (read_fd r b).2 = readable b ++ data /\
      (Z.of_nat (length avail) <= extrabuf_size -> data = avail)
  end.
Proof.
  intros Hwf Hfeas. destruct r as [e|avail]; [done|].
  destruct (read_fd_ok avail b Hwf Hfeas) as (Hn & Hdata & _).
  split_and!; [done..|].
  intros Hshort. apply take_ge. pose proof (read_fd_capacity_ge b Hwf). lia.
Qed.

(** X6. [ensure_writable_bytes(len)] delivers what its name says: afterwards
    at least [len] bytes are writable, the readable bytes are the same, the
    prepend area is kept and the storage has not shrunk. *)
Theorem ensure_writable_contract (len : N) (b : Buffer.t) :
  wf b -> feasible (Z.of_N len) b ->
  let b' := ensure_writable_bytes (Z.of_N len) b in
  Z.of_N len <= writable_bytes b' /\
  readable b' = readable b /\
  kCheapPrepend <= prependable_bytes b' /\
  size b <= size b'.
Proof.
  intros Hwf Hfeas b'.
  destruct (wf_ensure_writable (Z.of_N len) b) as [Hwf' Hroom]; [done|lia|done|].
  split_and!.
  - done.
  - apply readable_ensure_writable; [done|lia|done].
  - by destruct Hwf'.
  - apply size_ensure_writable_le; [done|lia|done].
Qed.

(** X7. The storage of a buffer never shrinks: on a buffer in the layout
    of the class diagram ([wf]), over any sequence of operations in which
    every sum [writerIndex_ + len] computed to make room is representable
    in a [size_t] ([all_fit]), [buffer_.size()] only stays or grows. *)
Theorem capacity_never_shrinks (ops : list op) : forall b : Buffer.t,
  wf b -> all_fit ops b -> size b <= size (run ops b).
Proof.
  induction ops as [|o ops IH]; intros b Hwf Hfit; simpl; [done|].
  destruct Hfit as [Ho Hrest].
  etrans; [apply (size_run_op_le o b Hwf (fits_feasible o b Ho))|].
  apply IH; [|done]. apply wf_run_op; [done|by apply fits_feasible].
Qed.

(** X8. A buffer is a byte queue: on a buffer in the layout of the class
    diagram ([wf]), over any sequence of operations in which every sum
    [writerIndex_ + len] computed to make room is representable in a
    [size_t] ([all_fit]) and no read delivers more than [extrabuf] holds,
    the readable bytes are those of the queue that appends and reads push
    to and retrievals pop from, whatever compaction and growth happened on
    the way. *)
Theorem buffer_is_fifo (ops : list op) : forall b : Buffer.t,
  wf b -> all_fit ops b -> Forall Fifo.short_read ops ->
  readable (run ops b) = Fifo.run ops (readable b).
Proof.
  induction ops as [|o ops IH]; intros b Hwf Hfit Hshort; simpl; [done|].
  destruct Hfit as [Ho Hrest]. apply Forall_cons in Hshort as [Hso Hsops].
  rewrite IH; [|apply wf_run_op; [done|by apply fits_feasible]|done|done].
  unfold Fifo.run. simpl. f_equal.
  apply readable_run_op; [done|by apply fits_feasible|done].
Qed.

Lemma wf_demo : wf Fifo.demo.
Proof. split; vm_compute; congruence. Qed.

Lemma append_extends_readable_witness :
  readable (append Fifo.hello Fifo.demo) = Fifo.pending ++ Fifo.hello /\
  readable_bytes (append Fifo.hello Fifo.demo) = 15 /\
  size (append Fifo.hello Fifo.demo) = 32.
Proof.
  destruct (append_extends_readable Fifo.hello Fifo.demo wf_demo) as (Hq & Hn & Hwf).
  - left. vm_compute. congruence.
  - split_and!; [exact Hq|exact Hn|reflexivity].
Defined.

Lemma retrieve_consumes_prefix_witness :
  readable (retrieve 4 Fifo.demo) = drop 4 Fifo.pending /\
  readerIndex_ (retrieve 10 Fifo.demo) = kCheapPrepend.
Proof.
  split.
  - exact (proj1 (retrieve_consumes_prefix 4 Fifo.demo wf_demo)).
  - destruct (retrieve_consumes_prefix 10 Fifo.demo wf_demo) as (_ & _ & Hall & _).
    apply Hall. vm_compute. congruence.
Defined.

Lemma retrieve_as_string_splits_witness :
  (retrieve_as_string 4 Fifo.demo).1 = take 4 Fifo.pending /\
  (retrieve_as_string 64 Fifo.demo).1 = Fifo.pending.
Proof.
  split.
  - exact (proj1 (retrieve_as_string_splits 4 Fifo.demo wf_demo)).
  - exact (proj1 (retrieve_as_string_splits 64 Fifo.demo wf_demo)).
Defined.

Lemma append_retrieve_round_trip_witness :
  (retrieve_all_as_string (append Fifo.hello (make 0))).1 = Fifo.hello.
Proof.
  refine (proj1 (append_retrieve_round_trip Fifo.hello (make 0) _ _)).
  - apply wf_make; [done|vm_compute; reflexivity].
  - right. vm_compute. reflexivity.
Defined.

Lemma read_fd_appends_delivered_witness :
  readable (read_fd (ReadvOk Fifo.hello) Fifo.demo).2 = Fifo.pending ++ Fifo.hello /\
  read_fd (ReadvErr 104) Fifo.demo = (-1, Some 104, Fifo.demo).
Proof.
  split.
  - destruct (read_fd_appends_delivered (ReadvOk Fifo.hello) Fifo.demo wf_demo)
      as (_ & Hq & Hall).
    + left. vm_compute. congruence.
    + rewrite Hq, Hall; [reflexivity|]. vm_compute. congruence.
  - apply (read_fd_appends_delivered (ReadvErr 104) Fifo.demo wf_demo). exact I.
Defined.

Lemma ensure_writable_contract_witness :
  100 <= writable_bytes (ensure_writable_bytes 100 Fifo.demo) /\
  readable (ensure_writable_bytes 100 Fifo.demo) = Fifo.pending.
Proof.
  destruct (ensure_writable_contract 100 Fifo.demo wf_demo) as (Hroom & Hq & _).
  - right. vm_compute. reflexivity.
  - split; [exact Hroom|exact Hq].
Defined.

Lemma capacity_never_shrinks_witness :
  size Fifo.demo <=
  size (run [OpAppend Fifo.hello; OpRetrieveAll; OpEnsureWritable 100;
             OpReadFd (ReadvOk Fifo.pending)] Fifo.demo).
Proof.
  apply capacity_never_shrinks; [exact wf_demo|].
  vm_compute. repeat split.
Defined.

Lemma buffer_is_fifo_witness :
  readable (run [OpAppend Fifo.hello; OpRetrieve 12; OpReadFd (ReadvOk Fifo.pending);
                 OpEnsureWritable 100; OpRetrieveAsString 1] Fifo.demo)
  = [x6c; x6f] ++ Fifo.pending.
Proof.
  rewrite buffer_is_fifo; [reflexivity|exact wf_demo| |].
  - vm_compute. repeat split.
  - repeat constructor; vm_compute; congruence.
Defined.

End BufferContents.

(** ** Interest masks *)

Section MaskFacts.

Import Channel.

Lemma is_reading_event_bits c :
  is_reading_event c = Z.testbit (events_ c) 0 || Z.testbit (events_ c) 1.
Proof. apply truthy_in_pri. Qed.

Lemma is_writing_event_bit2 c : is_writing_event c = Z.testbit (events_ c) 2.
Proof. apply truthy_out. Qed.

Ltac mask_bits :=
  rewrite ?is_reading_event_bits, ?is_writing_event_bit2;
  unfold enable_reading, disable_reading, enable_writing, disable_writing, set_events;
  cbn [events_];
  rewrite ?Z.lor_spec, ?Z.land_spec;
  change (Z.testbit KReadEvent 0) with true;
  change (Z.testbit KReadEvent 1) with true;
  change (Z.testbit KReadEvent 2) with false;
  change (Z.testbit KWriteEvent 0) with false;
  change (Z.testbit KWriteEvent 1) with false;
  change (Z.testbit KWriteEvent 2) with true;
  change (Z.testbit (Z.lnot KReadEvent) 0) with false;
  change (Z.testbit (Z.lnot KReadEvent) 1) with false;
  change (Z.testbit (Z.lnot KReadEvent) 2) with true;
  change (Z.testbit (Z.lnot KWriteEvent) 0) with true;
  change (Z.testbit (Z.lnot KWriteEvent) 1) with true;
  change (Z.testbit (Z.lnot KWriteEvent) 2) with false;
  rewrite ?orb_true_r, ?orb_false_r, ?andb_true_r, ?andb_false_r.

(** X9. Read interest and write interest are independent bits of the mask:
    enabling or disabling one sets or clears it and leaves the other as it
    was, for every mask; [disable_all] clears both. *)
Theorem interest_bits_independent (c : Channel.t) :
  (is_reading_event (enable_reading c) = true /\
   is_writing_event (enable_reading c) = is_writing_event c) /\
  (is_reading_event (disable_reading c) = false /\
   is_writing_event (disable_reading c) = is_writing_event c) /\
  (is_writing_event (enable_writing c) = true /\
   is_reading_event (enable_writing c) = is_reading_event c) /\
  (is_writing_event (disable_writing c) = false /\
   is_reading_event (disable_writing c) = is_reading_event c) /\
  (is_none_event (disable_all c) = true /\
   is_reading_event (disable_all c) = false /\
   is_writing_event (disable_all c) = false).
Proof.
  split_and!; try done; by mask_bits.
Qed.

(** The masks the member functions of [Channel] can produce. *)
Lemma mask_closed c :
  events_ c ∈ [KNoneEvent; KReadEvent; KWriteEvent; Z.lor KReadEvent KWriteEvent] ->
  forall f, f ∈ [enable_reading; disable_reading; enable_writing; disable_writing; disable_all] ->
  events_ (f c) ∈ [KNoneEvent; KReadEvent; KWriteEvent; Z.lor KReadEvent KWriteEvent].
Proof.
  intros Hc f Hf.
  repeat (apply elem_of_cons in Hf as [->|Hf]); [..|by apply elem_of_nil in Hf];
    unfold enable_reading, disable_reading, enable_writing, disable_writing,
      disable_all, set_events; cbn [events_];
    repeat (apply elem_of_cons in Hc as [->|Hc]); try (by apply elem_of_nil in Hc);
    apply list_elem_of_In; vm_compute; tauto.
Qed.

(** X10. A channel's interest mask is always one of: nothing, read
    (EPOLLIN | EPOLLPRI), write (EPOLLOUT), or both.  A new channel has the
    empty mask; each of [enable_reading] ... [disable_all] assigns a mask
    of this set to a channel that has one, and the [update()] that closes
    it, which is [update_channel] of the poller, leaves the mask that was
    assigned and the descriptor as they are.  For such a mask
    [is_none_event] holds exactly when the channel neither reads nor
    writes. *)
Theorem interest_mask_closed (fd : Z) (c : Channel.t) :
  let masks := [KNoneEvent; KReadEvent; KWriteEvent; Z.lor KReadEvent KWriteEvent] in
  events_ (make fd) ∈ masks /\
  (events_ c ∈ masks ->
   (forall f, f ∈ [enable_reading; disable_reading; enable_writing; disable_writing;
                   disable_all] ->
      events_ (f c) ∈ masks /\
      forall (a : positive) (p : Poller.t),
        events_ (Poller.update_channel a (f c) p).1 = events_ (f c) /\
        fd_ (Poller.update_channel a (f c) p).1 = fd_ c) /\
   is_none_event c = negb (is_reading_event c || is_writing_event c)).
Proof.
  intros masks. split; [by apply list_elem_of_In; vm_compute; tauto|].
  intros Hc. split.
  - intros f Hf. split; [by apply mask_closed|].
    intros a p. destruct (update_channel_fields a (f c) p) as [-> ->].
    split; [done|].
    repeat (apply elem_of_cons in Hf as [->|Hf]); [..|by apply elem_of_nil in Hf]; done.
  - unfold is_none_event, is_reading_event, is_writing_event.
    repeat (apply elem_of_cons in Hc as [->|Hc]); [..|by apply elem_of_nil in Hc]; done.
Qed.

Lemma interest_mask_closed_witness :
  events_ (Poller.update_channel 1%positive (enable_reading (make 7)) Poller.make).1 ∈
    [KNoneEvent; KReadEvent; KWriteEvent; Z.lor KReadEvent KWriteEvent] /\
  is_none_event (make 7) = negb (is_reading_event (make 7) || is_writing_event (make 7)).
Proof.
  destruct (interest_mask_closed 7 (make 7)) as [H0 Hstep].
  destruct (Hstep H0) as [Hops Hnone].
  split; [|exact Hnone].
  destruct (Hops enable_reading) as [Hmask Hupd].
  - apply list_elem_of_In. simpl. tauto.
  - destruct (Hupd 1%positive Poller.make) as [-> _]. exact Hmask.
Defined.

End MaskFacts.

(** ** Channels, poller and kernel *)

Section ReactorFacts.

Import Reactor.

Lemma replay_app cs1 : forall cs2 k,
  replay (cs1 ++ cs2) k = replay cs1 k ≫= replay cs2.
Proof.
  induction cs1 as [|c cs1 IH]; intros cs2 k; simpl; [done|].
  destruct (epoll_ctl k c); simpl; [apply IH|done].
Qed.

(** One channel changes, and the map and the interest list change at its
    descriptor only. *)
Lemma consistent_change r k a c c' m' k' cs :
  consistent r k -> objects r !! a = Some c ->
  Channel.fd_ c' = Channel.fd_ c ->
  (Channel.index_ c' = Poller.kNew \/ Channel.index_ c' = Poller.kAdded \/
   Channel.index_ c' = Poller.kDeleted) ->
  (forall fd, fd <> Channel.fd_ c -> m' !! fd = Poller.channels_ (poller_ r) !! fd) ->
  (forall fd, fd <> Channel.fd_ c -> k' !! fd = k !! fd) ->
  m' !! Channel.fd_ c = (if Channel.index_ c' =? Poller.kNew then None else Some a) ->
  k' !! Channel.fd_ c =
    (if Channel.index_ c' =? Poller.kAdded then Some (Channel.events_ c', a) else None) ->
  consistent {| objects := <[a := c']> (objects r);
                poller_ := {| Poller.channels_ := m'; Poller.calls := cs |};
                events_ := events_ r |} k'.
Proof.
  intros [Htag Hmap Hker Hmo Hko Hfd] Ha Hfdc Htag' Hm' Hk' Hma Hka.
  assert (forall b cb, b <> a -> objects r !! b = Some cb ->
                       Channel.fd_ cb <> Channel.fd_ c) as Hother.
  { intros b cb Hne Hb Heq. apply Hne. by apply (Hfd b a cb c). }
  split; simpl.
  - intros b cb. destruct (decide (b = a)) as [->|Hne].
    + rewrite lookup_insert_eq. by intros [= <-].
    + rewrite lookup_insert_ne by done. apply Htag.
  - intros b cb. destruct (decide (b = a)) as [->|Hne].
    + rewrite lookup_insert_eq. intros [= <-]. by rewrite Hfdc.
    + rewrite lookup_insert_ne by done. intros Hb.
      rewrite Hm' by by apply (Hother b). by apply Hmap.
  - intros b cb. destruct (decide (b = a)) as [->|Hne].
    + rewrite lookup_insert_eq. intros [= <-]. by rewrite Hfdc.
    + rewrite lookup_insert_ne by done. intros Hb.
      rewrite Hk' by by apply (Hother b). by apply Hker.
  - intros fd b. destruct (decide (fd = Channel.fd_ c)) as [->|Hne].
    + rewrite Hma. destruct (Channel.index_ c' =? Poller.kNew); [intros; discriminate|].
      intros [= <-].
      exists c'. by rewrite lookup_insert_eq.
    + rewrite Hm' by done. intros Hb.
      destruct (Hmo fd b Hb) as (cb & Hcb & Hfdb).
      exists cb. split; [|done]. rewrite lookup_insert_ne; [done|].
      intros ->. rewrite Ha in Hcb. by injection Hcb as <-.
  - intros fd e b. destruct (decide (fd = Channel.fd_ c)) as [->|Hne].
    + rewrite Hka. destruct (Channel.index_ c' =? Poller.kAdded); [|intros; discriminate].
      intros [= <- <-].
      exists c'. by rewrite lookup_insert_eq.
    + rewrite Hk' by done. intros Hb.
      destruct (Hko fd e b Hb) as (cb & Hcb & Hfdb).
      exists cb. split; [|done]. rewrite lookup_insert_ne; [done|].
      intros ->. rewrite Ha in Hcb. by injection Hcb as <-.
  - intros b b' cb cb'.
    destruct (decide (b = a)) as [->|Hne], (decide (b' = a)) as [->|Hne'];
      rewrite ?lookup_insert_eq, ?lookup_insert_ne by done.
    + done.
    + intros [= <-] Hb' Heq. exfalso. apply (Hother b' cb' Hne' Hb'). congruence.
    + intros Hb [= <-] Heq. exfalso. apply (Hother b cb Hne Hb). congruence.
    + apply Hfd.
Qed.

Ltac lookup_simpl :=
  repeat first
    [ rewrite lookup_insert_eq | rewrite lookup_delete_eq
    | rewrite lookup_insert_ne by congruence
    | rewrite lookup_delete_ne by congruence ].

(** [update_channel] on a channel of the loop: the call it makes succeeds,
    and tags, map and interest list agree afterwards. *)
Lemma consistent_update r k a c c0 :
  consistent r k -> objects r !! a = Some c ->
  Channel.fd_ c0 = Channel.fd_ c -> Channel.index_ c0 = Channel.index_ c ->
  exists new k',
    Poller.calls (Poller.update_channel a c0 (poller_ r)).2 =
      Poller.calls (poller_ r) ++ new /\
    replay new k = Some k' /\
    consistent {| objects := <[a := (Poller.update_channel a c0 (poller_ r)).1]> (objects r);
                  poller_ := (Poller.update_channel a c0 (poller_ r)).2;
                  events_ := events_ r |} k'.
Proof.
  intros Hcons Ha Hfd Hidx.
  pose proof (cons_tag r k Hcons a c Ha) as Htag.
  pose proof (cons_kernel r k Hcons a c Ha) as Hker.
  pose proof (cons_map r k Hcons a c Ha) as Hmap.
  rewrite <- Hidx in Htag, Hker, Hmap. rewrite <- Hfd in Hker, Hmap.
  destruct Htag as [Hnew|[Hadded|Hdeleted]].
  - rewrite update_channel_new by done. rewrite Hnew in Hker, Hmap. simpl in *.
    eexists _, _. split; [done|]. split.
    { simpl. unfold epoll_ctl. simpl. rewrite Hker. done. }
    eapply consistent_change; [done..|by right; left| | | |]; simpl;
      intros; rewrite <- ?Hfd; lookup_simpl; done.
  - rewrite update_channel_added by done. rewrite Hadded in Hker, Hmap. simpl in *.
    destruct (Channel.is_none_event c0).
    + eexists _, _. split; [done|]. split.
      { simpl. unfold epoll_ctl. simpl. rewrite Hker. done. }
      eapply consistent_change; [done..|by right; right| | | |]; simpl;
        intros; rewrite <- ?Hfd; lookup_simpl; done.
    + eexists _, _. split; [done|]. split.
      { simpl. unfold epoll_ctl. simpl. rewrite Hker. done. }
      eapply consistent_change; [done..|by right; left| | | |]; simpl;
        intros; rewrite <- ?Hfd, ?Hadded; lookup_simpl; done.
  - rewrite update_channel_deleted by done. rewrite Hdeleted in Hker, Hmap. simpl in *.
    eexists _, _. split; [done|]. split.
    { simpl. unfold epoll_ctl. simpl. rewrite Hker. done. }
    eapply consistent_change; [done..|by right; left| | | |]; simpl;
      intros; rewrite <- ?Hfd; lookup_simpl; done.
Qed.

Lemma consistent_remove r k a c :
  consistent r k -> objects r !! a = Some c ->
  exists new k',
    Poller.calls (Poller.remove_channel a c (poller_ r)).2 =
      Poller.calls (poller_ r) ++ new /\
    replay new k = Some k' /\
    consistent {| objects := <[a := (Poller.remove_channel a c (poller_ r)).1]> (objects r);
                  poller_ := (Poller.remove_channel a c (poller_ r)).2;
                  events_ := events_ r |} k'.
Proof.
  intros Hcons Ha.
  pose proof (cons_tag r k Hcons a c Ha) as Htag.
  pose proof (cons_kernel r k Hcons a c Ha) as Hker.
  pose proof (cons_map r k Hcons a c Ha) as Hmap.
  rewrite remove_channel_registered.
  2:{ intros Hne. rewrite Hmap. by destruct (Z.eqb_spec (Channel.index_ c) Poller.kNew). }
  simpl. destruct (Z.eqb_spec (Channel.index_ c) Poller.kAdded) as [Hadded|Hne].
  - eexists _, _. split; [done|]. split.
    { simpl. unfold epoll_ctl. simpl. rewrite Hker. done. }
    eapply consistent_change; [done..|by left| | | |]; simpl;
      intros; lookup_simpl; done.
  - exists [], k. split; [done|]. split; [done|].
    eapply consistent_change; [done..|by left| | | |]; simpl;
      intros; lookup_simpl; done.
Qed.

Lemma consistent_call a o r k :
  consistent r k ->
  exists new k',
    Poller.calls (poller_ (call a o r)) = Poller.calls (poller_ r) ++ new /\
    replay new k = Some k' /\
    consistent (call a o r) k'.
Proof.
  intros Hcons. unfold call.
  destruct (objects r !! a) as [c|] eqn:Ha.
  2:{ exists [], k. by rewrite app_nil_r. }
  destruct o.
  1-5: match goal with
       | |- context [Poller.update_channel _ ?c0 _] =>
           destruct (consistent_update r k a c c0 Hcons Ha eq_refl eq_refl)
             as (new & k' & Hcalls & Hreplay & Hcons');
           destruct (Poller.update_channel a c0 (poller_ r)) as [c' p'] eqn:Hup
       end; by exists new, k'.
  destruct (consistent_remove r k a c Hcons Ha) as (new & k' & Hcalls & Hreplay & Hcons').
  destruct (Poller.remove_channel a c (poller_ r)) as [c' p'] eqn:Hup.
  by exists new, k'.
Qed.

(** *** [poll] *)

(** The loop of [fill_active_channels] reads back what [epoll_wait]
    wrote. *)
Lemma fill_reads_back got : forall pre rest st,
  foldl (fill_one (pre ++ map (fun ea => mk_event ea.1 (Some ea.2)) got ++ rest)) st
        (seq (length pre) (length got))
  = foldl (fun st ea => (alter (Channel.set_revents ea.1) ea.2 st.1, st.2 ++ [ea.2]))
          st got.
Proof.
  induction got as [|[e a] got IH]; intros pre rest st; simpl; [done|].
  unfold fill_one at 2.
  rewrite list_lookup_middle by done. simpl.
  specialize (IH (pre ++ [mk_event e (Some a)]) rest).
  rewrite length_app, Nat.add_1_r, <- app_assoc in IH. simpl in IH.
  apply IH.
Qed.

Lemma fill_active got : forall (st : gmap positive Channel.t * list positive),
  (foldl (fun st ea => (alter (Channel.set_revents ea.1) ea.2 st.1, st.2 ++ [ea.2]))
         st got).2 = st.2 ++ got.*2.
Proof.
  induction got as [|[e a] got IH]; intros st; simpl; [by rewrite app_nil_r|].
  rewrite IH. simpl. by rewrite <- app_assoc.
Qed.

Lemma fill_objects_other got : forall (st : gmap positive Channel.t * list positive) a,
  a ∉ got.*2 ->
  (foldl (fun st ea => (alter (Channel.set_revents ea.1) ea.2 st.1, st.2 ++ [ea.2]))
         st got).1 !! a = st.1 !! a.
Proof.
  induction got as [|[e b] got IH]; intros st a Hnot; simpl; [done|].
  simpl in Hnot. apply not_elem_of_cons in Hnot as [Hne Hnot].
  rewrite IH by done. simpl. by rewrite lookup_alter_ne.
Qed.

Lemma fill_objects_reported got : forall (st : gmap positive Channel.t * list positive) e a,
  NoDup got.*2 -> (e, a) ∈ got ->
  (foldl (fun st ea => (alter (Channel.set_revents ea.1) ea.2 st.1, st.2 ++ [ea.2]))
         st got).1 !! a = Channel.set_revents e <$> st.1 !! a.
Proof.
  induction got as [|[e' b] got IH]; intros st e a Hnd Hin; simpl.
  { by apply elem_of_nil in Hin. }
  simpl in Hnd. apply NoDup_cons in Hnd as [Hfirst Hnd].
  apply elem_of_cons in Hin as [[= -> ->]|Hin].
  - rewrite fill_objects_other by done. simpl. by rewrite lookup_alter_eq.
  - rewrite (IH _ e a) by done. simpl.
    rewrite lookup_alter_ne; [done|].
    intros ->. apply Hfirst. apply list_elem_of_fmap. by exists (e, a).
Qed.

(** Whatever is reported, a channel keeps its descriptor, its tag and its
    interest mask. *)
Lemma fill_objects_interest got : forall (st : gmap positive Channel.t * list positive) a,
  exists g : Channel.t -> Channel.t,
    (forall c, Channel.fd_ (g c) = Channel.fd_ c /\
               Channel.index_ (g c) = Channel.index_ c /\
               Channel.events_ (g c) = Channel.events_ c) /\
    (foldl (fun st ea => (alter (Channel.set_revents ea.1) ea.2 st.1, st.2 ++ [ea.2]))
           st got).1 !! a = g <$> st.1 !! a.
Proof.
  induction got as [|[e b] got IH]; intros st a; simpl.
  { exists id. split; [done|]. by rewrite option_fmap_id. }
  destruct (IH (alter (Channel.set_revents e) b st.1, st.2 ++ [b]) a) as (g & Hg & ->).
  simpl. destruct (decide (b = a)) as [->|Hne].
  - exists (g ∘ Channel.set_revents e). split.
    + intros c. simpl. destruct (Hg (Channel.set_revents e c)) as (-> & -> & ->). done.
    + rewrite lookup_alter_eq. by rewrite option_fmap_compose.
  - exists g. split; [done|]. by rewrite lookup_alter_ne.
Qed.

Lemma consistent_same_interest r k objs ev :
  (forall a, exists g : Channel.t -> Channel.t,
     (forall c, Channel.fd_ (g c) = Channel.fd_ c /\
                Channel.index_ (g c) = Channel.index_ c /\
                Channel.events_ (g c) = Channel.events_ c) /\
     objs !! a = g <$> objects r !! a) ->
  consistent r k ->
  consistent {| objects := objs; poller_ := poller_ r; events_ := ev |} k.
Proof.
  intros Hsame [Htag Hmap Hker Hmo Hko Hfd].
  assert (forall a c', objs !! a = Some c' ->
            exists c, objects r !! a = Some c /\ Channel.fd_ c' = Channel.fd_ c /\
                      Channel.index_ c' = Channel.index_ c /\
                      Channel.events_ c' = Channel.events_ c) as Hback.
  { intros a c' Hc'. destruct (Hsame a) as (g & Hg & Heq). rewrite Heq in Hc'.
    destruct (objects r !! a) as [c|]; [|done]. injection Hc' as <-.
    exists c. split; [done|]. apply Hg. }
  assert (forall a c, objects r !! a = Some c ->
            exists c', objs !! a = Some c' /\ Channel.fd_ c' = Channel.fd_ c) as Hforth.
  { intros a c Hc. destruct (Hsame a) as (g & Hg & Heq). rewrite Hc in Heq.
    exists (g c). split; [done|]. apply Hg. }
  split; simpl.
  - intros a c' Hc'. destruct (Hback a c' Hc') as (c & Hc & _ & -> & _). by apply (Htag a).
  - intros a c' Hc'. destruct (Hback a c' Hc') as (c & Hc & -> & -> & _). by apply Hmap.
  - intros a c' Hc'. destruct (Hback a c' Hc') as (c & Hc & -> & -> & ->). by apply Hker.
  - intros fd a Hfda. destruct (Hmo fd a Hfda) as (c & Hc & <-). by apply Hforth.
  - intros fd e a Hfda. destruct (Hko fd e a Hfda) as (c & Hc & <-). by apply Hforth.
  - intros a a' c1 c2 H1 H2.
    destruct (Hback a c1 H1) as (d1 & Hd1 & -> & _).
    destruct (Hback a' c2 H2) as (d2 & Hd2 & -> & _).
    by apply Hfd.
Qed.

(** [poll] with ready events, in terms of what the kernel wrote. *)
Lemma poll_ready ready activeChannels r :
  let got := take (length (events_ r)) ready in
  let filled := foldl (fun st ea =>
                         (alter (Channel.set_revents ea.1) ea.2 st.1, st.2 ++ [ea.2]))
                      (objects r, activeChannels) got in
  got <> [] ->
  poll (WaitReady ready) activeChannels r =
    (filled.2, false,
     {| objects := filled.1;
        poller_ := poller_ r;
        events_ :=
          let events := map (fun ea => mk_event ea.1 (Some ea.2)) got ++
                        drop (length got) (events_ r) in
          if Z.of_nat (length events) =? Z.of_nat (length got)
          then resize (2 * Z.of_nat (length events)) events else events |}).
Proof.
  intros got filled Hne. unfold poll, epoll_wait. fold got.
  assert (0 < Z.of_nat (length got)) as Hpos.
  { destruct got; [done|simpl; lia]. }
  destruct (Z.ltb_spec 0 (Z.of_nat (length got))); [|lia].
  unfold fill_active_channels. rewrite Nat2Z.id.
  pose proof (fill_reads_back got [] (drop (length got) (events_ r))
                (objects r, activeChannels)) as Hfill.
  simpl in Hfill. rewrite Hfill. fold filled.
  by destruct filled.
Qed.

Lemma poll_idle ready activeChannels r :
  take (length (events_ r)) ready = [] ->
  poll (WaitReady ready) activeChannels r = (activeChannels, false, r).
Proof. intros Hgot. unfold poll, epoll_wait. rewrite Hgot. done. Qed.

Lemma poll_error e activeChannels r :
  poll (WaitErr e) activeChannels r = (activeChannels, negb (e =? EINTR), r).
Proof. done. Qed.

Lemma consistent_poll w activeChannels r k :
  consistent r k ->
  poller_ (poll w activeChannels r).2 = poller_ r /\
  consistent (poll w activeChannels r).2 k.
Proof.
  intros Hcons. destruct w as [ready|e]; [|by rewrite poll_error].
  destruct (decide (take (length (events_ r)) ready = [])) as [Hnil|Hne].
  { by rewrite poll_idle. }
  rewrite poll_ready by done. simpl. split; [done|].
  apply consistent_same_interest; [|done].
  intros a. apply (fill_objects_interest _ (objects r, activeChannels) a).
Qed.

Lemma consistent_step x r k :
  consistent r k ->
  exists new k',
    Poller.calls (poller_ (step x r)) = Poller.calls (poller_ r) ++ new /\
    replay new k = Some k' /\
    consistent (step x r) k'.
Proof.
  intros Hcons. destruct x as [a o|w]; simpl.
  - by apply consistent_call.
  - destruct (consistent_poll w [] r k Hcons) as [-> Hcons'].
    exists [], k. by rewrite app_nil_r.
Qed.

Lemma consistent_run script : forall r k,
  consistent r k ->
  exists new k',
    Poller.calls (poller_ (run script r)) = Poller.calls (poller_ r) ++ new /\
    replay new k = Some k' /\
    consistent (run script r) k'.
Proof.
  induction script as [|x script IH]; intros r k Hcons; simpl.
  { exists [], k. by rewrite app_nil_r. }
  destruct (consistent_step x r k Hcons) as (new1 & k1 & Hc1 & Hr1 & Hcons1).
  destruct (IH _ _ Hcons1) as (new2 & k2 & Hc2 & Hr2 & Hcons2).
  exists (new1 ++ new2), k2. split_and!; [|by rewrite replay_app, Hr1|done].
  unfold run in *. rewrite Hc2, Hc1. by rewrite app_assoc.
Qed.

Lemma consistent_make objs : fresh objs -> consistent (make objs) ∅.
Proof.
  intros [Hnew Hfd]. split; simpl.
  - intros a c Hc. left. by rewrite (Hnew a c Hc).
  - intros a c Hc. by rewrite (Hnew a c Hc).
  - intros a c Hc. by rewrite (Hnew a c Hc).
  - intros fd a. by rewrite lookup_empty.
  - intros fd e a. by rewrite lookup_empty.
  - done.
Qed.

(** X11. Channel tags, the poller's map and the kernel's interest list
    never get out of step.  Start from new channels, one per descriptor,
    and let the loop thread enable, disable and remove them and poll in any
    order: every [epoll_ctl] the poller issues is one the kernel accepts
    (no ADD of a registered descriptor, no MOD or DEL of an unregistered
    one), and afterwards a channel is in [channels_] iff it is not [kNew]
    and registered with the kernel, under its current mask and its own
    address, iff it is [kAdded]. *)
Theorem interest_list_agrees (objs : gmap positive Channel.t) (script : list action) :
  fresh objs ->
  exists k,
    replay (Poller.calls (poller_ (run script (make objs)))) ∅ = Some k /\
    consistent (run script (make objs)) k.
Proof.
  intros Hfresh.
  destruct (consistent_run script _ _ (consistent_make objs Hfresh))
    as (new & k & Hcalls & Hreplay & Hcons).
  exists k. split; [|done]. by rewrite Hcalls.
Qed.

(** X12. In any such run [has_channel] answers the tag: it is true for a
    channel of the loop exactly when the channel is not [kNew], that is,
    from its first update until it is removed. *)
Theorem has_channel_tracks_tag (objs : gmap positive Channel.t) (script : list action)
    (a : positive) (c : Channel.t) :
  fresh objs ->
  objects (run script (make objs)) !! a = Some c ->
  Poller.has_channel a c (poller_ (run script (make objs))) =
    negb (Channel.index_ c =? Poller.kNew).
Proof.
  intros Hfresh Ha.
  destruct (consistent_run script _ _ (consistent_make objs Hfresh))
    as (new & k & _ & _ & Hcons).
  unfold Poller.has_channel. rewrite (cons_map _ _ Hcons a c Ha).
  destruct (Channel.index_ c =? Poller.kNew); [done|].
  simpl. by rewrite bool_decide_eq_true_2.
Qed.

(** X13. [poll] hands the loop what the kernel reported: the reported
    channels are appended to the active list in the kernel's order, each
    gets its ready mask in [revents_], no other channel is touched, and
    [events_] doubles exactly when it came back full.  A poll that reports
    nothing or fails changes nothing; a failure is logged unless it is
    EINTR. *)
Theorem poll_reports_ready (w : wait_result) (activeChannels : list positive) (r : t) :
  match w with
  | WaitErr e => poll w activeChannels r = (activeChannels, negb (e =? EINTR), r)
  | WaitReady ready =>
      let got := take (length (events_ r)) ready in
      reports (objects r) got ->
      let r' := (poll w activeChannels r).2 in
      (poll w activeChannels r).1 = (activeChannels ++ got.*2, false) /\
      (forall e a, (e, a) ∈ got ->
         objects r' !! a = Channel.set_revents e <$> objects r !! a) /\
      (forall a, a ∉ got.*2 -> objects r' !! a = objects r !! a) /\
      poller_ r' = poller_ r /\
      length (events_ r') =
        (if decide (length got = length (events_ r))
         then 2 * length (events_ r) else length (events_ r))%nat
  end.
Proof.
  destruct w as [ready|e]; [|done].
  intros got [Hnd Hlive] r'. subst r'.
  destruct (decide (got = [])) as [Hnil|Hne].
  { rewrite poll_idle by done. rewrite Hnil. simpl. rewrite app_nil_r.
    split_and!; try done.
    - intros e a Hin. by apply elem_of_nil in Hin.
    - case_decide as Hlen; [|done]. simpl in Hlen. rewrite <- Hlen. done. }
  rewrite poll_ready by done. fold got. simpl.
  split_and!.
  - by rewrite fill_active.
  - intros e a Hin. by rewrite (fill_objects_reported got _ e a).
  - intros a Hnot. by rewrite fill_objects_other.
  - done.
  - assert (length got <= length (events_ r))%nat as Hle.
    { subst got. rewrite length_take. lia. }
    assert (length (map (fun ea : Z * positive => mk_event ea.1 (Some ea.2)) got ++
                    drop (length got) (events_ r)) = length (events_ r)) as Hlen.
    { rewrite length_app, length_map, length_drop. lia. }
    rewrite Hlen. case_decide as Hfull.
    + destruct (Z.eqb_spec (Z.of_nat (length (events_ r))) (Z.of_nat (length got)));
        [|lia].
      unfold resize. rewrite length_app, length_take, length_replicate, Hlen. lia.
    + destruct (Z.eqb_spec (Z.of_nat (length (events_ r))) (Z.of_nat (length got)));
        [lia|done].
Qed.

Lemma fresh_demo_objects : fresh demo_objects.
Proof.
  assert (forall a c, demo_objects !! a = Some c ->
            (a = 1%positive /\ c = Channel.make 5) \/
            (a = 2%positive /\ c = Channel.make 6)) as Hcases.
  { intros a c. unfold demo_objects.
    rewrite lookup_insert_Some, lookup_insert_Some, lookup_empty.
    intros [[<- <-]|[_ [[<- <-]|[_ ?]]]]; [by left|by right|done]. }
  split.
  - intros a c Hc. by destruct (Hcases a c Hc) as [[_ ->]|[_ ->]].
  - intros a a' c c' Hc Hc'.
    destruct (Hcases a c Hc) as [[-> ->]|[-> ->]],
      (Hcases a' c' Hc') as [[-> ->]|[-> ->]]; done.
Qed.

Lemma interest_list_agrees_witness :
  exists k,
    replay (Poller.calls (poller_ (run demo_script (make demo_objects)))) ∅ = Some k /\
    consistent (run demo_script (make demo_objects)) k.
Proof. exact (interest_list_agrees demo_objects demo_script fresh_demo_objects). Defined.

Lemma has_channel_tracks_tag_witness :
  let r := run demo_script (make demo_objects) in
  exists c1 c2,
    objects r !! 1%positive = Some c1 /\ objects r !! 2%positive = Some c2 /\
    Poller.has_channel 1%positive c1 (poller_ r) = true /\
    Poller.has_channel 2%positive c2 (poller_ r) = true.
Proof.
  intros r. subst r.
  destruct (objects (run demo_script (make demo_objects)) !! 1%positive)
    as [c1|] eqn:H1; [|by vm_compute in H1].
  destruct (objects (run demo_script (make demo_objects)) !! 2%positive)
    as [c2|] eqn:H2; [|by vm_compute in H2].
  exists c1, c2. split_and!; [done|done| |].
  - rewrite (has_channel_tracks_tag demo_objects demo_script _ _ fresh_demo_objects H1).
    vm_compute in H1. by injection H1 as <-.
  - rewrite (has_channel_tracks_tag demo_objects demo_script _ _ fresh_demo_objects H2).
    vm_compute in H2. by injection H2 as <-.
Defined.

Lemma poll_reports_ready_witness :
  (poll (WaitReady [(1, 2%positive); (4, 1%positive)]) [] (make demo_objects)).1
    = ([2; 1]%positive, false) /\
  poll (WaitErr EINTR) [] (make demo_objects) = ([], false, make demo_objects).
Proof.
  split.
  - refine (proj1 (poll_reports_ready (WaitReady [(1, 2%positive); (4, 1%positive)])
                     [] (make demo_objects) _)).
    split; simpl.
    + apply NoDup_cons. split; [by intros ?%list_elem_of_singleton|].
      apply NoDup_singleton.
    + intros a Ha. apply elem_of_cons in Ha as [->|Ha]; [by eexists|].
      apply list_elem_of_singleton in Ha as ->. by eexists.
  - exact (poll_reports_ready (WaitErr EINTR) [] (make demo_objects)).
Defined.

(** What [disable_all()] followed by [remove()] leaves of a channel. *)
Lemma call_lookup a o r c :
  objects r !! a = Some c ->
  objects (call a o r) !! a =
    Some (match o with
          | EnableReading =>
              (Poller.update_channel a (Channel.enable_reading c) (poller_ r)).1
          | DisableReading =>
              (Poller.update_channel a (Channel.disable_reading c) (poller_ r)).1
          | EnableWriting =>
              (Poller.update_channel a (Channel.enable_writing c) (poller_ r)).1
          | DisableWriting =>
              (Poller.update_channel a (Channel.disable_writing c) (poller_ r)).1
          | DisableAll =>
              (Poller.update_channel a (Channel.disable_all c) (poller_ r)).1
          | Remove => (Poller.remove_channel a c (poller_ r)).1
          end).
Proof.
  intros Ha. unfold call. rewrite Ha.
  destruct o;
    match goal with
    | |- context [let '(_, _) := ?x in _] => destruct x
    end; simpl; by rewrite lookup_insert_eq.
Qed.

Lemma call_lookup_other a b o r : a <> b -> objects (call a o r) !! b = objects r !! b.
Proof.
  intros Hne. unfold call. destruct (objects r !! a) as [c|]; [|done].
  destruct o;
    match goal with
    | |- context [let '(_, _) := ?x in _] => destruct x
    end; simpl; by rewrite lookup_insert_ne.
Qed.

Lemma update_channel_not_new a c p :
  Channel.index_ c = Poller.kNew \/ Channel.index_ c = Poller.kAdded \/
  Channel.index_ c = Poller.kDeleted ->
  Channel.index_ (Poller.update_channel a c p).1 <> Poller.kNew.
Proof.
  intros [H|[H|H]].
  - by rewrite update_channel_new.
  - rewrite update_channel_added by done. case_match; simpl; [done|]. by rewrite H.
  - by rewrite update_channel_deleted.
Qed.

(** X26. Tearing a channel down the way the destructors and
    [connect_destroyed] do, [disable_all()] then [remove()], leaves no
    registration behind, whatever the channel went through before: it is
    [kNew] again with an empty mask, its descriptor is neither in
    [channels_] nor in the kernel's interest list, every [epoll_ctl]
    issued on the way succeeded, and the other channels are as they
    were. *)
Theorem teardown_unregisters (objs : gmap positive Channel.t) (script : list action)
    (a : positive) (c : Channel.t) :
  fresh objs ->
  objects (run script (make objs)) !! a = Some c ->
  let r := call a Remove (call a DisableAll (run script (make objs))) in
  exists c' k,
    objects r !! a = Some c' /\
    Channel.fd_ c' = Channel.fd_ c /\
    Channel.index_ c' = Poller.kNew /\
    Channel.events_ c' = Channel.KNoneEvent /\
    Poller.channels_ (poller_ r) !! Channel.fd_ c = None /\
    replay (Poller.calls (poller_ r)) ∅ = Some k /\
    k !! Channel.fd_ c = None /\
    (forall b, b <> a -> objects r !! b = objects (run script (make objs)) !! b).
Proof.
  intros Hfresh Ha r.
  destruct (consistent_run script _ _ (consistent_make objs Hfresh))
    as (new0 & k0 & Hcalls0 & Hreplay0 & Hcons0).
  set (r0 := run script (make objs)) in *.
  destruct (consistent_call a DisableAll r0 k0 Hcons0) as (new1 & k1 & Hcalls1 & Hreplay1 & Hcons1).
  set (r1 := call a DisableAll r0) in *.
  destruct (consistent_call a Remove r1 k1 Hcons1) as (new2 & k2 & Hcalls2 & Hreplay2 & Hcons2).
  fold r in Hcalls2, Hcons2.
  pose proof (call_lookup a DisableAll r0 c Ha) as Ha1. fold r1 in Ha1.
  set (c1 := (Poller.update_channel a (Channel.disable_all c) (poller_ r0)).1) in *.
  pose proof (call_lookup a Remove r1 c1 Ha1) as Ha2. fold r in Ha2.
  set (c2 := (Poller.remove_channel a c1 (poller_ r1)).1) in *.
  destruct (update_channel_fields a (Channel.disable_all c) (poller_ r0)) as [Hfd1 Hev1].
  destruct (remove_channel_fields a c1 (poller_ r1)) as [Hfd2 Hev2].
  fold c1 in Hfd1, Hev1. fold c2 in Hfd2, Hev2.
  change (Channel.fd_ (Channel.disable_all c)) with (Channel.fd_ c) in Hfd1.
  change (Channel.events_ (Channel.disable_all c)) with Channel.KNoneEvent in Hev1.
  assert (Channel.index_ c1 <> Poller.kNew) as Hidx1.
  { apply update_channel_not_new. apply (cons_tag _ _ Hcons0 a c Ha). }
  assert (Channel.index_ c2 = Poller.kNew) as Hidx2.
  { subst c2. rewrite remove_channel_registered; [done|].
    intros _. rewrite (cons_map _ _ Hcons1 a c1 Ha1).
    by destruct (Z.eqb_spec (Channel.index_ c1) Poller.kNew). }
  exists c2, k2. split_and!.
  - done.
  - by rewrite Hfd2, Hfd1.
  - done.
  - by rewrite Hev2, Hev1.
  - rewrite <- Hfd1, <- Hfd2. rewrite (cons_map _ _ Hcons2 a c2 Ha2). by rewrite Hidx2.
  - rewrite Hcalls2, Hcalls1, Hcalls0. simpl.
    rewrite !replay_app, Hreplay0. simpl. rewrite Hreplay1. simpl. done.
  - rewrite <- Hfd1, <- Hfd2. rewrite (cons_kernel _ _ Hcons2 a c2 Ha2). by rewrite Hidx2.
  - intros b Hne. subst r r1. by rewrite !call_lookup_other.
Qed.

Lemma teardown_unregisters_witness :
  let r := call 1%positive Remove (call 1%positive DisableAll
             (run demo_script (make demo_objects))) in
  exists c' k,
    objects r !! 1%positive = Some c' /\
    Channel.index_ c' = Poller.kNew /\
    Poller.channels_ (poller_ r) !! 5 = None /\
    replay (Poller.calls (poller_ r)) ∅ = Some k /\
    k !! 5 = None.
Proof.
  intros r.
  destruct (objects (run demo_script (make demo_objects)) !! 1%positive)
    as [c|] eqn:Hc; [|by vm_compute in Hc].
  destruct (teardown_unregisters demo_objects demo_script 1%positive c
              fresh_demo_objects Hc)
    as (c' & k & H1 & Hfd & Hidx & _ & Hmap & Hreplay & Hk & _).
  assert (Channel.fd_ c = 5) as Hfd5 by (vm_compute in Hc; by injection Hc as <-).
  rewrite Hfd5 in Hmap, Hk.
  by exists c', k.
Defined.

End ReactorFacts.

(** ** The connection table *)

Section ServerFacts.

Import Pool Server.

Lemma accepted_nonneg qs : 0 <= accepted qs.
Proof. induction qs as [|[|conn] qs IH]; simpl; lia. Qed.

Lemma accepted_app qs1 qs2 : accepted (qs1 ++ qs2) = accepted qs1 + accepted qs2.
Proof. induction qs1 as [|[|conn] qs1 IH]; simpl; lia. Qed.

(** The cursor stays on a worker, and the loop handed out is one of the
    pool. *)
Lemma get_next_loop_cursor p :
  on_worker p ->
  baseLoop_ (get_next_loop p).2 = baseLoop_ p /\
  loops_ (get_next_loop p).2 = loops_ p /\
  on_worker (get_next_loop p).2 /\
  (get_next_loop p).1 ∈ get_all_loops p.
Proof.
  unfold on_worker, get_next_loop, get_all_loops.
  destruct (loops_ p) as [|l ls] eqn:Hl; simpl.
  { intros _. rewrite Hl. split_and!; [done|done|by left|by apply list_elem_of_singleton]. }
  intros [|Hcur]; [done|].
  split_and!; [done|done| |].
  - right. destruct (Z.geb_spec (next_ p + 1) (Z.of_nat (S (length ls)))); lia.
  - apply list_elem_of_In, (nth_In (l :: ls)). simpl. lia.
Qed.

Lemma get_all_loops_same p p' :
  baseLoop_ p' = baseLoop_ p -> loops_ p' = loops_ p -> get_all_loops p' = get_all_loops p.
Proof. unfold get_all_loops. by intros -> ->. Qed.

Lemma table_ok_serve q s n0 :
  table_ok n0 s ->
  table_ok n0 (serve q s) /\
  nextConnId_ (serve q s) = nextConnId_ s + accepted [q] /\
  baseLoop_ (threadPool_ (serve q s)) = baseLoop_ (threadPool_ s) /\
  loops_ (threadPool_ (serve q s)) = loops_ (threadPool_ s).
Proof.
  intros (Hcur & Hn0 & Hnd & Hin). destruct q as [|conn]; simpl.
  - destruct (get_next_loop_cursor _ Hcur) as (Hb & Hl & Hc & Hmem).
    pose proof (get_all_loops_same _ _ Hb Hl) as Hall.
    unfold new_connection.
    destruct (get_next_loop (threadPool_ s)) as [ioLoop pool]. simpl in *.
    split_and!; [split_and!| | |]; simpl; [done|lia| | |lia|done|done].
    + apply NoDup_cons. split; [|done].
      intros ((id & l) & Hid & Hc')%list_elem_of_fmap. simpl in Hid.
      destruct (Hin _ Hc') as [Hrange _]. simpl in Hrange. lia.
    + rewrite Hall. intros c [->|Hc']%elem_of_cons; simpl.
      * split; [lia|done].
      * destruct (Hin _ Hc') as [Hrange Hloop]. split; [lia|done].
  - split_and!; [split_and!| | |]; simpl; [done|done| | |lia|done|done].
    + eapply sublist_NoDup; [exact Hnd|]. apply fmap_sublist, sublist_filter.
    + intros c [_ Hc']%list_elem_of_filter. by apply Hin.
Qed.

Lemma table_ok_serve_all qs : forall s n0,
  table_ok n0 s ->
  table_ok n0 (serve_all qs s) /\
  nextConnId_ (serve_all qs s) = nextConnId_ s + accepted qs /\
  get_all_loops (threadPool_ (serve_all qs s)) = get_all_loops (threadPool_ s).
Proof.
  induction qs as [|q qs IH]; intros s n0 Hok; simpl.
  { split_and!; [done|lia|done]. }
  destruct (table_ok_serve q s n0 Hok) as (Hok1 & Hid1 & Hb1 & Hl1).
  destruct (IH _ _ Hok1) as (Hok2 & Hid2 & Hall2).
  fold (serve_all qs (serve q s)).
  split_and!; [done| |].
  - rewrite Hid2, Hid1. destruct q; simpl; lia.
  - rewrite Hall2. by apply get_all_loops_same.
Qed.

Lemma length_serve_all qs : forall s,
  Z.of_nat (length (connections_ (serve_all qs s))) <=
  Z.of_nat (length (connections_ s)) + accepted qs.
Proof.
  induction qs as [|q qs IH]; intros s; simpl; [lia|].
  fold (serve_all qs (serve q s)). etrans; [apply IH|].
  destruct q as [|conn]; simpl.
  - unfold new_connection. destruct (get_next_loop (threadPool_ s)). simpl. lia.
  - pose proof (length_filter (fun c : Z * positive => c.1 <> conn.1) (connections_ s)). lia.
Qed.

Lemma table_ok_make base workers : table_ok 1 (make base workers).
Proof.
  split_and!; simpl.
  - unfold on_worker. simpl. destruct workers; [by left|right; simpl; lia].
  - done.
  - apply NoDup_nil_2.
  - intros c Hc. by apply elem_of_nil in Hc.
Qed.

(** X14. Connection names never collide.  Over any sequence of accepts and
    removals on a server, as long as the [int] counter has not run out, the
    table holds each name at most once (so [connections_[connName] = conn]
    never replaces a live connection), the names are the numbers 2 up to
    [nextConnId_], the counter has advanced by one per accept, and every
    connection of the table runs on a loop of the pool. *)
Theorem connection_names_unique (base : loop) (workers : list loop) (qs : list request) :
  1 + accepted qs <= INT_MAX ->
  let s := serve_all qs (make base workers) in
  NoDup (connections_ s).*1 /\
  nextConnId_ s = 1 + accepted qs /\
  (forall c, c ∈ connections_ s ->
     2 <= c.1 <= nextConnId_ s /\ c.2 ∈ get_all_loops (started base workers)) /\
  Z.of_nat (length (connections_ s)) <= accepted qs.
Proof.
  intros _ s.
  destruct (table_ok_serve_all qs _ _ (table_ok_make base workers))
    as ((Hcur & Hn0 & Hnd & Hin) & Hid & Hall).
  fold s in Hcur, Hn0, Hnd, Hin, Hid, Hall. simpl in Hid, Hall.
  split_and!; [done|done| |].
  - intros c Hc. destruct (Hin c Hc) as [Hrange Hloop].
    rewrite Hall in Hloop. split; [lia|done].
  - pose proof (length_serve_all qs (make base workers)) as Hlen.
    fold s in Hlen. simpl in Hlen. lia.
Qed.

Lemma map_fmap_S {A} (f : nat -> A) (l : list nat) :
  map f (S <$> l) = map (fun k => f (S k)) l.
Proof. induction l as [|k l IH]; simpl; [done|]. f_equal. exact IH. Qed.

(** The table after [m] accepts in a row, written out. *)
Lemma connections_accepts (m : nat) : forall s : server,
  let p := threadPool_ s in
  let n := Z.of_nat (length (loops_ p)) in
  0 <= next_ p < n ->
  connections_ (accepts m s) =
    rev (map (fun k => (nextConnId_ s + 1 + Z.of_nat k,
                        nth (Z.to_nat ((next_ p + Z.of_nat k) mod n)) (loops_ p) (baseLoop_ p)))
             (seq 0 m))
    ++ connections_ s /\
  next_ (threadPool_ (accepts m s)) = (next_ p + Z.of_nat m) mod n /\
  nextConnId_ (accepts m s) = nextConnId_ s + Z.of_nat m.
Proof.
  induction m as [|m IH]; intros s p n Hcur.
  { simpl. split_and!; [done| |lia]. rewrite Z.add_0_r, Z.mod_small; done. }
  simpl accepts.
  assert (Hstep := get_next_loop_worker p ltac:(fold n; lia) Hcur). fold n in Hstep.
  assert (Hpool := pool_new_connection s). fold p in Hpool. rewrite Hstep in Hpool.
  assert (0 <= (next_ p + 1) mod n < n) as Hcur' by (apply Z.mod_pos_bound; lia).
  specialize (IH (new_connection s)). rewrite Hpool in IH. simpl in IH.
  fold n in IH. destruct (IH Hcur') as (Hconn & Hnext & Hid). clear IH.
  assert (nextConnId_ (new_connection s) = nextConnId_ s + 1) as Hid1.
  { unfold new_connection. by destruct (get_next_loop (threadPool_ s)). }
  assert (connections_ (new_connection s) =
          (nextConnId_ s + 1, nth (Z.to_nat (next_ p)) (loops_ p) (baseLoop_ p))
            :: connections_ s) as Hconn1.
  { unfold new_connection. fold p. rewrite Hstep. done. }
  split_and!.
  - rewrite Hconn, Hconn1, Hid1.
    change (seq 0 (S m)) with (0%nat :: seq 1 m).
    rewrite <- (fmap_S_seq 0 m). simpl map.
    change (Z.of_nat 0) with 0. rewrite !Z.add_0_r.
    rewrite (Z.mod_small (next_ p)) by done.
    simpl rev. rewrite <- app_assoc. simpl. f_equal. f_equal.
    rewrite map_fmap_S. apply map_ext. intros k.
    f_equal; [lia|]. f_equal. f_equal.
    rewrite Z.add_mod_idemp_l by lia. f_equal. lia.
  - rewrite Hnext. rewrite Z.add_mod_idemp_l by lia. f_equal. lia.
  - rewrite Hid, Hid1. lia.
Qed.

Lemma connections_accepts_base (m : nat) : forall s : server,
  loops_ (threadPool_ s) = [] ->
  connections_ (accepts m s) =
    rev (map (fun k => (nextConnId_ s + 1 + Z.of_nat k, baseLoop_ (threadPool_ s)))
             (seq 0 m))
    ++ connections_ s.
Proof.
  induction m as [|m IH]; intros s Hnone; [done|].
  simpl accepts.
  assert (new_connection s =
          {| threadPool_ := threadPool_ s; nextConnId_ := nextConnId_ s + 1;
             connections_ := (nextConnId_ s + 1, baseLoop_ (threadPool_ s))
                               :: connections_ s |}) as Hnew.
  { unfold new_connection. by rewrite get_next_loop_base. }
  rewrite IH by by rewrite Hnew. rewrite Hnew. simpl.
  change (seq 0 (S m)) with (0%nat :: seq 1 m).
  rewrite <- (fmap_S_seq 0 m). simpl map.
    change (Z.of_nat 0) with 0. rewrite !Z.add_0_r.
  simpl rev. rewrite <- app_assoc. simpl. f_equal. f_equal.
  rewrite map_fmap_S. apply map_ext. intros k. f_equal. lia.
Qed.

(** X15. Round robin, connection by connection: on a server with n >= 1
    workers the k-th connection accepted (k = 0, 1, ...) is named k + 2 and
    runs on worker k mod n, and after m accepts the cursor is at m mod n;
    with no workers every connection runs on the base loop. *)
Theorem round_robin_assignment (base : loop) (workers : list loop) (m : nat) :
  Z.of_nat m < INT_MAX ->
  let s := accepts m (make base workers) in
  let n := Z.of_nat (length workers) in
  (workers <> [] ->
   connections_ s =
     rev (map (fun k => (2 + Z.of_nat k, nth (Z.to_nat (Z.of_nat k mod n)) workers base))
              (seq 0 m)) /\
   next_ (threadPool_ s) = Z.of_nat m mod n) /\
  (workers = [] ->
   connections_ s = rev (map (fun k => (2 + Z.of_nat k, base)) (seq 0 m))).
Proof.
  intros _ s n. split.
  - intros Hne.
    assert (0 < n) as Hn by (subst n; destruct workers; [done|simpl; lia]).
    destruct (connections_accepts m (make base workers)) as (Hconn & Hnext & _).
    { simpl. lia. }
    simpl in Hconn, Hnext. fold s n in Hconn, Hnext.
    rewrite app_nil_r in Hconn. done.
  - intros ->. subst s. rewrite connections_accepts_base by done.
    simpl. by rewrite app_nil_r.
Qed.

Lemma connection_names_unique_witness :
  let s := serve_all [Accept; Accept; Close (2, 1%positive); Accept]
             (make 9%positive [1; 2]%positive) in
  NoDup (connections_ s).*1 /\ nextConnId_ s = 4.
Proof.
  intros s.
  destruct (connection_names_unique 9%positive [1; 2]%positive
              [Accept; Accept; Close (2, 1%positive); Accept]) as (Hnd & Hid & _).
  - vm_compute. congruence.
  - split; [exact Hnd|exact Hid].
Defined.

Lemma round_robin_assignment_witness :
  connections_ (accepts 5 (make 9%positive [1; 2; 3]%positive)) =
    [(6, 2%positive); (5, 1%positive); (4, 3%positive); (3, 2%positive); (2, 1%positive)] /\
  connections_ (accepts 2 (make 9%positive [])) = [(3, 9%positive); (2, 9%positive)].
Proof.
  split.
  - destruct (round_robin_assignment 9%positive [1; 2; 3]%positive 5) as [Hsome _].
    + vm_compute. reflexivity.
    + destruct Hsome as [Hconn _]; [done|]. rewrite Hconn. reflexivity.
  - destruct (round_robin_assignment 9%positive [] 2) as [_ Hnone].
    + vm_compute. reflexivity.
    + rewrite Hnone by done. reflexivity.
Defined.

End ServerFacts.

(** ** The life of a connection *)

Section LifeFacts.

Import Conn Life.

Lemma core_fields w w' :
  core w' = core w ->
  state_ w' = state_ w /\ outputBuffer_ w' = outputBuffer_ w /\
  connChannel_ w' = connChannel_ w.
Proof. unfold core. by intros [= -> -> ->]. Qed.

(** *** The functions that run on the loop keep the state *)

Lemma state_buffer_remainder bytes nwrote remaining w :
  state_ (buffer_remainder bytes nwrote remaining w) = state_ w.
Proof.
  unfold buffer_remainder, channel_update, queue_in_loop, wakeup.
  by repeat case_match.
Qed.

Lemma state_send_in_loop data len w : state_ (send_in_loop data len w) = state_ w.
Proof.
  unfold send_in_loop.
  destruct (state_ w) eqn:Hst; [by rewrite <- Hst|..].
  all: destruct (load data len w) as [bytes|]; [|by rewrite <- Hst].
  all: pose proof (core_direct_write bytes len w) as Hc.
  all: destruct (direct_write bytes len w) as [[[nwrote remaining] fault] w1].
  all: apply core_fields in Hc as (Hs & _ & _); simpl in Hs.
  all: case_match; rewrite ?state_buffer_remainder; congruence.
Qed.

Lemma state_shut_down_in_loop w : state_ (shut_down_in_loop w) = state_ w.
Proof. unfold shut_down_in_loop. by case_match. Qed.

Lemma state_run_functor f w : state_ (run_functor f w) = state_ w.
Proof.
  destruct f; simpl; [apply state_send_in_loop|apply state_shut_down_in_loop|done..].
Qed.

Lemma state_run_functors fs : forall w,
  state_ (foldl (fun w f => run_functor f w) w fs) = state_ w.
Proof.
  induction fs as [|f fs IH]; intros w; simpl; [done|].
  by rewrite IH, state_run_functor.
Qed.

Lemma state_do_pending_functors w : state_ (do_pending_functors w) = state_ w.
Proof. unfold do_pending_functors. simpl. by rewrite state_run_functors. Qed.

Lemma state_handle_write w : state_ (handle_write w) = state_ w.
Proof.
  unfold handle_write. destruct (is_writing w); [|done].
  pose proof (core_sys_write (Buffer.readable (outputBuffer_ w)) w) as Hc.
  destruct (sys_write (Buffer.readable (outputBuffer_ w)) w) as [[n e] w1].
  apply core_fields in Hc as (Hs & _ & _). simpl in Hs.
  unfold channel_update, queue_in_loop, wakeup, shut_down_in_loop.
  repeat case_match; simpl in *; congruence.
Qed.

Lemma state_send il buf w : state_ (send il buf w) = state_ w.
Proof.
  unfold send. destruct (state_ w) eqn:Hst; try done.
  destruct (heap w !! buf); [|done].
  destruct il; simpl; [by rewrite state_send_in_loop|done].
Qed.

Lemma state_send_message il message w : state_ (send_message il message w) = state_ w.
Proof. unfold send_message. simpl. by rewrite state_send. Qed.

Lemma state_handle_close w : state_ (handle_close w) = kDisconnected.
Proof. unfold handle_close, invoke. by repeat case_match. Qed.

(** The state after one step, by cases. *)
Lemma state_step w w' :
  step w w' ->
  state_ w' = state_ w \/
  (state_ w = kConnecting /\ state_ w' = kConnected) \/
  (state_ w = kConnected /\ state_ w' = kDisconnecting) \/
  state_ w' = kDisconnected.
Proof.
  destruct 1.
  - right; left. split; [done|]. unfold connect_Established. by case_match.
  - left. apply state_send.
  - left. apply state_send_message.
  - unfold shut_down. destruct (state_ w) eqn:Hst; try by left.
    right; right; left. split; [done|].
    destruct in_loop_thread; simpl.
    + by rewrite state_shut_down_in_loop.
    + done.
  - unfold handle_read. destruct (Buffer.read_fd r (inputBuffer_ w)) as [[n e] b].
    repeat case_match.
    + left. unfold invoke. by case_match.
    + right; right; right. apply state_handle_close.
    + by left.
  - left. apply state_handle_write.
  - right; right; right. apply state_handle_close.
  - by left.
  - left. apply state_do_pending_functors.
  - unfold connect_destroyed. destruct (state_ w) eqn:Hst; try by left.
    right; right; right. by case_match.
  - by left.
  - by left.
  - by left.
  - by left.
  - by left.
  - by left.
Qed.

(** X16. A connection only moves forward through Connecting, Connected,
    Disconnecting, Disconnected: no sequence of calls and loop events
    takes it back to an earlier state, and once Disconnected it stays
    Disconnected. *)
Theorem state_never_goes_back (w w' : Conn.t) :
  rtc step w w' ->
  rank (state_ w) <= rank (state_ w') /\
  (state_ w = kDisconnected -> state_ w' = kDisconnected).
Proof.
  induction 1 as [w|w w1 w' Hstep _ [IHrank IHclosed]]; [done|].
  destruct (state_step w w1 Hstep) as [Heq|[[H0 H1]|[[H0 H1]|H1]]].
  - rewrite Heq in IHrank, IHclosed. done.
  - rewrite H0. rewrite H1 in IHrank. split; [simpl in *; lia|done].
  - rewrite H0. rewrite H1 in IHrank. split; [simpl in *; lia|done].
  - rewrite (IHclosed H1) in *. split; [|done]. destruct (state_ w); simpl; lia.
Qed.

Lemma state_never_goes_back_witness :
  rank (state_ demo_fresh) <= rank (state_ (handle_close demo_half_closed)).
Proof.
  refine (proj1 (state_never_goes_back demo_fresh (handle_close demo_half_closed) _)).
  eapply rtc_l; [by apply step_established|].
  eapply rtc_l; [apply (step_send _ true 1%positive)|].
  eapply rtc_l; [apply (step_shut_down _ true)|].
  eapply rtc_l; [apply step_handle_close|].
  apply rtc_refl.
Defined.

(** *** A closed connection stays off the socket *)

Lemma quiet_core w w' : core w' = core w -> quiet w -> quiet w'.
Proof.
  intros Hc Hq. apply core_fields in Hc as (Hs & _ & Hch).
  unfold quiet. rewrite Hs, Hch. exact Hq.
Qed.

Lemma quiet_open w : state_ w <> kDisconnected -> quiet w.
Proof. unfold quiet. tauto. Qed.

Lemma quiet_not_writing w : quiet w -> state_ w = kDisconnected -> is_writing w = false.
Proof.
  intros Hq Hst. unfold is_writing, Channel.is_writing_event. by rewrite (Hq Hst).
Qed.

Lemma closed_send_in_loop data len w :
  state_ w = kDisconnected -> send_in_loop data len w = emit EvLogError w.
Proof. unfold send_in_loop. by intros ->. Qed.

Lemma closed_run_functor f w :
  quiet w -> state_ w = kDisconnected ->
  exists e, run_functor f w = emit e w /\ is_write e = false.
Proof.
  intros Hq Hst. destruct f; simpl.
  - exists EvLogError. by rewrite closed_send_in_loop.
  - exists EvShutdownWrite. unfold shut_down_in_loop.
    by rewrite (quiet_not_writing w Hq Hst).
  - by eexists.
  - by eexists.
Qed.

Lemma closed_run_functors fs : forall w,
  quiet w -> state_ w = kDisconnected ->
  exists evs,
    trace (foldl (fun w f => run_functor f w) w fs) = trace w ++ evs /\
    Forall (fun e => is_write e = false) evs /\
    core (foldl (fun w f => run_functor f w) w fs) = core w.
Proof.
  induction fs as [|f fs IH]; intros w Hq Hst; simpl.
  { exists []. by rewrite app_nil_r. }
  destruct (closed_run_functor f w Hq Hst) as (e & -> & He).
  destruct (IH (emit e w)) as (evs & Htr & Hall & Hc); [by apply (quiet_core w)|done|].
  exists (e :: evs). split_and!.
  - rewrite Htr. simpl. by rewrite <- app_assoc.
  - by constructor.
  - by rewrite Hc.
Qed.

Lemma closed_handle_write w :
  quiet w -> state_ w = kDisconnected -> handle_write w = emit EvLogError w.
Proof.
  intros Hq Hst. unfold handle_write. by rewrite (quiet_not_writing w Hq Hst).
Qed.

Lemma quiet_handle_close w : quiet (handle_close w).
Proof.
  intros _. unfold handle_close, invoke. by repeat case_match.
Qed.

Lemma quiet_step w w' : step w w' -> quiet w -> quiet w'.
Proof.
  destruct 1; intros Hq.
  - apply quiet_open. unfold connect_Established. by case_match.
  - destruct (state_ w) eqn:Hst;
      [by rewrite send_not_connected by (by rewrite Hst)
      |apply quiet_open; by rewrite state_send, Hst..].
  - destruct (state_ w) eqn:Hst;
      [by rewrite send_message_not_connected by (by rewrite Hst)
      |apply quiet_open; by rewrite state_send_message, Hst..].
  - unfold shut_down. destruct (state_ w) eqn:Hst; try done.
    apply quiet_open. destruct in_loop_thread; simpl.
    + by rewrite state_shut_down_in_loop.
    + done.
  - unfold handle_read. destruct (Buffer.read_fd r (inputBuffer_ w)) as [[n e] b].
    repeat case_match.
    + unfold invoke. by case_match; apply (quiet_core w).
    + apply quiet_handle_close.
    + by apply (quiet_core w).
  - destruct (state_ w) eqn:Hst;
      [rewrite closed_handle_write by done; by apply (quiet_core w)
      |apply quiet_open; by rewrite state_handle_write, Hst..].
  - apply quiet_handle_close.
  - by apply (quiet_core w).
  - destruct (state_ w) eqn:Hst;
      [|apply quiet_open; by rewrite state_do_pending_functors, Hst..].
    unfold do_pending_functors.
    destruct (closed_run_functors (pendingFunctors_ w) (set_pending [] (set_calling true w)))
      as (evs & _ & _ & Hc); [by apply (quiet_core w)|done|].
    eapply quiet_core; [|exact Hq].
    by etrans; [|exact Hc].
  - unfold connect_destroyed. destruct (state_ w) eqn:Hst;
      try (by apply (quiet_core w)).
    intros _. by case_match.
  - by apply (quiet_core w).
  - by apply (quiet_core w).
  - by apply (quiet_core w).
  - by apply (quiet_core w).
  - by apply (quiet_core w).
  - by apply (quiet_core w).
Qed.

Lemma quiet_reachable w : reachable w -> quiet w.
Proof.
  induction 1 as [w (sockfd & h & k & c1 & c2 & c3 & c4 & ->)|w w' _ IH Hstep].
  - by apply quiet_open.
  - by eapply quiet_step.
Qed.

(** What one step adds to the trace of a closed connection. *)
Lemma silent_step w w' :
  step w w' -> quiet w -> state_ w = kDisconnected ->
  exists evs, trace w' = trace w ++ evs /\ Forall (fun e => is_write e = false) evs.
Proof.
  assert (forall w0 w1 : Conn.t, trace w1 = trace w0 ->
            exists evs, trace w1 = trace w0 ++ evs /\
                        Forall (fun e => is_write e = false) evs) as Hsame.
  { intros w0 w1 ->. exists []. by rewrite app_nil_r. }
  destruct 1; intros Hq Hst.
  - congruence.
  - rewrite send_not_connected by (by rewrite Hst). by apply Hsame.
  - rewrite send_message_not_connected by (by rewrite Hst). by apply Hsame.
  - unfold shut_down. rewrite Hst. by apply Hsame.
  - unfold handle_read, handle_close, handle_error, invoke, channel_update.
    destruct (Buffer.read_fd r (inputBuffer_ w)) as [[n e] b].
    repeat case_match; simpl; rewrite <- ?app_assoc;
      (eexists; split; [reflexivity|]); by repeat constructor.
  - rewrite closed_handle_write by done. by exists [EvLogError]; repeat constructor.
  - unfold handle_close, invoke, channel_update.
    repeat case_match; simpl; rewrite <- ?app_assoc;
      (eexists; split; [reflexivity|]); by repeat constructor.
  - by exists [EvLogError]; repeat constructor.
  - unfold do_pending_functors.
    destruct (closed_run_functors (pendingFunctors_ w) (set_pending [] (set_calling true w)))
      as (evs & Htr & Hall & _); [by apply (quiet_core w)|done|].
    by exists evs.
  - unfold connect_destroyed. rewrite Hst. by exists [EvRemoveChannel]; repeat constructor.
  - by apply Hsame.
  - by apply Hsame.
  - by apply Hsame.
  - by apply Hsame.
  - by apply Hsame.
  - by apply Hsame.
Qed.

Lemma silent_steps w w' :
  rtc step w w' -> quiet w -> state_ w = kDisconnected ->
  exists evs, trace w' = trace w ++ evs /\ Forall (fun e => is_write e = false) evs.
Proof.
  induction 1 as [w|w w1 w' Hstep Hsteps IH]; intros Hq Hst.
  { exists []. by rewrite app_nil_r. }
  destruct (silent_step w w1 Hstep Hq Hst) as (e1 & Ht1 & Ha1).
  destruct IH as (e2 & Ht2 & Ha2).
  { by eapply quiet_step. }
  { apply (state_never_goes_back w w1); [by apply rtc_once|done]. }
  exists (e1 ++ e2). split; [by rewrite Ht2, Ht1, app_assoc|by apply Forall_app].
Qed.

(** X17. Nothing is written to the socket of a closed connection.  Once a
    connection the server made is Disconnected, its channel has an empty
    interest mask and stays so, and whatever is called on it afterwards
    (sends, tasks still queued, late events) issues no further [::write]. *)
Theorem no_write_after_close (w w' : Conn.t) :
  reachable w -> state_ w = kDisconnected -> rtc step w w' ->
  (forall data n, EvWrite data n ∉ since w w') /\
  Channel.events_ (connChannel_ w') = Channel.KNoneEvent /\
  is_writing w' = false.
Proof.
  intros Hreach Hst Hsteps.
  pose proof (quiet_reachable w Hreach) as Hq.
  assert (reachable w') as Hreach'.
  { clear Hst Hq. induction Hsteps; [done|]. apply IHHsteps. by eapply reachable_step. }
  pose proof (quiet_reachable w' Hreach') as Hq'.
  assert (state_ w' = kDisconnected) as Hst'.
  { by apply (state_never_goes_back w w'). }
  destruct (silent_steps w w' Hsteps Hq Hst) as (evs & Htr & Hall).
  split_and!.
  - intros data n Hin. rewrite (since_app w w' evs Htr) in Hin.
    rewrite Forall_forall in Hall. by specialize (Hall _ Hin).
  - by apply Hq'.
  - by apply quiet_not_writing.
Qed.

Lemma no_write_after_close_witness :
  let w := handle_close demo_half_closed in
  let w' := do_pending_functors (handle_write (send true 1%positive w)) in
  (forall data n, EvWrite data n ∉ since w w') /\
  Channel.events_ (connChannel_ w') = Channel.KNoneEvent /\
  is_writing w' = false.
Proof.
  intros w w'. apply no_write_after_close.
  - eapply reachable_step; [apply reachable_demo_half_closed|apply step_handle_close].
  - reflexivity.
  - eapply rtc_l; [apply (step_send _ true 1%positive)|].
    eapply rtc_l; [apply step_handle_write|].
    eapply rtc_l; [apply step_pending|].
    apply rtc_refl.
Defined.

(** *** Bytes are neither lost nor reordered *)

Lemma wire_app tr1 tr2 : wire (tr1 ++ tr2) = wire tr1 ++ wire tr2.
Proof. unfold wire. by rewrite fmap_app, concat_app. Qed.

Lemma readable_empty b : Buffer.readable_bytes b = 0 -> Buffer.readable b = [].
Proof. unfold Buffer.readable. by intros ->. Qed.

Lemma feasible_less len len' b :
  0 <= len' <= len -> Buffer.feasible len b -> Buffer.feasible len' b.
Proof. unfold Buffer.feasible. intros Hle [H|H]; [left|right]; lia. Qed.

Lemma stream_buffer_remainder bytes nwrote remaining w :
  let rest := take (Z.to_nat remaining) (drop (Z.to_nat nwrote) bytes) in
  Buffer.wf (outputBuffer_ w) ->
  Buffer.feasible (Z.of_nat (length rest)) (outputBuffer_ w) ->
  stream (buffer_remainder bytes nwrote remaining w) = stream w ++ rest.
Proof.
  intros rest Hwf Hfeas. unfold buffer_remainder. fold rest.
  assert (forall w1 evs,
            trace w1 = trace w ++ evs -> wire evs = [] ->
            outputBuffer_ w1 = outputBuffer_ w ->
            stream w1 = stream w) as Hframe.
  { intros w1 evs Htr Hw Ho. unfold stream. by rewrite Htr, wire_app, Hw, app_nil_r, Ho. }
  assert (forall w1,
            stream w1 = stream w -> outputBuffer_ w1 = outputBuffer_ w ->
            stream (let w2 := set_output (Buffer.append rest (outputBuffer_ w1)) w1 in
                    if negb (is_writing w2)
                    then channel_update (Channel.enable_writing (connChannel_ w2)) w2
                    else w2) = stream w ++ rest) as Hrest.
  { intros w1 Hs Ho. unfold stream in *. rewrite Ho in *.
    destruct (negb _); simpl; rewrite ?wire_app; simpl; rewrite ?app_nil_r;
      rewrite readable_append by done; rewrite app_assoc; by rewrite Hs. }
  destruct (crosses_high_water_mark _ _ _).
  - apply Hrest; [|by unfold queue_in_loop, wakeup; case_match].
    eapply Hframe; [apply trace_queue_in_loop| |by unfold queue_in_loop, wakeup; case_match].
    by destruct (negb true || callingPendingFunctors_ w).
  - by apply Hrest.
Qed.

Lemma stream_queue_in_loop il f w : stream (queue_in_loop il f w) = stream w.
Proof.
  unfold stream. rewrite trace_queue_in_loop, wire_app.
  assert (outputBuffer_ (queue_in_loop il f w) = outputBuffer_ w) as ->
    by (unfold queue_in_loop, wakeup; by case_match).
  destruct (negb il || callingPendingFunctors_ w); simpl; by rewrite app_nil_r.
Qed.

Lemma load_length data len w bytes :
  0 <= len -> load data len w = Some bytes -> Z.of_nat (length bytes) = len.
Proof.
  intros Hlen. unfold load. destruct (heap w !! data) as [s|]; [|done].
  destruct (Z.leb_spec len (Z.of_nat (length s))); [|done].
  intros [= <-]. rewrite length_take. lia.
Qed.

Lemma stream_emit e w : is_write e = false -> stream (emit e w) = stream w.
Proof.
  intros He. unfold stream. simpl. rewrite wire_app.
  assert (wire [e] = []) as -> by by destruct e.
  by rewrite app_nil_r.
Qed.

(** X18. [send_in_loop] loses and reorders nothing.  Given a message of
    [len] bytes that is alive at [data], an output buffer in the layout of
    the class diagram and room for the message without a [size_t] sum
    wrapping around, the bytes written to the socket so far followed by
    the bytes in the output buffer grow by exactly the message, whether it
    went out at once, in part, or not at all, with the two exceptions the
    code makes: on a connection that is [kDisconnected] the message is
    dropped with a log line, and a direct write that fails with EPIPE or
    ECONNRESET drops it. *)
Theorem send_in_loop_keeps_stream (data : positive) (len : Z) (w : Conn.t)
    (bytes : list byte) :
  load data len w = Some bytes ->
  0 <= len < SizeT.modulus ->
  Buffer.wf (outputBuffer_ w) ->
  Buffer.feasible len (outputBuffer_ w) ->
  stream (send_in_loop data len w) =
    stream w ++ (if disconnected w || broken_pipe w then [] else bytes).
Proof.
  intros Hload Hlen Hwf Hfeas.
  destruct (disconnected w) eqn:Hst.
  { unfold send_in_loop, disconnected in *. destruct (state_ w); try discriminate.
    rewrite stream_emit by done. simpl. by rewrite app_nil_r. }
  rewrite orb_false_l.
  pose proof (load_length data len w bytes ltac:(lia) Hload) as Hbytes.
  unfold send_in_loop. rewrite Hload.
  assert (match state_ w with
          | kDisconnected => emit EvLogError w
          | _ => let '(nwrote, remaining, faultError, w1) := direct_write bytes len w in
                 if negb faultError && (0 <? remaining)
                 then buffer_remainder bytes nwrote remaining w1 else w1
          end =
          let '(nwrote, remaining, faultError, w1) := direct_write bytes len w in
          if negb faultError && (0 <? remaining)
          then buffer_remainder bytes nwrote remaining w1 else w1) as ->
    by (unfold disconnected in Hst; by destruct (state_ w)).
  unfold direct_write, broken_pipe.
  destruct (negb (is_writing w) && (Buffer.readable_bytes (outputBuffer_ w) =? 0)) eqn:Hdirect.
  - (* the direct write *)
    apply andb_true_iff in Hdirect as [_ Hempty%Z.eqb_eq].
    pose proof (readable_empty _ Hempty) as Hnil.
    unfold sys_write. rewrite Hbytes.
    destruct (kernel w) as [|[room|e] k]; simpl.
    + (* nothing scripted: EWOULDBLOCK *)
      destruct (Z.ltb_spec 0 len); simpl.
      * rewrite stream_buffer_remainder; simpl; rewrite ?drop_0, ?take_ge by lia;
          [|done|by rewrite Hbytes].
        unfold stream. simpl. rewrite wire_app. simpl. by rewrite app_nil_r.
      * unfold stream. simpl. rewrite wire_app. simpl. rewrite app_nil_r.
        destruct bytes; [by rewrite app_nil_r|simpl in Hbytes; lia].
    + (* the kernel takes n bytes *)
      set (n := Z.max 0 (Z.min room len)).
      assert (0 <= n <= len) as Hn by (subst n; lia).
      destruct (Z.leb_spec 0 n); [|lia].
      assert (SizeT.sub len n = len - n) as Hsub.
      { unfold SizeT.sub. apply wrap_small. unfold SizeT.in_range. lia. }
      rewrite Hsub.
      assert (wire [EvWrite bytes n] = take (Z.to_nat n) bytes) as Hw
        by (unfold wire; simpl; by rewrite app_nil_r).
      destruct (Z.eqb_spec (len - n) 0) as [Hall|Hpart]; simpl.
      * assert (Z.to_nat n = length bytes) as Hfull by lia.
        destruct (Z.ltb_spec 0 (len - n)); [lia|].
        destruct (writeCompleteCallback_ w); simpl; rewrite ?stream_queue_in_loop;
          unfold stream; simpl; rewrite ?wire_app; simpl; rewrite ?app_nil_r;
          rewrite Hnil, ?app_nil_r, Hw, Hfull, firstn_all; done.
      * destruct (Z.ltb_spec 0 (len - n)); [|lia].
        rewrite stream_buffer_remainder; simpl;
          [|done|eapply feasible_less; [|exact Hfeas]; rewrite length_take, length_drop; lia].
        unfold stream. simpl. rewrite wire_app, Hw, Hnil, !app_nil_r.
        rewrite <- app_assoc. f_equal.
        rewrite (take_ge (drop _ _)) by (rewrite length_drop; lia).
        apply take_drop.
    + (* the write fails *)
      destruct (Z.eqb_spec e EWOULDBLOCK) as [->|Hne]; simpl.
      * destruct (Z.ltb_spec 0 len); simpl.
        -- rewrite stream_buffer_remainder; simpl; rewrite ?drop_0, ?take_ge by lia;
             [|done|by rewrite Hbytes].
           unfold stream. simpl. rewrite wire_app. simpl. by rewrite app_nil_r.
        -- unfold stream. simpl. rewrite wire_app. simpl. rewrite app_nil_r.
           destruct bytes; [by rewrite app_nil_r|simpl in Hbytes; lia].
      * destruct ((e =? EPIPE) || (e =? ECONNRESET)); simpl.
        -- unfold stream. simpl. rewrite !wire_app. simpl. by rewrite !app_nil_r.
        -- destruct (Z.ltb_spec 0 len); simpl.
           ++ rewrite stream_buffer_remainder; simpl; rewrite ?drop_0, ?take_ge by lia;
                [|done|by rewrite Hbytes].
              unfold stream. simpl. rewrite !wire_app. simpl. by rewrite !app_nil_r.
           ++ unfold stream. simpl. rewrite !wire_app. simpl. rewrite !app_nil_r.
              destruct bytes; [by rewrite app_nil_r|simpl in Hbytes; lia].
  - (* output is pending: the message is queued behind it *)
    simpl. destruct (Z.ltb_spec 0 len); simpl.
    + rewrite stream_buffer_remainder; simpl; rewrite ?drop_0, ?take_ge by lia;
        [done|done|by rewrite Hbytes].
    + destruct bytes; [by rewrite app_nil_r|simpl in Hbytes; lia].
Qed.

Lemma stream_channel_update c w : stream (channel_update c w) = stream w.
Proof. unfold stream. simpl. rewrite wire_app. simpl. by rewrite app_nil_r. Qed.

Lemma stream_shut_down_in_loop w : stream (shut_down_in_loop w) = stream w.
Proof.
  unfold shut_down_in_loop, stream. destruct (negb (is_writing w)); [|done].
  simpl. rewrite wire_app. simpl. by rewrite app_nil_r.
Qed.

Lemma stream_failed_write data n w :
  n <= 0 -> stream (emit (EvWrite data n) w) = stream w.
Proof.
  intros Hn. unfold stream. simpl. rewrite wire_app. unfold wire at 2. simpl.
  replace (Z.to_nat n) with 0%nat by lia. by rewrite take_0, !app_nil_r.
Qed.

(** X19. [handle_write] drains the output buffer by exactly what the
    kernel took: the bytes written so far followed by the bytes still
    buffered are the same before and after, so the peer receives the
    buffered bytes once each, in order, however the writes are split. *)
Theorem handle_write_keeps_stream (w : Conn.t) :
  Buffer.wf (outputBuffer_ w) ->
  stream (handle_write w) = stream w /\
  Buffer.wf (outputBuffer_ (handle_write w)).
Proof.
  intros Hwf. unfold handle_write.
  destruct (is_writing w); [|by rewrite stream_emit].
  pose proof (length_readable _ Hwf) as Hlen.
  unfold sys_write.
  destruct (kernel w) as [|[room|e] k]; simpl;
    [by rewrite stream_emit, stream_failed_write| |by rewrite stream_emit, stream_failed_write].
  set (pending := Buffer.readable (outputBuffer_ w)) in *.
  set (n := Z.max 0 (Z.min room (Z.of_nat (length pending)))).
  assert (0 <= n <= Z.of_nat (length pending)) as Hn by (subst n; lia).
  destruct (Z.ltb_spec 0 n) as [Hpos|Hzero]; simpl.
  2:{ by rewrite stream_emit, stream_failed_write. }
  assert (stream (set_output (Buffer.retrieve n (outputBuffer_ w))
                    (emit (EvWrite pending n) (set_kernel k w))) = stream w) as Hdrain.
  { unfold stream. simpl. rewrite wire_app. unfold wire at 2. simpl.
    rewrite readable_retrieve by (done || lia). fold pending.
    rewrite app_nil_r, <- app_assoc. by rewrite take_drop. }
  pose proof (wf_retrieve n _ ltac:(lia) Hwf) as Hwf'.
  destruct (Buffer.readable_bytes (Buffer.retrieve n (outputBuffer_ w)) =? 0); [|done].
  set (w3 := channel_update _ _).
  assert (stream w3 = stream w /\
          outputBuffer_ w3 = Buffer.retrieve n (outputBuffer_ w)) as [Hs3 Ho3].
  { subst w3. by rewrite stream_channel_update. }
  set (w4 := if writeCompleteCallback_ w then _ else _).
  assert (stream w4 = stream w /\
          outputBuffer_ w4 = Buffer.retrieve n (outputBuffer_ w)) as [Hs4 Ho4].
  { subst w4. destruct (writeCompleteCallback_ w); [|done].
    rewrite stream_queue_in_loop. split; [done|].
    unfold queue_in_loop, wakeup. by case_match. }
  destruct (state_ w4); rewrite ?stream_shut_down_in_loop; try (by rewrite Ho4).
  split; [done|]. unfold shut_down_in_loop. case_match; simpl; by rewrite Ho4.
Qed.

Lemma send_in_loop_keeps_stream_witness :
  stream (send_in_loop 1%positive 5 demo_connected) = stream demo_connected ++ hello.
Proof.
  apply (send_in_loop_keeps_stream 1%positive 5 demo_connected hello).
  - reflexivity.
  - vm_compute. split; congruence.
  - apply wf_make; [done|vm_compute; reflexivity].
  - left. vm_compute. congruence.
Defined.

Lemma handle_write_keeps_stream_witness :
  stream (handle_write demo_backlog) = stream demo_backlog.
Proof.
  refine (proj1 (handle_write_keeps_stream demo_backlog _)).
  split; vm_compute; congruence.
Defined.

(** *** The task queue *)




(** *** Closing *)


(** *** Reading *)

(** X22. [handle_read] by the result of the read.  Data: the bytes are
    appended to the input buffer and the message callback is called once,
    with the receive time (called untested: with none installed the call
    throws).  End of file: the close path runs.  Error: two log lines and
    nothing else; the connection is not closed and keeps its state, its
    interest mask and its buffers. *)
Theorem handle_read_by_result (recvTime : Z) (r : Buffer.readv_result) (w : Conn.t) :
  Buffer.wf (inputBuffer_ w) ->
  Buffer.feasible_op (Buffer.OpReadFd r) (inputBuffer_ w) ->
  let w' := handle_read recvTime r w in
  match r with
  | Buffer.ReadvErr e =>
      since w w' = [EvLogError; EvLogError] /\
      core w' = core w /\ inputBuffer_ w' = inputBuffer_ w
  | Buffer.ReadvOk [] =>
      state_ w' = kDisconnected /\
      since w w' = since w (handle_close w) /\
      Buffer.readable (inputBuffer_ w') = Buffer.readable (inputBuffer_ w)
  | Buffer.ReadvOk avail =>
      Buffer.readable (inputBuffer_ w') =
        Buffer.readable (inputBuffer_ w) ++
        take (Z.to_nat (Fifo.read_fd_capacity (inputBuffer_ w))) avail /\
      since w w' =
        [if messageCallback_ w then EvCall (CbMessage recvTime) else EvBadFunctionCall] /\
      core w' = core w
  end.
Proof.
  intros Hwf Hfeas w'. subst w'. unfold handle_read.
  destruct r as [e|avail].
  { simpl. split_and!; [|done|done]. apply since_app. simpl. by rewrite <- app_assoc. }
  destruct (read_fd_ok avail _ Hwf Hfeas) as (Hn & Hdata & _).
  destruct (Buffer.read_fd (Buffer.ReadvOk avail) (inputBuffer_ w)) as [[n e] b].
  simpl in Hn, Hdata. injection Hn as -> ->.
  pose proof (read_fd_capacity_ge _ Hwf) as Hcap. unfold Buffer.extrabuf_size in Hcap.
  destruct avail as [|x avail].
  - rewrite take_nil in *. simpl.
    assert (inputBuffer_ (handle_close (set_input b w)) = b) as Hin
      by (unfold handle_close, invoke; by repeat case_match).
    split_and!; [apply state_handle_close| |by rewrite Hin, Hdata, app_nil_r].
    unfold since, handle_close, invoke, channel_update. simpl.
    by repeat case_match.
  - set (data := take _ (x :: avail)) in *.
    assert (0 < Z.of_nat (length data)) as Hpos.
    { subst data. rewrite length_take. simpl. lia. }
    destruct (Z.ltb_spec 0 (Z.of_nat (length data))); [|lia].
    unfold invoke. destruct (messageCallback_ w) eqn:Hcb; simpl; rewrite Hcb;
      (split_and!; [done|by apply since_app|done]).
Qed.

Lemma handle_read_by_result_witness :
  Buffer.readable (inputBuffer_ (handle_read 1000 (Buffer.ReadvOk hello) demo_connected))
    = hello /\
  since demo_connected (handle_read 1000 (Buffer.ReadvOk hello) demo_connected)
    = [EvCall (CbMessage 1000)] /\
  since demo_connected (handle_read 1000 (Buffer.ReadvErr ECONNRESET) demo_connected)
    = [EvLogError; EvLogError].
Proof.
  assert (Buffer.wf (inputBuffer_ demo_connected)) as Hwf
    by (apply wf_make; [done|vm_compute; reflexivity]).
  split_and!.
  - refine (proj1 (handle_read_by_result 1000 (Buffer.ReadvOk hello) demo_connected Hwf _)).
    vm_compute. exact I.
  - refine (proj1 (proj2
              (handle_read_by_result 1000 (Buffer.ReadvOk hello) demo_connected Hwf _))).
    vm_compute. exact I.
  - refine (proj1
              (handle_read_by_result 1000 (Buffer.ReadvErr ECONNRESET) demo_connected Hwf _)).
    exact I.
Defined.

(** *** Pending output *)



(** *** Posting a send *)

Lemma effects_app e1 e2 : effects (e1 ++ e2) = effects e1 ++ effects e2.
Proof. apply filter_app. Qed.

Lemma retrace_sys_write data t c w :
  sys_write data (retrace t c w) =
    ((sys_write data w).1,
     retrace (t ++ [EvWrite data (sys_write data w).1.1]) c (sys_write data w).2).
Proof. unfold sys_write. simpl. by destruct (kernel w) as [|[room|e] k]. Qed.

Lemma retrace_queue_in_loop f t c w :
  queue_in_loop true f (retrace t c w) =
    retrace (t ++ EvQueueInLoop f :: (if c then [EvWakeup] else [])) c
      (queue_in_loop true f w).
Proof.
  unfold queue_in_loop, wakeup, retrace. simpl.
  destruct c, (callingPendingFunctors_ w); unfold emit, set_pending; simpl;
    by rewrite <- ?app_assoc.
Qed.

Lemma effects_queue f (c c' : bool) :
  effects (EvQueueInLoop f :: (if c then [EvWakeup] else [])) =
  effects (EvQueueInLoop f :: (if c' then [EvWakeup] else [])).
Proof. by destruct c, c'. Qed.

(** The direct write does the same whatever the trace and the drain flag
    are, up to the wake-ups that queueing makes during a drain. *)
Lemma retrace_direct_write bytes len t c w :
  exists evs evs',
    trace (direct_write bytes len w).2 = trace w ++ evs /\
    direct_write bytes len (retrace t c w) =
      ((direct_write bytes len w).1, retrace (t ++ evs') c (direct_write bytes len w).2) /\
    effects evs' = effects evs.
Proof.
  unfold direct_write, is_writing. simpl.
  destruct (negb (Channel.is_writing_event (connChannel_ w)) &&
            (Buffer.readable_bytes (outputBuffer_ w) =? 0)).
  2:{ exists [], []. by rewrite !app_nil_r. }
  rewrite retrace_sys_write.
  pose proof (trace_sys_write bytes w) as Htr.
  assert (writeCompleteCallback_ (sys_write bytes w).2 = writeCompleteCallback_ w) as Hwc
    by (unfold sys_write; by repeat case_match).
  destruct (sys_write bytes w) as [[n errno] w1]. simpl in *.
  destruct (0 <=? n).
  - destruct ((SizeT.sub len n =? 0) && writeCompleteCallback_ w1); simpl.
    + rewrite retrace_queue_in_loop, trace_queue_in_loop, Htr, <- !app_assoc.
      eexists _, _. split_and!; [reflexivity|reflexivity|].
      simpl. by destruct c, (callingPendingFunctors_ w1).
    + by eexists _, _.
  - destruct (negb (errno =? EWOULDBLOCK)); simpl.
    + rewrite Htr, <- !app_assoc.
      exists [EvWrite bytes n; EvLogError], [EvWrite bytes n; EvLogError].
      split_and!; [done| |done].
      unfold emit, retrace. simpl. by rewrite <- !app_assoc.
    + by eexists _, _.
Qed.

Lemma retrace_arm rest t c w :
  exists evs,
    trace (let w2 := set_output (Buffer.append rest (outputBuffer_ w)) w in
           if negb (is_writing w2)
           then channel_update (Channel.enable_writing (connChannel_ w2)) w2
           else w2) = trace w ++ evs /\
    (let w2 := set_output (Buffer.append rest (outputBuffer_ (retrace t c w)))
                 (retrace t c w) in
     if negb (is_writing w2)
     then channel_update (Channel.enable_writing (connChannel_ w2)) w2
     else w2) =
    retrace (t ++ evs) c
      (let w2 := set_output (Buffer.append rest (outputBuffer_ w)) w in
       if negb (is_writing w2)
       then channel_update (Channel.enable_writing (connChannel_ w2)) w2
       else w2).
Proof.
  unfold is_writing, channel_update. simpl.
  destruct (negb (Channel.is_writing_event (connChannel_ w))).
  - eexists [_]. split; [reflexivity|]. by unfold emit, retrace.
  - exists []. split; [by rewrite app_nil_r|].
    unfold retrace, set_output. simpl. by rewrite app_nil_r.
Qed.

Lemma retrace_buffer_remainder bytes nwrote remaining t c w :
  exists evs evs',
    trace (buffer_remainder bytes nwrote remaining w) = trace w ++ evs /\
    buffer_remainder bytes nwrote remaining (retrace t c w) =
      retrace (t ++ evs') c (buffer_remainder bytes nwrote remaining w) /\
    effects evs' = effects evs.
Proof.
  unfold buffer_remainder, crosses_high_water_mark.
  change (outputBuffer_ (retrace t c w)) with (outputBuffer_ w).
  change (highWaterMark_ (retrace t c w)) with (highWaterMark_ w).
  change (highWaterMarkCallback_ (retrace t c w)) with (highWaterMarkCallback_ w).
  set (rest := take (Z.to_nat remaining) (drop (Z.to_nat nwrote) bytes)).
  destruct ((SizeT.add (Buffer.readable_bytes (outputBuffer_ w)) remaining >=?
             highWaterMark_ w) &&
            (Buffer.readable_bytes (outputBuffer_ w) <? highWaterMark_ w) &&
            highWaterMarkCallback_ w).
  - rewrite retrace_queue_in_loop.
    set (f := FHighWaterMarkCallback _).
    pose proof (trace_queue_in_loop true f w) as Htr.
    set (q' := EvQueueInLoop f :: (if c then [EvWakeup] else [])).
    destruct (retrace_arm rest (t ++ q') c (queue_in_loop true f w)) as (evs & Htr2 & Heq).
    cbv zeta in Htr2, Heq. cbv zeta. rewrite Heq, Htr2, Htr.
    eexists _, (q' ++ evs). split_and!.
    + by rewrite <- app_assoc.
    + by rewrite app_assoc.
    + rewrite !effects_app. f_equal. subst q'. simpl.
      by destruct c, (callingPendingFunctors_ w).
  - destruct (retrace_arm rest t c w) as (evs & Htr2 & Heq).
    cbv zeta in Htr2, Heq. cbv zeta. rewrite Heq, Htr2.
    by exists evs, evs.
Qed.

(** [send_in_loop] likewise. *)
Lemma retrace_send_in_loop data len t c w :
  exists evs evs',
    trace (send_in_loop data len w) = trace w ++ evs /\
    send_in_loop data len (retrace t c w) =
      retrace (t ++ evs') c (send_in_loop data len w) /\
    effects evs' = effects evs.
Proof.
  unfold send_in_loop, load.
  change (state_ (retrace t c w)) with (state_ w).
  change (heap (retrace t c w)) with (heap w).
  assert (exists evs evs',
            trace (emit EvLogError w) = trace w ++ evs /\
            emit EvLogError (retrace t c w) = retrace (t ++ evs') c (emit EvLogError w) /\
            effects evs' = effects evs) as Hclosed by by exists [EvLogError], [EvLogError].
  assert (exists evs evs',
            trace (emit (EvInvalidRead data) w) = trace w ++ evs /\
            emit (EvInvalidRead data) (retrace t c w) =
              retrace (t ++ evs') c (emit (EvInvalidRead data) w) /\
            effects evs' = effects evs) as Hinvalid
    by by exists [EvInvalidRead data], [EvInvalidRead data].
  destruct (state_ w); [exact Hclosed|..].
  all: destruct (heap w !! data) as [s|]; [|exact Hinvalid].
  all: destruct (len <=? Z.of_nat (length s)); [|exact Hinvalid].
  all: destruct (retrace_direct_write (take (Z.to_nat len) s) len t c w)
         as (e1 & e1' & Htr1 & -> & He1).
  all: destruct (direct_write (take (Z.to_nat len) s) len w)
         as [[[nwrote remaining] fault] w1]; simpl in Htr1; simpl.
  all: destruct (negb fault && (0 <? remaining)); [|by exists e1, e1'].
  all: destruct (retrace_buffer_remainder (take (Z.to_nat len) s) nwrote remaining
                   (t ++ e1') c w1) as (e2 & e2' & Htr2 & -> & He2).
  all: exists (e1 ++ e2), (e1' ++ e2'); split_and!;
         [by rewrite Htr2, Htr1, app_assoc
         |by rewrite app_assoc
         |by rewrite !effects_app, He1, He2].
Qed.

(** X27. Posting a send is the same as sending, if the caller's string
    is still there: on a Connected connection with an idle task queue,
    [send] from another thread followed by the drain that runs the posted
    task leaves the connection, its buffers, the socket and the task queue
    exactly as [send] on the loop thread does; the traces differ only by
    the posting itself and by wake-ups. *)
Theorem posted_send_matches_direct (buf : positive) (s : list byte) (w : Conn.t) :
  state_ w = kConnected ->
  heap w !! buf = Some s ->
  pendingFunctors_ w = [] ->
  callingPendingFunctors_ w = false ->
  let posted := do_pending_functors (send false buf w) in
  let direct := send true buf w in
  exists evs,
    posted =
      retrace (trace w ++ EvQueueInLoop (FSendInLoop buf (Z.of_nat (length s)))
                 :: EvWakeup :: evs) false direct /\
    effects evs = effects (since w direct).
Proof.
  intros Hst Hheap Hpending Hcalling posted direct. subst posted direct.
  unfold send. rewrite Hst, Hheap. simpl.
  unfold do_pending_functors, queue_in_loop, wakeup. simpl. rewrite Hpending. simpl.
  set (size := Z.of_nat (length s)).
  set (t := (trace w ++ [EvQueueInLoop (FSendInLoop buf size)]) ++ [EvWakeup]).
  assert (set_pending []
            (set_calling true
               (emit EvWakeup
                  (emit (EvQueueInLoop (FSendInLoop buf size))
                     (set_pending [FSendInLoop buf size] w)))) = retrace t true w) as ->.
  { unfold retrace, set_pending, set_calling, emit. simpl. by rewrite Hpending. }
  destruct (retrace_send_in_loop buf size t true w) as (evs & evs' & Htr & -> & Heff).
  exists evs'. split.
  - unfold set_calling, retrace. simpl. subst t. rewrite <- !app_assoc. simpl.
    f_equal.
  - by rewrite (since_app w _ evs Htr).
Qed.

Lemma posted_send_matches_direct_witness :
  exists evs,
    do_pending_functors (send false 1%positive demo_connected) =
      retrace (trace demo_connected ++
                 EvQueueInLoop (FSendInLoop 1%positive 5) :: EvWakeup :: evs)
              false (send true 1%positive demo_connected) /\
    effects evs = effects (since demo_connected (send true 1%positive demo_connected)).
Proof.
  apply (posted_send_matches_direct 1%positive hello demo_connected); reflexivity.
Defined.

End LifeFacts.

(** ** Accepting connections *)

Section AcceptorFacts.

Import Acceptor.

(** X23. [Acceptor::handle_read] disposes of every descriptor it accepts
    exactly once: the descriptor goes to the new-connection callback if one
    is installed and is closed otherwise, never both and never neither; a
    failed accept hands nothing over and is logged (twice on EMFILE).  The
    address passed along is the peer's, except for descriptor 0, which
    [Socket::accept] takes for a failure: its connection is reported with
    the default address 0.0.0.0:0. *)
Theorem accepted_descriptor_disposed_once (installed : bool) (r : accept_result) :
  match r with
  | AcceptOk connfd peer =>
      0 <= connfd ->
      disposals connfd (handle_read installed r) = 1%nat /\
      (forall fd, fd <> connfd -> disposals fd (handle_read installed r) = 0%nat) /\
      (installed = true ->
       EvNewConnection connfd (if 0 <? connfd then peer else default_address)
         ∈ handle_read installed r) /\
      (installed = false -> EvClose connfd ∈ handle_read installed r) /\
      logged (handle_read installed r) = 0%nat
  | AcceptErr e =>
      (forall fd, disposals fd (handle_read installed r) = 0%nat) /\
      logged (handle_read installed r) = (if (e =? EMFILE)%Z then 3%nat else 2%nat)
  end.
Proof.
  destruct r as [connfd peer|e].
  - intros Hfd. unfold handle_read, socket_accept, sockets_accept, disposals, logged.
    destruct (Z.ltb_spec connfd 0); [lia|].
    destruct (Z.leb_spec 0 connfd); [|lia].
    destruct installed; simpl; rewrite !filter_cons, !filter_nil; simpl;
      rewrite Z.eqb_refl; simpl.
    + split_and!; [done| |by intros _; set_solver|done|done].
      intros fd Hne. rewrite !filter_cons, filter_nil. simpl.
      by destruct (Z.eqb_spec connfd fd); [congruence|].
    + split_and!; [done| |done|by intros _; set_solver|done].
      intros fd Hne. rewrite !filter_cons, filter_nil. simpl.
      by destruct (Z.eqb_spec connfd fd); [congruence|].
  - unfold handle_read, socket_accept, sockets_accept, disposals, logged. simpl.
    split.
    + intros fd. by destruct (e =? EMFILE).
    + by destruct (e =? EMFILE).
Qed.

Lemma accepted_descriptor_disposed_once_witness :
  disposals 9 (handle_read true (AcceptOk 9 (mk_addr AF_INET 8080 1))) = 1%nat /\
  EvNewConnection 0 default_address ∈ handle_read true (AcceptOk 0 (mk_addr AF_INET 8080 1)).
Proof.
  split.
  - refine (proj1 (accepted_descriptor_disposed_once true
                     (AcceptOk 9 (mk_addr AF_INET 8080 1)) _)). lia.
  - destruct (accepted_descriptor_disposed_once true
                (AcceptOk 0 (mk_addr AF_INET 8080 1))) as (_ & _ & Hcb & _); [lia|].
    by apply Hcb.
Defined.

End AcceptorFacts.

(** ** Timestamps *)

Section TimestampFacts.

Import Timestamp.

(** X24. What [to_formatted_string] prints from a timestamp taken by
    [now()], for a [gettimeofday] result with 0 <= tv_usec < 1000000 whose
    microsecond count fits [int64_t].  At or after the epoch, or on a whole
    second, [/] and [%] give back [tv_sec] and [tv_usec].  Before the
    epoch with a fraction of a second they do not, since C++ division
    truncates towards zero: the second is [tv_sec + 1] and the microsecond
    is [tv_usec - 1000000], a negative number. *)
Theorem now_splits_back (tv : timeval) :
  0 <= tv_usec tv < kMicroSecondsPerSecond ->
  INT64_MIN <= now tv <= INT64_MAX ->
  (0 <= tv_sec tv \/ tv_usec tv = 0 ->
   seconds (now tv) = tv_sec tv /\ microseconds (now tv) = tv_usec tv) /\
  (tv_sec tv < 0 -> 0 < tv_usec tv ->
   seconds (now tv) = tv_sec tv + 1 /\
   microseconds (now tv) = tv_usec tv - kMicroSecondsPerSecond).
Proof.
  intros Husec _. unfold seconds, microseconds, now, kMicroSecondsPerSecond in *.
  split.
  - intros [Hsec|Hzero].
    + assert (0 <= tv_sec tv * (1000 * 1000) + tv_usec tv) by lia.
      rewrite Z.quot_div_nonneg, Z.rem_mod_nonneg by lia.
      split.
      * rewrite Z.div_add_l by lia. rewrite Z.div_small by lia. lia.
      * rewrite Z.add_comm, Z.mod_add by lia. by apply Z.mod_small.
    + rewrite Hzero, Z.add_0_r. split; [by apply Z.quot_mul|by apply Z.rem_mul].
  - intros Hsec Hpos.
    set (s := - tv_sec tv - 1). set (u := 1000 * 1000 - tv_usec tv).
    replace (tv_sec tv * (1000 * 1000) + tv_usec tv) with (- (s * (1000 * 1000) + u))
      by (subst s u; lia).
    rewrite Z.quot_opp_l, Z.rem_opp_l by lia.
    assert (0 <= s * (1000 * 1000) + u) by (subst s u; lia).
    rewrite Z.quot_div_nonneg, Z.rem_mod_nonneg by lia.
    rewrite Z.div_add_l by lia. rewrite (Z.div_small u) by (subst u; lia).
    rewrite (Z.add_comm (s * (1000 * 1000)) u), Z.mod_add by lia.
    rewrite Z.mod_small by (subst u; lia).
    subst s u. lia.
Qed.

Lemma now_splits_back_witness :
  (seconds (now (mk_timeval 1700000000 250000)) = 1700000000 /\
   microseconds (now (mk_timeval 1700000000 250000)) = 250000) /\
  (seconds (now (mk_timeval (-1) 1)) = 0 /\
   microseconds (now (mk_timeval (-1) 1)) = -999999).
Proof.
  split.
  - apply (now_splits_back (mk_timeval 1700000000 250000)).
    + vm_compute. split; congruence.
    + vm_compute. split; congruence.
    + left. vm_compute. congruence.
  - apply (now_splits_back (mk_timeval (-1) 1)).
    + vm_compute. split; congruence.
    + vm_compute. split; congruence.
    + reflexivity.
    + reflexivity.
Defined.

End TimestampFacts.
